(** * go-clipsync: the client-side chunked transport, verified

    A shallow embedding of the Go packages [clipsync/internal] (snapshot
    model, [QuickKey]) and [clipsync/internal/net] (poll.go: [Send],
    [postChunkWithRetry], [Poll], [discover], [fetchChunk],
    [state.assemble], [randomID]; client.go: [buildAuthHeader], [bodyCap],
    [mustJSON]), followed by [NewHTTP] and [newShared] with [encoding/hex],
    the [watcher] and the [poller] of cmd/clipsync, and the package
    [clipsync/internal/clip] (image.go: [ImageToDIB], [DIBToPNG]; clip.go:
    [openCB], [writeSnapshot], [putText], [putPNG], [readSnapshot],
    [tryFormat], [readDIBAsPNG], [readText]) over the calls into user32.dll
    as transition functions.

    Conventions.
    - A Go [string] is a [string], a [[]byte] a [list byte].  An [int] is a
      [Z]; where the code adds to a length the sum goes through
      [GoInt.add], which wraps at 64 bits.
    - [map[int][]byte] is a [gmap Z (list byte)]; a missing key reads as the
      nil slice, as in Go.
    - A function that talks to the relay takes the world it runs in and
      returns the world it leaves, with the list of the requests it made
      and their answers: [c.client.Do] is a transition function [Do] on an
      abstract [World], [time.Sleep] another one, [time.Now] reads it.
    - [crypto/sha256], [encoding/base64], [fmt]'s [%x] and the reflection
      step of [encoding/json] (which fields of a struct the decoder fills,
      and from what) are written out.  The JSON scanner and [json.Marshal]
      are variables of the section that holds the transport; module [Json]
      and [marshalSnapshot] give reference instances for concrete inputs.
    - A nil-pointer panic is the result [None]. *)

From Stdlib Require Import ZArith List Bool Lia.
From Stdlib Require Import Strings.String Strings.Ascii Strings.Byte.
From Stdlib Require Import Sorting.Sorted.
From stdpp Require Import base tactics option list sorting finite gmap strings pretty.

Import ListNotations.
Set Warnings "-register-all".
Local Open Scope string_scope.
Local Open Scope Z_scope.
Local Open Scope list_scope.

(** ** Go's [int] on a 64-bit platform *)
Module GoInt.

Definition MinInt : Z := - 2 ^ 63.
Definition MaxInt : Z := 2 ^ 63 - 1.

(** Two's-complement wrap-around of a mathematical integer into [int]. *)
Definition wrap (z : Z) : Z := (z + 2 ^ 63) mod 2 ^ 64 - 2 ^ 63.

Definition add (a b : Z) : Z := wrap (a + b).

(** [len(x)] of a slice or string. *)
Definition len {A} (l : list A) : Z := Z.of_nat (length l).

(** The slice expression [b[i:j]] for [0 <= i <= j <= len(b)]. *)
Definition slice {A} (b : list A) (i j : Z) : list A :=
  take (Z.to_nat (j - i)) (drop (Z.to_nat i) b).

End GoInt.

(** ** [crypto/sha256] (FIPS 180-4), on 32-bit words held in [Z] *)
Module Sha256.

Definition mask32 : Z := 0xffffffff.
Definition w32 (x : Z) : Z := Z.land x mask32.
Definition add32 (a b : Z) : Z := w32 (a + b).
Definition rotr (n x : Z) : Z :=
  Z.lor (Z.shiftr x n) (w32 (Z.shiftl x (32 - n))).
Definition shr (n x : Z) : Z := Z.shiftr x n.
Definition not32 (x : Z) : Z := Z.lxor x mask32.

Definition Ch (x y z : Z) : Z := Z.lxor (Z.land x y) (Z.land (not32 x) z).
Definition Maj (x y z : Z) : Z :=
  Z.lxor (Z.lxor (Z.land x y) (Z.land x z)) (Z.land y z).
Definition bsig0 (x : Z) : Z := Z.lxor (Z.lxor (rotr 2 x) (rotr 13 x)) (rotr 22 x).
Definition bsig1 (x : Z) : Z := Z.lxor (Z.lxor (rotr 6 x) (rotr 11 x)) (rotr 25 x).
Definition ssig0 (x : Z) : Z := Z.lxor (Z.lxor (rotr 7 x) (rotr 18 x)) (shr 3 x).
Definition ssig1 (x : Z) : Z := Z.lxor (Z.lxor (rotr 17 x) (rotr 19 x)) (shr 10 x).

(** The round constants are "the first 32 bits of the fractional parts of
    the cube roots of the first 64 primes", the initial hash value the same
    for the square roots of the first 8. *)
Definition is_prime (n : Z) : bool :=
  forallb (fun d => negb (n mod d =? 0)) (seqZ 2 (n - 2)).

Definition primes : list Z := List.filter is_prime (seqZ 2 310).

(** The integer cube root, found bit by bit from bit 39 down. *)
Definition icbrt (n : Z) : Z :=
  fold_left (fun r bit => let r' := r + 2 ^ bit in
                          if r' * r' * r' <=? n then r' else r)
            (reverse (seqZ 0 40)) 0.

Definition K : list Z :=
  Eval vm_compute in map (fun p => Z.land (icbrt (p * 2 ^ 96)) mask32) primes.

Definition H0 : list Z :=
  Eval vm_compute in
    map (fun p => Z.land (Z.sqrt (p * 2 ^ 64)) mask32) (take 8 primes).

Definition byte_val (b : byte) : Z := Z.of_N (Byte.to_N b).
Definition byte_of_Z (z : Z) : byte :=
  match Byte.of_N (Z.to_N (Z.land z 0xff)) with
  | Some b => b
  | None => x00
  end.

(** Big-endian encodings. *)
Definition be32 (x : Z) : list byte :=
  [ byte_of_Z (Z.shiftr x 24); byte_of_Z (Z.shiftr x 16);
    byte_of_Z (Z.shiftr x 8); byte_of_Z x ].
Definition be64 (x : Z) : list byte :=
  be32 (Z.shiftr x 32) ++ be32 x.

Fixpoint words (bs : list byte) : list Z :=
  match bs with
  | a :: b :: c :: d :: rest =>
      Z.lor (Z.shiftl (byte_val a) 24)
        (Z.lor (Z.shiftl (byte_val b) 16)
           (Z.lor (Z.shiftl (byte_val c) 8) (byte_val d)))
      :: words rest
  | _ => []
  end.

(** Message padding: 0x80, zeros up to 56 mod 64, then the bit length. *)
Definition pad (msg : list byte) : list byte :=
  let l := Z.of_nat (length msg) in
  let k := Z.to_nat ((55 - l) mod 64) in
  msg ++ x80 :: repeat x00 k ++ be64 (8 * l).

(** Message schedule: [w] holds W[0..t-1]; append [n] further words. *)
Fixpoint schedule (n : nat) (w : list Z) : list Z :=
  match n with
  | O => w
  | S n' =>
      let t := length w in
      let at_ (k : nat) := nth (t - k) w 0 in
      schedule n'
        (w ++ [add32 (add32 (ssig1 (at_ 2%nat)) (at_ 7%nat))
                     (add32 (ssig0 (at_ 15%nat)) (at_ 16%nat))])
  end.

Record regs := Regs { ra : Z; rb : Z; rc : Z; rd : Z;
                      re : Z; rf : Z; rg : Z; rh : Z }.

Definition round (r : regs) (kw : Z * Z) : regs :=
  let t1 := add32 (add32 (add32 (rh r) (bsig1 (re r)))
                         (add32 (Ch (re r) (rf r) (rg r)) (fst kw))) (snd kw) in
  let t2 := add32 (bsig0 (ra r)) (Maj (ra r) (rb r) (rc r)) in
  Regs (add32 t1 t2) (ra r) (rb r) (rc r) (add32 (rd r) t1) (re r) (rf r) (rg r).

Definition regs_of (h : list Z) : regs :=
  Regs (nth 0 h 0) (nth 1 h 0) (nth 2 h 0) (nth 3 h 0)
       (nth 4 h 0) (nth 5 h 0) (nth 6 h 0) (nth 7 h 0).

Definition compress (h : list Z) (block : list byte) : list Z :=
  let w := schedule 48 (words block) in
  let r := fold_left round (combine K w) (regs_of h) in
  zip_with add32 h [ra r; rb r; rc r; rd r; re r; rf r; rg r; rh r].

(** One 64-byte block per unit of fuel. *)
Fixpoint blocks (fuel : nat) (h : list Z) (bs : list byte) : list Z :=
  match fuel with
  | O => h
  | S fuel' =>
      match bs with
      | [] => h
      | _ => blocks fuel' (compress h (take 64 bs)) (drop 64 bs)
      end
  end.

(** [sha256.Sum256]: the 32-byte digest. *)
Definition sum (msg : list byte) : list byte :=
  let p := pad msg in
  concat (map be32 (blocks (length p) H0 p)).

End Sha256.

Definition hex_digit (z : Z) : ascii :=
  ascii_of_nat (Z.to_nat (if z <? 10 then 48 + z else 87 + z)).

(** [fmt.Sprintf("%x", b)] for a byte slice. *)
Fixpoint hex (bs : list byte) : string :=
  match bs with
  | [] => EmptyString
  | b :: rest =>
      let v := Sha256.byte_val b in
      String (hex_digit (v / 16)) (String (hex_digit (v mod 16)) (hex rest))
  end.


(** ** [encoding/json]: values, scanner, struct decoding

    [value] is a parsed JSON document; a number keeps its literal, as the Go
    decoder does until it knows the target type.  [scan] is a reference
    scanner for concrete documents; it follows RFC 8259 and agrees with
    encoding/json on documents whose strings are valid UTF-8 and hold no
    surrogate escapes.  [decode_struct] is the reflection step that fills a
    struct from an object: it sees the exported fields only. *)
Module Json.

Inductive value : Type :=
| Null
| Bool (b : bool)
| Number (lit : string)
| Str (s : string)
| Array (vs : list value)
| Object (members : list (string * value)).

Definition bv (b : byte) : Z := Z.of_N (Byte.to_N b).

Definition is_ws (b : byte) : bool :=
  match b with
  | x20 | x09 | x0a | x0d => true
  | _ => false
  end.

Fixpoint skip_ws (bs : list byte) : list byte :=
  match bs with
  | b :: rest => if is_ws b then skip_ws rest else bs
  | [] => []
  end.

Definition all_ws (bs : list byte) : bool := forallb is_ws bs.

Definition is_digit (b : byte) : bool := (48 <=? bv b) && (bv b <=? 57).

Definition hex_val (b : byte) : option Z :=
  let v := bv b in
  if (48 <=? v) && (v <=? 57) then Some (v - 48)
  else if (97 <=? v) && (v <=? 102) then Some (v - 87)
  else if (65 <=? v) && (v <=? 70) then Some (v - 55)
  else None.

Definition byte_of (z : Z) : byte := Sha256.byte_of_Z z.

(** UTF-8 encoding of a code point of the Basic Multilingual Plane that is
    not a surrogate. *)
Definition utf8 (cp : Z) : option (list byte) :=
  if cp <? 0x80 then Some [byte_of cp]
  else if cp <? 0x800 then
    Some [byte_of (0xc0 + cp / 64); byte_of (0x80 + cp mod 64)]
  else if (0xd800 <=? cp) && (cp <=? 0xdfff) then None
  else Some [byte_of (0xe0 + cp / 4096); byte_of (0x80 + (cp / 64) mod 64);
             byte_of (0x80 + cp mod 64)].

Definition simple_escape (e : byte) : option byte :=
  match e with
  | x22 => Some x22
  | x5c => Some x5c
  | x2f => Some x2f
  | x62 => Some x08
  | x66 => Some x0c
  | x6e => Some x0a
  | x72 => Some x0d
  | x74 => Some x09
  | _ => None
  end.

(** The rest of a string literal, after its opening quote. *)
Fixpoint scan_string (bs : list byte) : option (list byte * list byte) :=
  match bs with
  | [] => None
  | x22 :: rest => Some ([], rest)
  | x5c :: x75 :: a :: b :: c :: d :: rest =>
      match hex_val a, hex_val b, hex_val c, hex_val d with
      | Some a, Some b, Some c, Some d =>
          match utf8 (((a * 16 + b) * 16 + c) * 16 + d), scan_string rest with
          | Some u, Some (s, r) => Some (u ++ s, r)
          | _, _ => None
          end
      | _, _, _, _ => None
      end
  | x5c :: e :: rest =>
      match simple_escape e, scan_string rest with
      | Some c, Some (s, r) => Some (c :: s, r)
      | _, _ => None
      end
  | x5c :: [] => None
  | c :: rest =>
      if bv c <? 0x20 then None
      else match scan_string rest with
           | Some (s, r) => Some (c :: s, r)
           | None => None
           end
  end.

Fixpoint span_digits (bs : list byte) : list byte * list byte :=
  match bs with
  | b :: rest =>
      if is_digit b then let '(ds, r) := span_digits rest in (b :: ds, r)
      else ([], bs)
  | [] => ([], [])
  end.

(** A number literal: [-]? int frac? exp?. *)
Definition scan_number (bs : list byte) : option (list byte * list byte) :=
  let '(sign, r0) :=
    match bs with
    | x2d :: r => ([x2d], r)
    | _ => ([], bs)
    end in
  let '(int, r1) := span_digits r0 in
  match int with
  | [] => None
  | d :: more =>
      if (bv d =? 48) && negb (length more =? 0)%nat then None
      else
        let frac :=
          match r1 with
          | x2e :: r =>
              let '(ds, r') := span_digits r in
              match ds with
              | [] => None
              | _ => Some (x2e :: ds, r')
              end
          | _ => Some ([], r1)
          end in
        match frac with
        | None => None
        | Some (fr, r2) =>
            match r2 with
            | e :: r =>
                if (bv e =? 101) || (bv e =? 69) then
                  let '(sg, r') :=
                    match r with
                    | x2b :: r' => ([x2b], r')
                    | x2d :: r' => ([x2d], r')
                    | _ => ([], r)
                    end in
                  let '(ds, r'') := span_digits r' in
                  match ds with
                  | [] => None
                  | _ => Some (sign ++ int ++ fr ++ e :: sg ++ ds, r'')
                  end
                else Some (sign ++ int ++ fr, r2)
            | [] => Some (sign ++ int ++ fr, r2)
            end
        end
  end.

Definition to_str (bs : list byte) : string := string_of_list_byte bs.

(** One JSON value after optional white space, and the input left over. *)
Fixpoint scan_value (fuel : nat) (bs : list byte) : option (value * list byte) :=
  match fuel with
  | O => None
  | S fuel' =>
      match skip_ws bs with
      | x7b :: rest =>
          match skip_ws rest with
          | x7d :: r => Some (Object [], r)
          | _ => scan_members fuel' rest []
          end
      | x5b :: rest =>
          match skip_ws rest with
          | x5d :: r => Some (Array [], r)
          | _ => scan_elems fuel' rest []
          end
      | x22 :: rest =>
          match scan_string rest with
          | Some (s, r) => Some (Str (to_str s), r)
          | None => None
          end
      | x74 :: x72 :: x75 :: x65 :: r => Some (Bool true, r)
      | x66 :: x61 :: x6c :: x73 :: x65 :: r => Some (Bool false, r)
      | x6e :: x75 :: x6c :: x6c :: r => Some (Null, r)
      | other =>
          match scan_number other with
          | Some (lit, r) => Some (Number (to_str lit), r)
          | None => None
          end
      end
  end
with scan_elems (fuel : nat) (bs : list byte) (acc : list value)
  : option (value * list byte) :=
  match fuel with
  | O => None
  | S fuel' =>
      match scan_value fuel' bs with
      | Some (v, r) =>
          match skip_ws r with
          | x2c :: r' => scan_elems fuel' r' (acc ++ [v])
          | x5d :: r' => Some (Array (acc ++ [v]), r')
          | _ => None
          end
      | None => None
      end
  end
with scan_members (fuel : nat) (bs : list byte) (acc : list (string * value))
  : option (value * list byte) :=
  match fuel with
  | O => None
  | S fuel' =>
      match skip_ws bs with
      | x22 :: r0 =>
          match scan_string r0 with
          | Some (k, r1) =>
              match skip_ws r1 with
              | x3a :: r2 =>
                  match scan_value fuel' r2 with
                  | Some (v, r3) =>
                      match skip_ws r3 with
                      | x2c :: r4 => scan_members fuel' r4 (acc ++ [(to_str k, v)])
                      | x7d :: r4 => Some (Object (acc ++ [(to_str k, v)]), r4)
                      | _ => None
                      end
                  | None => None
                  end
              | _ => None
              end
          | None => None
          end
      | _ => None
      end
  end.

(** Every recursive call but one of two in a row consumes a byte. *)
Definition scan (bs : list byte) : option (value * list byte) :=
  scan_value (2 * length bs + 2) bs.

(** *** Filling a struct by reflection *)

(** A struct field as the decoder sees it: its Go name, the key of its
    [json] tag, and how a JSON value is stored into it ([None]: the value
    does not fit the field's type, an [UnmarshalTypeError]). *)
Record field (T : Type) : Type := Field {
  go_name : string;
  json_key : string;
  store : value -> T -> option T
}.
Arguments Field {T} _ _ _.
Arguments go_name {T} _.
Arguments json_key {T} _.
Arguments store {T} _ _ _.

(** A field is exported when its name starts with an upper-case letter;
    encoding/json ignores every other field, tagged or not. *)
Definition exported (name : string) : bool :=
  match name with
  | String c _ => let n := Z.of_nat (nat_of_ascii c) in (65 <=? n) && (n <=? 90)
  | EmptyString => false
  end.

Definition lower (c : ascii) : ascii :=
  let n := nat_of_ascii c in
  if ((65 <=? n) && (n <=? 90))%nat then ascii_of_nat (n + 32) else c.

Fixpoint fold_case (s : string) : string :=
  match s with
  | String c r => String (lower c) (fold_case r)
  | EmptyString => EmptyString
  end.

(** The field for an object key: an exact match of the tag key first, a
    match up to letter case otherwise. *)
Definition find_field {T} (fs : list (field T)) (key : string) : option (field T) :=
  let vis := filter (fun f => exported (go_name f) = true) fs in
  match List.find (fun f => String.eqb (json_key f) key) vis with
  | Some f => Some f
  | None => List.find (fun f => String.eqb (fold_case (json_key f)) (fold_case key)) vis
  end.

(** Members are stored in document order; a value that does not fit is
    skipped and remembered as an error, unknown keys are skipped. *)
Fixpoint fill {T} (fs : list (field T)) (ms : list (string * value)) (x : T)
  : T * bool :=
  match ms with
  | [] => (x, true)
  | (k, v) :: rest =>
      match find_field fs k with
      | None => fill fs rest x
      | Some f =>
          match store f v x with
          | Some x' => fill fs rest x'
          | None => let '(x', _) := fill fs rest x in (x', false)
          end
      end
  end.

(** Decoding into a struct: [null] leaves it alone, an object fills it, any
    other value is a type error. *)
Definition decode_struct {T} (fs : list (field T)) (zero : T) (v : value)
  : option T :=
  match v with
  | Null => Some zero
  | Object ms => let '(x, ok) := fill fs ms zero in if ok then Some x else None
  | _ => None
  end.

Fixpoint digits_val (acc : Z) (s : string) : option Z :=
  match s with
  | EmptyString => Some acc
  | String c r =>
      let n := Z.of_nat (nat_of_ascii c) in
      if (48 <=? n) && (n <=? 57) then digits_val (acc * 10 + (n - 48)) r
      else None
  end.

(** [strconv.ParseInt(lit, 10, 64)] on a JSON number literal, then the range
    check of the target integer type. *)
Definition int_of_lit (lo hi : Z) (lit : string) : option Z :=
  let r :=
    match lit with
    | String "-" (String c r) => option_map Z.opp (digits_val 0 (String c r))
    | EmptyString => None
    | _ => digits_val 0 lit
    end in
  match r with
  | Some z => if (lo <=? z) && (z <=? hi) then Some z else None
  | None => None
  end.

Definition as_string (v : value) (old : string) : option string :=
  match v with
  | Str s => Some s
  | Null => Some old
  | _ => None
  end.

Definition as_int (lo hi : Z) (v : value) (old : Z) : option Z :=
  match v with
  | Number lit => int_of_lit lo hi lit
  | Null => Some old
  | _ => None
  end.

(** An unsigned target goes through [strconv.ParseUint], which takes no
    sign. *)
Definition as_uint (hi : Z) (v : value) (old : Z) : option Z :=
  match v with
  | Number (String "-" _) => None
  | _ => as_int 0 hi v old
  end.

(** A JSON array into a slice: the slice is rebuilt from the elements;
    [null] makes it nil. *)
Definition as_slice {A} (elem : value -> option A) (v : value) : option (list A) :=
  match v with
  | Array vs => mapM elem vs
  | Null => Some []
  | _ => None
  end.

(** *** Writing strings *)

Definition hexd (z : Z) : byte := byte_of (if z <? 10 then 48 + z else 87 + z).

(** One byte of a string literal as [json.Marshal] writes it, HTML escaping
    on.  A byte above 0x7f is written as the replacement character, which is
    what Go does for a byte that is not part of a valid UTF-8 sequence (the
    bytes of a hash, as a rule); a valid multi-byte sequence, which Go would
    copy, is outside what this reference instance is used on. *)
Definition escape_byte (b : byte) : list byte :=
  match b with
  | x22 => [x5c; x22]
  | x5c => [x5c; x5c]
  | x08 => [x5c; x62]
  | x0c => [x5c; x66]
  | x0a => [x5c; x6e]
  | x0d => [x5c; x72]
  | x09 => [x5c; x74]
  | _ =>
      let v := bv b in
      if (v <? 0x20) || (v =? 0x3c) || (v =? 0x3e) || (v =? 0x26) then
        [x5c; x75; x30; x30; hexd (v / 16); hexd (v mod 16)]
      else if 0x80 <=? v then [x5c; x75; x66; x66; x66; x64]
      else [b]
  end.

Definition quote (s : string) : list byte :=
  x22 :: concat (map escape_byte (list_byte_of_string s)) ++ [x22].

End Json.

(** ** Package [internal]: the snapshot model *)

Record Item : Type := mkItem {
  Fmt : Z;            (* uint32, json "fmt" *)
  Payload : string;   (* json "payload": base64 text *)
  ByteLen : Z;        (* int, json "byte_len" *)
  FmtName : string;   (* json "fmt_name" *)
  MimeType : string   (* json "mime_type" *)
}.

Record Snapshot : Type := mkSnapshot {
  Origin : string;    (* json "origin" *)
  TS : Z;             (* int64, json "ts" *)
  Items : list Item;  (* json "items" *)
  Quick : string      (* json "qkey" *)
}.

(** The [h.Write] loop of [QuickKey]: the hash has been fed [fed] so far. *)
Definition writePayloads (items : list Item) (fed : list byte) : list byte :=
  fold_left (fun h it => h ++ list_byte_of_string (Payload it)) items fed.

Definition QuickKey (items : list Item) : string :=
  if (length items =? 0)%nat then "empty"
  else string_of_list_byte (take 8 (Sha256.sum (writePayloads items []))).

(** *** The structs as encoding/json sees them *)

Definition uint32_max : Z := 2 ^ 32 - 1.

Definition Item_fields : list (Json.field Item) :=
  [ Json.Field "Fmt" "fmt" (fun v x =>
      z ← Json.as_uint uint32_max v (Fmt x);
      Some (mkItem z (Payload x) (ByteLen x) (FmtName x) (MimeType x)));
    Json.Field "Payload" "payload" (fun v x =>
      s ← Json.as_string v (Payload x);
      Some (mkItem (Fmt x) s (ByteLen x) (FmtName x) (MimeType x)));
    Json.Field "ByteLen" "byte_len" (fun v x =>
      z ← Json.as_int GoInt.MinInt GoInt.MaxInt v (ByteLen x);
      Some (mkItem (Fmt x) (Payload x) z (FmtName x) (MimeType x)));
    Json.Field "FmtName" "fmt_name" (fun v x =>
      s ← Json.as_string v (FmtName x);
      Some (mkItem (Fmt x) (Payload x) (ByteLen x) s (MimeType x)));
    Json.Field "MimeType" "mime_type" (fun v x =>
      s ← Json.as_string v (MimeType x);
      Some (mkItem (Fmt x) (Payload x) (ByteLen x) (FmtName x) s)) ].

Definition zeroItem : Item := mkItem 0 "" 0 "" "".
Definition zeroSnapshot : Snapshot := mkSnapshot "" 0 [] "".

Definition Snapshot_fields : list (Json.field Snapshot) :=
  [ Json.Field "Origin" "origin" (fun v x =>
      s ← Json.as_string v (Origin x);
      Some (mkSnapshot s (TS x) (Items x) (Quick x)));
    Json.Field "TS" "ts" (fun v x =>
      z ← Json.as_int GoInt.MinInt GoInt.MaxInt v (TS x);
      Some (mkSnapshot (Origin x) z (Items x) (Quick x)));
    Json.Field "Items" "items" (fun v x =>
      l ← Json.as_slice (Json.decode_struct Item_fields zeroItem) v;
      Some (mkSnapshot (Origin x) (TS x) l (Quick x)));
    Json.Field "Quick" "qkey" (fun v x =>
      s ← Json.as_string v (Quick x);
      Some (mkSnapshot (Origin x) (TS x) (Items x) s)) ].

(** *** A reference [json.Marshal] for [Snapshot] *)

Definition lit (s : string) : list byte := list_byte_of_string s.
Definition key (k : string) : list byte := Json.quote k ++ lit ":".
Definition num (z : Z) : list byte := lit (pretty z).

Definition marshalItem (it : Item) : list byte :=
  lit "{" ++ key "fmt" ++ num (Fmt it)
  ++ lit "," ++ key "payload" ++ Json.quote (Payload it)
  ++ lit "," ++ key "byte_len" ++ num (ByteLen it)
  ++ lit "," ++ key "fmt_name" ++ Json.quote (FmtName it)
  ++ lit "," ++ key "mime_type" ++ Json.quote (MimeType it) ++ lit "}".

Fixpoint joinComma (xs : list (list byte)) : list byte :=
  match xs with
  | [] => []
  | [x] => x
  | x :: rest => x ++ lit "," ++ joinComma rest
  end.

(** A nil slice is written [null]; the empty list stands for it. *)
Definition marshalItems (items : list Item) : list byte :=
  match items with
  | [] => lit "null"
  | _ => lit "[" ++ joinComma (map marshalItem items) ++ lit "]"
  end.

Definition marshalSnapshot (s : Snapshot) : list byte :=
  lit "{" ++ key "origin" ++ Json.quote (Origin s)
  ++ lit "," ++ key "ts" ++ num (TS s)
  ++ lit "," ++ key "items" ++ marshalItems (Items s)
  ++ lit "," ++ key "qkey" ++ Json.quote (Quick s) ++ lit "}".

(** ** [encoding/base64]: [StdEncoding.EncodeToString] *)

Definition b64char (n : Z) : ascii :=
  ascii_of_nat (Z.to_nat (if n <? 26 then 65 + n
                          else if n <? 52 then 71 + n
                          else if n <? 62 then n - 4
                          else if n =? 62 then 43 else 47)).

Fixpoint base64 (bs : list byte) : string :=
  match bs with
  | [] => EmptyString
  | [a] =>
      let n := Sha256.byte_val a * 65536 in
      String (b64char (n / 262144)) (String (b64char (n / 4096 mod 64)) "==")
  | [a; b] =>
      let n := Sha256.byte_val a * 65536 + Sha256.byte_val b * 256 in
      String (b64char (n / 262144))
        (String (b64char (n / 4096 mod 64))
           (String (b64char (n / 64 mod 64)) "="))
  | a :: b :: c :: rest =>
      let n := Sha256.byte_val a * 65536 + Sha256.byte_val b * 256
               + Sha256.byte_val c in
      String (b64char (n / 262144))
        (String (b64char (n / 4096 mod 64))
           (String (b64char (n / 64 mod 64))
              (String (b64char (n mod 64)) (base64 rest))))
  end.

(** ** Package [net]: what client.go and poll.go declare *)

(** [const bodyCap = 32 * 1024 * 1024] *)
Definition bodyCap : Z := 32 * 1024 * 1024.

(** [const chunkSize = 300 * 1024] *)
Definition chunkSize : Z := 300 * 1024.

(** [maxRetries = 5] *)
Definition maxRetries : Z := 5.

(** [httpClient] with its embedded [shared]: endpoint, device id, key. *)
Record httpClient : Type := mkClient {
  url : string;
  id : string;
  key64 : Z
}.

Module discoverResp.
(** [type discoverResp struct { cid string; total int; have []int }] *)
Record t : Type := mk { cid : string; total : Z; have : list Z }.
Definition zero : t := mk "" 0 [].

(** The three fields carry json tags, and their names start with a
    lower-case letter. *)
Definition fields : list (Json.field t) :=
  [ Json.Field "cid" "cid" (fun v x =>
      s ← Json.as_string v (cid x); Some (mk s (total x) (have x)));
    Json.Field "total" "total" (fun v x =>
      z ← Json.as_int GoInt.MinInt GoInt.MaxInt v (total x);
      Some (mk (cid x) z (have x)));
    Json.Field "have" "have" (fun v x =>
      l ← Json.as_slice (fun e => Json.as_int GoInt.MinInt GoInt.MaxInt e 0) v;
      Some (mk (cid x) (total x) l)) ].
End discoverResp.

Module state.
(** [type state struct { cid string; total int; parts map[int][]byte }] *)
Record t : Type := mk { cid : string; total : Z; parts : gmap Z (list byte) }.
Definition zero : t := mk "" 0 ∅.
End state.

Inductive method : Type := GET | POST.

(** An [*http.Request] as the transport builds it.  The chunk index and total
    are the integers whose decimal text ([strconv.Itoa]) is the header. *)
Record Request : Type := mkRequest {
  req_method : method;
  req_url : string;
  X_Auth_Token : string;
  X_Device_Id : string;
  X_Chunk_Id : option string;
  X_Chunk_Idx : option Z;
  X_Chunk_Total : option Z;
  Content_Type : option string;
  req_body : list byte
}.

(** What [client.Do] hands back: an error, or a response. *)
Inductive Response : Type :=
| TransportError (text : string)
| HTTP (StatusCode : Z) (Status : string) (Body : list byte).

Definition Exchange : Type := Request * Response.

(** Go [error] values.  [errorsNew] and the two [fmt.Errorf] shapes are built
    by this package; [errLib] is an error handed back by net/http or
    encoding/json, with its text. *)
Inductive error : Type :=
| errorsNew (text : string)
| errPostChunk (idx : Z) (cause : error)
| errChunkStatus (idx status : Z) (body : list byte)
| errLib (text : string).

Definition is2xx (r : Response) : bool :=
  match r with
  | HTTP code _ _ => (200 <=? code) && (code <? 300)
  | TransportError _ => false
  end.

(** [randomID(length)]: [rnd] is what [rand.Read] wrote into the buffer. *)
Definition randomID (length : nat) (rnd : list byte) : string :=
  hex (take length rnd).

(** The loop "slice into chunks" of [Send]; every iteration moves [i]
    forward by [chunkSize], so [length body] iterations are never all used. *)
Fixpoint chunkLoop (fuel : nat) (body : list byte) (i : Z)
    (chunks : list (list byte)) : list (list byte) :=
  match fuel with
  | O => chunks
  | S fuel' =>
      if i <? GoInt.len body then
        let end_ := GoInt.add i chunkSize in
        let end_ := if end_ >? GoInt.len body then GoInt.len body else end_ in
        chunkLoop fuel' body (GoInt.add i chunkSize)
          (chunks ++ [GoInt.slice body i end_])
      else chunks
  end.

Definition sliceChunks (body : list byte) : list (list byte) :=
  chunkLoop (length body) body 0 [].

(** The loop of [assemble]: [full = append(full, s.parts[i]...)] for
    [i = from, from+1, ...], [n] times. *)
Fixpoint appendParts (parts : gmap Z (list byte)) (n : nat) (i : Z)
    (full : list byte) : list byte :=
  match n with
  | O => full
  | S n' => appendParts parts n' (i + 1) (full ++ default [] (parts !! i))
  end.

Definition concatParts (s : state.t) : list byte :=
  appendParts (state.parts s) (Z.to_nat (state.total s)) 0 [].

(** [len(s.parts)] *)
Definition lenParts (s : state.t) : Z := Z.of_nat (size (state.parts s)).

(** ** The transport, over an abstract network and JSON library *)
Section Transport.

(** The world outside the process and [c.client.Do(req)] acting on it. *)
Variable World : Type.
Variable Do : World -> Request -> World * Response.

(** [time.Sleep(d)]: the world once the pause is over, whatever its length. *)
Variable Sleep : World -> World.

(** [time.Now().Unix()] *)
Variable now : World -> Z.

(** [http.NewRequest] fails only when the URL does not parse: the error text
    then, [None] otherwise. *)
Variable newRequestError : string -> option string.

(** [json.Marshal] on a [*Snapshot], which never fails ([mustJSON]). *)
Variable jsonMarshal : Snapshot -> list byte.

(** The scanner of encoding/json: the first JSON value of the input and what
    follows it, [None] on a syntax error. *)
Variable jsonScan : list byte -> option (Json.value * list byte).

Definition mustJSON (v : Snapshot) : list byte := jsonMarshal v.

(** [json.Unmarshal(data, &snap)]: the whole input is one value. *)
Definition jsonUnmarshal (data : list byte) : option Snapshot :=
  match jsonScan data with
  | Some (v, rest) =>
      if Json.all_ws rest then Json.decode_struct Snapshot_fields zeroSnapshot v
      else None
  | None => None
  end.

(** [json.NewDecoder(body).Decode(&meta)]: the first value of the stream. *)
Definition jsonDecode (body : list byte) : option discoverResp.t :=
  match jsonScan body with
  | Some (v, _) => Json.decode_struct discoverResp.fields discoverResp.zero v
  | None => None
  end.

(** [buildAuthHeader]: the token [{ts, ts_enc}] with [ts_enc = ts ^
    int64(key64)], as JSON, in base64.  [key64] is a [uint64]; its conversion
    to [int64] wraps. *)
Definition buildAuthHeader (c : httpClient) (w : World) : string :=
  let ts := now w in
  let tsEnc := Z.lxor ts (GoInt.wrap (key64 c)) in
  base64 (lit "{" ++ key "ts" ++ num ts ++ lit "," ++ key "ts_enc" ++ num tsEnc
          ++ lit "}").

(** *** Send *)

Definition postRequest (c : httpClient) (w : World) (chunkData : list byte)
    (cid : string) (idx total : Z) : Request :=
  {| req_method := POST; req_url := url c;
     X_Auth_Token := buildAuthHeader c w; X_Device_Id := id c;
     X_Chunk_Id := Some cid; X_Chunk_Idx := Some idx;
     X_Chunk_Total := Some total;
     Content_Type := Some "application/octet-stream";
     req_body := chunkData |}.

(** The body of [for retry := 0; retry <= maxRetries; retry++], run for the
    values of [retry] still to come.  Between two attempts the code sleeps
    for the current delay with a random jitter; only that it sleeps is kept. *)
Fixpoint retryLoop (c : httpClient) (chunkData : list byte) (cid : string)
    (idx total : Z) (maxRetries : Z) (retries : list Z) (lastErr : option error)
    (w : World) : option error * World * list Exchange :=
  match retries with
  | [] => (lastErr, w, [])
  | retry :: later =>
      match newRequestError (url c) with
      | Some text => (Some (errLib text), w, [])
      | None =>
          let req := postRequest c w chunkData cid idx total in
          let '(w', resp) := Do w req in
          let continue (e : error) :=
            let w' := if retry <? maxRetries then Sleep w' else w' in
            let '(r, w'', log) :=
              retryLoop c chunkData cid idx total maxRetries later (Some e) w' in
            (r, w'', (req, resp) :: log) in
          match resp with
          | TransportError text => continue (errPostChunk idx (errLib text))
          | HTTP code _ body =>
              if (200 <=? code) && (code <? 300) then (None, w', [(req, resp)])
              else continue (errChunkStatus idx code body)
          end
      end
  end.

(** [retry] takes the values 0, 1, ..., [maxRetries]. *)
Definition postChunkWithRetry (c : httpClient) (chunkData : list byte)
    (cid : string) (idx total : Z) (maxRetries : Z) (w : World)
  : option error * World * list Exchange :=
  retryLoop c chunkData cid idx total maxRetries (seqZ 0 (maxRetries + 1)) None w.

(** [for idx, part := range chunks], from index [idx] on. *)
Fixpoint uploadLoop (c : httpClient) (cid : string) (totalHdr : Z) (idx : Z)
    (chunks : list (list byte)) (w : World)
  : option error * World * list Exchange :=
  match chunks with
  | [] => (None, w, [])
  | part :: rest =>
      let '(err, w', log) :=
        postChunkWithRetry c part cid idx totalHdr maxRetries w in
      match err with
      | Some e => (Some e, w', log)
      | None =>
          let '(r, w'', log') := uploadLoop c cid totalHdr (idx + 1) rest w' in
          (r, w'', log ++ log')
      end
  end.

(** [snap.Quick = core.QuickKey(snap.Items)] on the copy [Send] received. *)
Definition withQuick (snap : Snapshot) : Snapshot :=
  mkSnapshot (Origin snap) (TS snap) (Items snap) (QuickKey (Items snap)).

(** [Send]: the error returned ([None] is nil), the world afterwards, and the
    requests made with their answers. *)
Definition Send (c : httpClient) (rnd : list byte) (snap : Snapshot) (w : World)
  : option error * World * list Exchange :=
  let snap := withQuick snap in
  let body := mustJSON snap in
  if GoInt.len body >? bodyCap then
    (Some (errorsNew "snapshot >32 MiB, dropped"), w, [])
  else
    let chunks := sliceChunks body in
    let cid := randomID 8 rnd in
    uploadLoop c cid (GoInt.len chunks) 0 chunks w.

(** *** Poll *)

Definition getRequest (c : httpClient) (w : World) (chunk : option (string * Z))
  : Request :=
  {| req_method := GET; req_url := url c;
     X_Auth_Token := buildAuthHeader c w; X_Device_Id := id c;
     X_Chunk_Id := fst <$> chunk; X_Chunk_Idx := snd <$> chunk;
     X_Chunk_Total := None; Content_Type := None; req_body := [] |}.

(** [discover].  The error of [http.NewRequestWithContext] is dropped, so an
    unparsable URL leaves [req] nil and [req.Header.Set] panics: [None]. *)
Definition discover (c : httpClient) (w : World)
  : option ((discoverResp.t + error) * World * list Exchange) :=
  match newRequestError (url c) with
  | Some _ => None
  | None =>
      let req := getRequest c w None in
      let '(w', resp) := Do w req in
      let r :=
        match resp with
        | TransportError text => inr (errLib text)
        | HTTP _ _ body =>
            match jsonDecode body with
            | Some meta => inl meta
            | None => inr (errLib "json")
            end
        end in
      Some (r, w', [(req, resp)])
  end.

(** [io.ReadAll(io.LimitReader(resp.Body, chunkSize+1024))] *)
Definition readLimited (body : list byte) : list byte :=
  take (Z.to_nat (chunkSize + 1024)) body.

(** [fetchChunk]; [None] is the same panic as in [discover]. *)
Definition fetchChunk (c : httpClient) (cid : string) (idx : Z) (w : World)
  : option ((list byte + error) * World * list Exchange) :=
  match newRequestError (url c) with
  | Some _ => None
  | None =>
      let req := getRequest c w (Some (cid, idx)) in
      let '(w', resp) := Do w req in
      let r :=
        match resp with
        | TransportError text => inr (errLib text)
        | HTTP code status body =>
            if negb (code =? 200) then inr (errorsNew status)
            else inl (readLimited body)
        end in
      Some (r, w', [(req, resp)])
  end.

(** [assemble]: [None] is the nil pointer. *)
Definition assemble (s : state.t) : option Snapshot :=
  if (state.total s =? 0) || negb (lenParts s =? state.total s) then None
  else jsonUnmarshal (concatParts s).

(** One pass of the body of [for _, idx := range meta.have]. *)
Definition fetchIfMissing (c : httpClient) (idx : Z) (current : state.t) (w : World)
  : option (state.t * World * list Exchange) :=
  match state.parts current !! idx with
  | Some _ => Some (current, w, [])
  | None =>
      match fetchChunk c (state.cid current) idx w with
      | None => None
      | Some (inl data, w', log) =>
          Some (state.mk (state.cid current) (state.total current)
                  (<[idx := data]> (state.parts current)), w', log)
      | Some (inr _, w', log) => Some (current, w', log)
      end
  end.

Fixpoint fetchMissing (c : httpClient) (have : list Z) (current : state.t)
    (w : World) : option (state.t * World * list Exchange) :=
  match have with
  | [] => Some (current, w, [])
  | idx :: rest =>
      match fetchIfMissing c idx current w with
      | None => None
      | Some (current', w', log) =>
          match fetchMissing c rest current' w' with
          | None => None
          | Some (current'', w'', log') => Some (current'', w'', log ++ log')
          end
      end
  end.

(** "new snapshot?": a session id that is not the one in progress starts a
    fresh chunk set. *)
Definition trackSession (meta : discoverResp.t) (current : state.t) : state.t :=
  if negb (String.eqb (discoverResp.cid meta) "")
     && negb (String.eqb (discoverResp.cid meta) (state.cid current))
  then state.mk (discoverResp.cid meta) (discoverResp.total meta) ∅
  else current.

(** What one iteration of [Poll] leaves behind: the chunk-set state, the
    world, what was written to [out], the requests made. *)
Definition Iteration : Type :=
  state.t * World * list Snapshot * list Exchange.

(** The iteration from "new snapshot?" on, given what [discover] returned. *)
Definition afterDiscover (c : httpClient) (r : discoverResp.t + error)
    (current : state.t) (w : World) : option Iteration :=
  match r with
  | inr _ => Some (current, w, [], [])
  | inl meta =>
      let current := trackSession meta current in
      if negb (String.eqb (state.cid current) "") then
        match fetchMissing c (discoverResp.have meta) current w with
        | None => None
        | Some (current, w', log) =>
            if (state.total current >? 0)
               && (lenParts current =? state.total current) then
              let out :=
                match assemble current with
                | Some snap =>
                    if negb (String.eqb (Origin snap) (id c)) then [snap] else []
                | None => []
                end in
              Some (state.zero, w', out, log)
            else Some (current, w', [], log)
        end
      else Some (current, w, [], [])
  end.

(** One iteration of the [for] loop of [Poll]. *)
Definition pollIteration (c : httpClient) (current : state.t) (w : World)
  : option Iteration :=
  match discover c w with
  | None => None
  | Some (r, w', log) =>
      match afterDiscover c r current w' with
      | None => None
      | Some (current', w'', out, log') => Some (current', w'', out, log ++ log')
      end
  end.

(** [n] iterations of [Poll] from [current], each followed by its pause of
    200 ms: the context is cancelled after them, or the goroutine has
    panicked before ([None] for the state). *)
Fixpoint pollLoop (c : httpClient) (n : nat) (current : state.t) (w : World)
  : option state.t * World * list Snapshot * list Exchange :=
  match n with
  | O => (Some current, w, [], [])
  | S n' =>
      match pollIteration c current w with
      | None => (None, w, [], [])
      | Some (current', w', out, log) =>
          let '(st, w'', out', log') := pollLoop c n' current' (Sleep w') in
          (st, w'', out ++ out', log ++ log')
      end
  end.

(** [Poll] starts from [var current state]. *)
Definition Poll (c : httpClient) (n : nat) (w : World)
  : option state.t * World * list Snapshot * list Exchange :=
  pollLoop c n state.zero w.

(** The states the loop can be in before an iteration, with everything sent
    to [out] so far, when [discover] may return anything at all and the
    world may change between two iterations. *)
Inductive PollReach (c : httpClient) : state.t -> list Snapshot -> Prop :=
| reach_start : PollReach c state.zero []
| reach_iter current out r w current' w' out' log :
    PollReach c current out ->
    afterDiscover c r current w = Some (current', w', out', log) ->
    PollReach c current' (out ++ out').

End Transport.

Arguments postRequest {World}.
Arguments retryLoop {World}.
Arguments postChunkWithRetry {World}.
Arguments uploadLoop {World}.
Arguments Send {World}.
Arguments getRequest {World}.
Arguments discover {World}.
Arguments fetchChunk {World}.
Arguments fetchIfMissing {World}.
Arguments fetchMissing {World}.
Arguments afterDiscover {World}.
Arguments pollIteration {World}.
Arguments pollLoop {World}.
Arguments Poll {World}.
Arguments PollReach {World}.
Arguments buildAuthHeader {World}.
Arguments reach_start {World}.
Arguments reach_iter {World}.
Arguments Iteration {World}.

(** ** Vocabulary of the statements *)

(** The chunk index a request carries ([-1]: none). *)
Definition idxOf (e : Exchange) : Z := default (-1) (X_Chunk_Idx (fst e)).

Definition ok (e : Exchange) : bool := is2xx (snd e).

(** The request is the POST of [data] as part [idx] of [total] of session
    [cid]. *)
Definition postedFor (cid : string) (idx total : Z) (data : list byte)
    (e : Exchange) : Prop :=
  req_method (fst e) = POST /\ X_Chunk_Id (fst e) = Some cid
  /\ X_Chunk_Idx (fst e) = Some idx /\ X_Chunk_Total (fst e) = Some total
  /\ req_body (fst e) = data.

(** The error [postChunkWithRetry] keeps after an answer, if any. *)
Definition errOfResponse (idx : Z) (r : Response) : option error :=
  match r with
  | TransportError text => Some (errPostChunk idx (errLib text))
  | HTTP code _ body =>
      if (200 <=? code) && (code <? 300) then None
      else Some (errChunkStatus idx code body)
  end.

(** A receiver that holds every part of a sliced payload: part [i] under
    key [i], however the parts arrived. *)
Definition partsOfChunks (chunks : list (list byte)) : gmap Z (list byte) :=
  map_seqZ 0 chunks.

(** How a run of attempts on one chunk can end: an accepted POST after
    rejected ones, or [n] rejected POSTs and the error of the last. *)
Definition retryOutcome (idx : Z) (n : nat) (lastErr r : option error)
    (log : list Exchange) : Prop :=
  (r = None
   /\ exists pre e, log = pre ++ [e] /\ ok e = true
        /\ Forall (fun x => ok x = false) pre /\ (length log <= n)%nat)
  \/ (Forall (fun x => ok x = false) log /\ length log = n
      /\ r = match last log with
             | Some e => errOfResponse idx (snd e)
             | None => lastErr
             end).

(** [for idx, part := range chunks], counting from [idx]. *)
Fixpoint numbered (idx : Z) (chunks : list (list byte)) : list (Z * list byte) :=
  match chunks with
  | [] => []
  | part :: rest => (idx, part) :: numbered (idx + 1) rest
  end.

(** The concatenation [h.Write] has hashed for a sequence of items. *)
Definition payloadBytes (items : list Item) : list byte :=
  concat (map (fun it => list_byte_of_string (Payload it)) items).

(** The keys of a complete chunk set: 0, ..., total-1. *)
Definition indexRange (total : Z) : gset Z := list_to_set (seqZ 0 total).

(** ** Concrete surroundings for the examples *)

(** A server that counts the requests it has answered, rejects the first
    [k] of them and accepts the rest. *)
Definition rejectFirst (k : nat) (n : nat) (_ : Request) : nat * Response :=
  (S n, if (n <? k)%nat then HTTP 500 "500 Internal Server Error" []
        else HTTP 200 "200 OK" []).

(** Nothing happens to the relay while the client sleeps. *)
Definition stay (n : nat) : nat := n.

(** A clock that advances by one second per request. *)
Definition clock (n : nat) : Z := 1700000000 + Z.of_nat n.
Definition urlParses (_ : string) : option string := None.

Definition me : httpClient := mkClient "http://localhost:5002/clip" "deadbeef" 0.

(** The document [{"cid":"abc","total":2,"have":[0,1]}]. *)
Definition discoverBody : list byte :=
  lit "{" ++ key "cid" ++ Json.quote "abc" ++ lit "," ++ key "total" ++ lit "2"
  ++ lit "," ++ key "have" ++ lit "[0,1]" ++ lit "}".

(** A snapshot from another client, with no items, as JSON. *)
Definition emptyFromOther : Snapshot := mkSnapshot "other" 17 [] "empty".
Definition otherBody : list byte := marshalSnapshot emptyFromOther.

(** A relay that answers discover with [discoverBody] and serves the two
    halves of [otherBody] as parts 0 and 1. *)
Definition relay (n : nat) (req : Request) : nat * Response :=
  (S n,
   match X_Chunk_Idx req with
   | None => HTTP 200 "200 OK" discoverBody
   | Some 0 => HTTP 200 "200 OK" (take 20 otherBody)
   | Some 1 => HTTP 200 "200 OK" (drop 20 otherBody)
   | Some _ => HTTP 404 "404 Not Found" []
   end).

(** A relay holding [otherBody] as part 0 and an unrelated part 5. *)
Definition relaySparse (n : nat) (req : Request) : nat * Response :=
  (S n,
   match X_Chunk_Idx req with
   | Some 0 => HTTP 200 "200 OK" otherBody
   | Some 5 => HTTP 200 "200 OK" (lit "junk")
   | _ => HTTP 404 "404 Not Found" []
   end).

(** The session the relay advertises, once decoded as intended. *)
Definition advertised : discoverResp.t := discoverResp.mk "abc" 2 [0; 1].

(** A chunk set with two parts, under the keys 0 and 5. *)
Definition sparseState : state.t :=
  state.mk "abc" 2 (<[0 := otherBody]> (<[5 := lit "junk"]> ∅)).

(** The text "hello!" in base64, as two items and as one. *)
Definition helloSplit : list Item :=
  [mkItem 1 "aGVs" 3 "" ""; mkItem 1 "bG8h" 3 "" ""].
Definition helloWhole : list Item := [mkItem 1 "aGVsbG8h" 6 "" ""].

(** The item whose payload is the given bytes. *)
Definition itemOf (payload : list byte) : Item :=
  mkItem 0 (string_of_list_byte payload) 0 "" "".

(** A snapshot of this client with one item. *)
Definition helloSnapshot : Snapshot := mkSnapshot "deadbeef" 17 helloWhole "".

(** A snapshot whose origin alone is [n] bytes long. *)
Definition hugeSnapshot (n : nat) : Snapshot :=
  mkSnapshot (string_of_list_byte (repeat "a"%byte n)) 0 [] "".

(** A relay that answers every request with 400 000 bytes. *)
Definition bigPart : list byte := repeat "x"%byte (Z.to_nat 400000).
Definition bigRelay (n : nat) (_ : Request) : nat * Response :=
  (S n, HTTP 200 "200 OK" bigPart).

(** ** The loop of [Poll] over any [discover] *)
Section PollOver.

Context {World : Type}.
Variable Do : World -> Request -> World * Response.
Variable Sleep : World -> World.
Variable now : World -> Z.
Variable newRequestError : string -> option string.
Variable jsonScan : list byte -> option (Json.value * list byte).

(** What the call [c.discover(ctx)] does to the world and returns; [None]
    when it panics. *)
Variable discoverFn :
  World -> option ((discoverResp.t + error) * World * list Exchange).

Definition pollIterationOver (c : httpClient) (current : state.t) (w : World)
  : option Iteration :=
  match discoverFn w with
  | None => None
  | Some (r, w', log) =>
      match afterDiscover Do now newRequestError jsonScan c r current w' with
      | None => None
      | Some (current', w'', out, log') => Some (current', w'', out, log ++ log')
      end
  end.

(** [n] iterations of the [for] loop of [Poll], each followed by its pause. *)
Fixpoint pollLoopOver (c : httpClient) (n : nat) (current : state.t) (w : World)
  : option state.t * World * list Snapshot * list Exchange :=
  match n with
  | O => (Some current, w, [], [])
  | S n' =>
      match pollIterationOver c current w with
      | None => (None, w, [], [])
      | Some (current', w', out, log) =>
          let '(st, w'', out', log') := pollLoopOver c n' current' (Sleep w') in
          (st, w'', out ++ out', log ++ log')
      end
  end.

End PollOver.

Arguments pollIterationOver {World}.
Arguments pollLoopOver {World}.

(** ** Vocabulary of the statements about a relay that serves *)
Section Serving.

Context {World : Type}.
Variable Do : World -> Request -> World * Response.
Variable now : World -> Z.
Variable jsonScan : list byte -> option (Json.value * list byte).
Variable c : httpClient.

(** The relay holds the parts [chunks] of session [cid]: whenever it is
    asked for part [k] of that session it answers 200 with that part. *)
Definition serves (cid : string) (chunks : list (list byte)) : Prop :=
  forall (w : World) (k : nat) (part : list byte),
    chunks !! k = Some part ->
    exists w' st,
      Do w (getRequest now c w (Some (cid, Z.of_nat k))) = (w', HTTP 200 st part).

(** What an iteration of [Poll] writes to [out] once it holds the complete
    body: the decoded snapshot, unless it is this client's own. *)
Definition delivered (body : list byte) : list Snapshot :=
  match jsonUnmarshal jsonScan body with
  | Some snap => if negb (String.eqb (Origin snap) (id c)) then [snap] else []
  | None => []
  end.

End Serving.

Arguments serves {World}.

(** A relay that holds [chunks] and serves part [k] to whoever asks for
    index [k]; a request without an index is answered with [discoverBody]. *)
Definition servingRelay (chunks : list (list byte)) (n : nat) (req : Request)
  : nat * Response :=
  (S n,
   match X_Chunk_Idx req with
   | None => HTTP 200 "200 OK" discoverBody
   | Some k =>
       match (if 0 <=? k then chunks !! Z.to_nat k else None) with
       | Some part => HTTP 200 "200 OK" part
       | None => HTTP 404 "404 Not Found" []
       end
   end).

(** A URL that [http.NewRequest] does not parse. *)
Definition urlRejected (_ : string) : option string :=
  Some "missing protocol scheme".

(** The session that holds [otherBody] as its only part. *)
Definition advertisedWhole : discoverResp.t := discoverResp.mk "abc" 1 [0].

(** A [discover] that decodes what the relay advertises. *)
Definition decodingDiscover (n : nat)
  : option ((discoverResp.t + error) * nat * list Exchange) :=
  Some (inl advertisedWhole, S n,
        [(getRequest clock me n None, HTTP 200 "200 OK" discoverBody)]).

(** ** [encoding/hex], [encoding/binary] and the key of client.go *)
Module Hex.

Inductive error : Type :=
| InvalidByteError (b : byte)
| ErrLength.

(** The table [reverseHexTable]: the value of a hexadecimal digit, of either
    case. *)
Definition fromHexChar (b : byte) : option Z :=
  let v := Sha256.byte_val b in
  if (48 <=? v) && (v <=? 57) then Some (v - 48)
  else if (97 <=? v) && (v <=? 102) then Some (v - 87)
  else if (65 <=? v) && (v <=? 70) then Some (v - 55)
  else None.

(** [hex.Decode]: two digits make a byte; the bytes decoded before the first
    bad digit are returned with the error.  A last digit without a partner
    is [ErrLength], unless it is no digit at all. *)
Fixpoint Decode (src : list byte) : list byte * option error :=
  match src with
  | [] => ([], None)
  | [p] =>
      match fromHexChar p with
      | None => ([], Some (InvalidByteError p))
      | Some _ => ([], Some ErrLength)
      end
  | p :: q :: rest =>
      match fromHexChar p, fromHexChar q with
      | None, _ => ([], Some (InvalidByteError p))
      | Some _, None => ([], Some (InvalidByteError q))
      | Some a, Some b =>
          let '(out, err) := Decode rest in
          (Sha256.byte_of_Z (Z.lor (Z.shiftl a 4) b) :: out, err)
      end
  end.

Definition DecodeString (s : string) : list byte * option error :=
  Decode (list_byte_of_string s).

End Hex.

(** [binary.BigEndian.Uint64(b)]; it reads [b[7]] first, which panics on a
    shorter slice: [None]. *)
Definition Uint64 (b : list byte) : option Z :=
  match b with
  | b0 :: b1 :: b2 :: b3 :: b4 :: b5 :: b6 :: b7 :: _ =>
      let u := Sha256.byte_val in
      Some (Z.lor (u b7) (Z.lor (Z.shiftl (u b6) 8) (Z.lor (Z.shiftl (u b5) 16)
             (Z.lor (Z.shiftl (u b4) 24) (Z.lor (Z.shiftl (u b3) 32)
               (Z.lor (Z.shiftl (u b2) 40) (Z.lor (Z.shiftl (u b1) 48)
                 (Z.shiftl (u b0) 56))))))))
  | _ => None
  end.

Module shared.
(** [type shared struct { id string; key64 uint64 }] *)
Record t : Type := mk { id : string; key64 : Z }.
End shared.

(** [newShared]: [None] would be the panic of [Uint64]. *)
Definition newShared (id keyHex : string) : option (shared.t + error) :=
  let '(k, err) := Hex.DecodeString keyHex in
  if (if err is Some _ then true else false) || negb (GoInt.len k =? 8) then
    Some (inr (errorsNew "key must be 16 hex chars (8 bytes)"))
  else
    match Uint64 k with
    | Some key64 => Some (inl (shared.mk id key64))
    | None => None
    end.

(** [NewHTTP]; the timeout goes into the [http.Client], which the model holds
    as the transition [Do]. *)
Definition NewHTTP (url id keyHex : string) (timeout : Z)
  : option (httpClient + error) :=
  match newShared id keyHex with
  | None => None
  | Some (inr err) => Some (inr err)
  | Some (inl sh) => Some (inl (mkClient url (shared.id sh) (shared.key64 sh)))
  end.

(** The number a byte sequence spells, most significant byte first. *)
Definition beValue (bs : list byte) : Z :=
  fold_left (fun acc b => acc * 256 + Sha256.byte_val b) bs 0.

(** A hexadecimal digit, as a character of a string. *)
Definition isHexDigit (a : ascii) : Prop :=
  is_Some (Hex.fromHexChar (byte_of_ascii a)).

(** ** Package [main]: the watcher and the poller of cmd/clipsync *)

(** One line of the log; its time stamp is left out. *)
Inductive logLine : Type :=
| LogLocal (fmt n : Z)            (* "local → %s (%d items)" *)
| LogRemote (fmt n : Z)           (* "remote ← %s (%d items)" *)
| LogClipboardWrite (err : error) (* "clipboard write: %v" *).

Module watch.
(** The variables [lastSeq] and [lastQuick] of [watcher]. *)
Record t : Type := mk { lastSeq : Z; lastQuick : string }.
End watch.

Section Main.

Context {World : Type}.

(** [clip.GetSeq()], the sequence number of the clipboard. *)
Variable GetSeq : World -> Z.

(** [askClipboard(cbCh)]: the request to the clipboard thread and its
    answer, the items read and an error. *)
Variable askClipboard : World -> World * (list Item * option error).

(** The write request of [poller] and the error of its answer. *)
Variable writeClipboard : World -> list Item -> World * option error.

(** [time.Now().Unix()] *)
Variable now : World -> Z.

(** The world when the ticker fires next. *)
Variable Tick : World -> World.

(** The body of [for range ticker.C] in [watcher]: the state it leaves, what
    it sent to [out] and what it logged.  [None] is the panic of
    [items[0]] on an empty slice. *)
Definition watcherTick (myID : string) (st : watch.t) (w : World)
  : option (watch.t * World * list Snapshot * list logLine) :=
  let seq := GetSeq w in
  if seq =? watch.lastSeq st then Some (st, w, [], [])
  else
    let st := watch.mk seq (watch.lastQuick st) in
    let '(w', (items, err)) := askClipboard w in
    if (if err is Some _ then true else false) || (GoInt.len items =? 0) then
      Some (st, w', [], [])
    else
      let qk := QuickKey items in
      if String.eqb qk (watch.lastQuick st) then Some (st, w', [], [])
      else
        let st := watch.mk seq qk in
        match items with
        | [] => None
        | first :: _ =>
            Some (st, w',
                  [mkSnapshot myID (now w') items ""],
                  [LogLocal (Fmt first) (GoInt.len items)])
        end.

(** [n] ticks. *)
Fixpoint watcherLoop (myID : string) (n : nat) (st : watch.t) (w : World)
  : option (watch.t * World * list Snapshot * list logLine) :=
  match n with
  | O => Some (st, w, [], [])
  | S n' =>
      match watcherTick myID st (Tick w) with
      | None => None
      | Some (st', w', out, log) =>
          match watcherLoop myID n' st' w' with
          | None => None
          | Some (st'', w'', out', log') => Some (st'', w'', out ++ out', log ++ log')
          end
      end
  end.

(** [watcher]: [lastSeq] starts as the sequence number at the start,
    [lastQuick] as the empty string. *)
Definition watcher (myID : string) (n : nat) (w : World)
  : option (watch.t * World * list Snapshot * list logLine) :=
  watcherLoop myID n (watch.mk (GetSeq w) "") w.

(** The body of [for snap := range in] in [poller], from the value of
    [lastRemoteQuick]: the new value, the item lists it asked the clipboard
    thread to write, and what it logged.  [None] is the panic of
    [snap.Items[0]] on an empty slice. *)
Definition pollerStep (lastRemoteQuick : string) (snap : Snapshot) (w : World)
  : option (string * World * list (list Item) * list logLine) :=
  let qk := QuickKey (Items snap) in
  if String.eqb qk lastRemoteQuick then Some (lastRemoteQuick, w, [], [])
  else
    let '(w', err) := writeClipboard w (Items snap) in
    match err with
    | Some e => Some (qk, w', [Items snap], [LogClipboardWrite e])
    | None =>
        match Items snap with
        | [] => None
        | first :: _ =>
            Some (qk, w', [Items snap],
                  [LogRemote (Fmt first) (GoInt.len (Items snap))])
        end
    end.

(** The loop over the snapshots that arrive on [in]. *)
Fixpoint pollerLoop (lastRemoteQuick : string) (incoming : list Snapshot)
    (w : World) : option (string * World * list (list Item) * list logLine) :=
  match incoming with
  | [] => Some (lastRemoteQuick, w, [], [])
  | snap :: rest =>
      match pollerStep lastRemoteQuick snap w with
      | None => None
      | Some (last', w', writes, log) =>
          match pollerLoop last' rest w' with
          | None => None
          | Some (last'', w'', writes', log') =>
              Some (last'', w'', writes ++ writes', log ++ log')
          end
      end
  end.

(** [poller] starts from [var lastRemoteQuick string]. *)
Definition poller (incoming : list Snapshot) (w : World)
  : option (string * World * list (list Item) * list logLine) :=
  pollerLoop "" incoming w.

End Main.

Arguments watcherTick {World}.
Arguments watcherLoop {World}.
Arguments watcher {World}.
Arguments pollerStep {World}.
Arguments pollerLoop {World}.
Arguments poller {World}.

(** No two neighbours of a list have the same quick key. *)
Definition keysAlternate {A} (key : A -> string) (l : list A) : Prop :=
  forall (i : nat) x y, l !! i = Some x -> l !! S i = Some y -> key x <> key y.

(** A clipboard whose content changes at every tick and always reads as the
    one item of [helloWhole]; writing to it always works. *)
Definition seqOfTick (n : nat) : Z := Z.of_nat n.
Definition readsHello (n : nat) : nat * (list Item * option error) :=
  (n, (helloWhole, None)).
Definition writeWorks (n : nat) (_ : list Item) : nat * option error :=
  (S n, None).

(** A clipboard that is busy whenever somebody wants to write. *)
Definition writeBusy (n : nat) (_ : list Item) : nat * option error :=
  (S n, Some (errorsNew "clipboard busy")).

(** ** [encoding/base64]: [StdEncoding.DecodeString] *)
Module Base64.

Inductive error : Type := CorruptInputError (pos : Z).

(** [enc.decodeMap]: the value of a character of the standard alphabet. *)
Definition decodeMap (c : byte) : option Z :=
  let v := Sha256.byte_val c in
  if (65 <=? v) && (v <=? 90) then Some (v - 65)
  else if (97 <=? v) && (v <=? 122) then Some (v - 71)
  else if (48 <=? v) && (v <=? 57) then Some (v + 4)
  else if v =? 43 then Some 62
  else if v =? 47 then Some 63
  else None.

Definition isNewline (c : byte) : bool :=
  match c with
  | x0a | x0d => true
  | _ => false
  end.

Definition isPad (c : byte) : bool :=
  match c with
  | x3d => true
  | _ => false
  end.

(** [for si < len(src) && (src[si] == '\n' || src[si] == '\r') { si++ }] *)
Fixpoint skipNewlines (src : list byte) (si : Z) : list byte * Z :=
  match src with
  | c :: rest => if isNewline c then skipNewlines rest (si + 1) else (src, si)
  | [] => ([], si)
  end.

(** "Convert 4x 6bit source bytes into 3 bytes", the first [dlen - 1] of
    which are the output. *)
Definition quantumBytes (dbuf : list Z) (dlen : nat) : list byte :=
  let d (k : nat) := nth k dbuf 0 in
  let val := Z.lor (Z.shiftl (d 0%nat) 18)
               (Z.lor (Z.shiftl (d 1%nat) 12) (Z.lor (Z.shiftl (d 2%nat) 6) (d 3%nat))) in
  take (dlen - 1)
    [Sha256.byte_of_Z (Z.shiftr val 16); Sha256.byte_of_Z (Z.shiftr val 8);
     Sha256.byte_of_Z val].

(** After the padding of a quantum: newlines may follow, anything else is
    trailing garbage, reported together with the bytes of the quantum. *)
Definition afterPadding (rest : list byte) (si : Z) (dbuf : list Z)
  : list byte * Z * list byte * option error :=
  let '(rest, si) := skipNewlines rest si in
  (rest, si, quantumBytes dbuf (length dbuf),
   match rest with
   | [] => None
   | _ => Some (CorruptInputError si)
   end).

(** [decodeQuantum]: [src] is the input from index [si] on, [total] its
    whole length, [dbuf] the digits of the quantum read so far.  The result
    is the input left, its index, the bytes decoded and the error. *)
Fixpoint decodeQuantum (src : list byte) (si total : Z) (dbuf : list Z)
  : list byte * Z * list byte * option error :=
  if (length dbuf =? 4)%nat then (src, si, quantumBytes dbuf 4, None)
  else
    match src with
    | [] =>
        match dbuf with
        | [] => ([], si, [], None)
        | _ => ([], si, [], Some (CorruptInputError (si - Z.of_nat (length dbuf))))
        end
    | c :: rest =>
        let si := si + 1 in
        match decodeMap c with
        | Some out => decodeQuantum rest si total (dbuf ++ [out])
        | None =>
            if isNewline c then decodeQuantum rest si total dbuf
            else if negb (isPad c) then
              (rest, si, [], Some (CorruptInputError (si - 1)))
            else
              match length dbuf with
              | 0%nat | 1%nat => (rest, si, [], Some (CorruptInputError (si - 1)))
              | 2%nat =>
                  let '(rest', si') := skipNewlines rest si in
                  match rest' with
                  | [] => ([], si', [], Some (CorruptInputError total))
                  | c2 :: rest2 =>
                      if negb (isPad c2) then
                        (rest', si', [], Some (CorruptInputError (si' - 1)))
                      else afterPadding rest2 (si' + 1) dbuf
                  end
              | _ => afterPadding rest si dbuf
              end
        end
    end.

(** The loop of [Decode]; a quantum takes at least one byte of input. *)
Fixpoint decodeLoop (fuel : nat) (src : list byte) (si total : Z)
  : list byte * option error :=
  match fuel with
  | O => ([], None)
  | S fuel' =>
      match src with
      | [] => ([], None)
      | _ =>
          let '(rest, si', out, err) := decodeQuantum src si total [] in
          match err with
          | Some e => (out, Some e)
          | None =>
              let '(more, e) := decodeLoop fuel' rest si' total in
              (out ++ more, e)
          end
      end
  end.

(** [DecodeString]: the bytes decoded before the error come with it. *)
Definition DecodeString (s : string) : list byte * option error :=
  let src := list_byte_of_string s in
  decodeLoop (length src) src 0 (GoInt.len src).

End Base64.

(** ** Package [clip], image.go: device-independent bitmaps *)

(** Go's [int] arithmetic beyond [GoInt.add]; [/] truncates towards zero. *)
Module GoArith.
Definition mul (a b : Z) : Z := GoInt.wrap (a * b).
Definition sub (a b : Z) : Z := GoInt.wrap (a - b).
Definition neg (a : Z) : Z := GoInt.wrap (- a).
Definition quot (a b : Z) : Z := GoInt.wrap (Z.quot a b).
(** [uint32(x)] and [uint16(x)] *)
Definition u32 (x : Z) : Z := x mod 2 ^ 32.
Definition u16 (x : Z) : Z := x mod 2 ^ 16.
End GoArith.

(** [binary.LittleEndian]: [PutUint32], [PutUint16] as the bytes they write,
    [Uint32], [Uint16] on a slice of that length. *)
Module LittleEndian.
Definition PutUint32 (v : Z) : list byte :=
  [ Sha256.byte_of_Z v; Sha256.byte_of_Z (Z.shiftr v 8);
    Sha256.byte_of_Z (Z.shiftr v 16); Sha256.byte_of_Z (Z.shiftr v 24) ].
Definition PutUint16 (v : Z) : list byte :=
  [ Sha256.byte_of_Z v; Sha256.byte_of_Z (Z.shiftr v 8) ].
Definition Uint32 (b : list byte) : option Z :=
  match b with
  | b0 :: b1 :: b2 :: b3 :: _ =>
      let u := Sha256.byte_val in
      Some (Z.lor (u b0) (Z.lor (Z.shiftl (u b1) 8)
              (Z.lor (Z.shiftl (u b2) 16) (Z.shiftl (u b3) 24))))
  | _ => None
  end.
Definition Uint16 (b : list byte) : option Z :=
  match b with
  | b0 :: b1 :: _ =>
      Some (Z.lor (Sha256.byte_val b0) (Z.shiftl (Sha256.byte_val b1) 8))
  | _ => None
  end.
End LittleEndian.

(** Slices with their run-time checks: [None] is the panic "index out of
    range" or "slice bounds out of range". *)
Module Slice.
Definition get (l : list byte) (i : Z) : option byte :=
  if (0 <=? i) && (i <? GoInt.len l) then l !! Z.to_nat i else None.
Definition set (l : list byte) (i : Z) (v : byte) : option (list byte) :=
  if (0 <=? i) && (i <? GoInt.len l) then Some (<[Z.to_nat i := v]> l) else None.
(** [l[i:j]] *)
Definition sub (l : list byte) (i j : Z) : option (list byte) :=
  if (0 <=? i) && (i <=? j) && (j <=? GoInt.len l) then Some (GoInt.slice l i j)
  else None.
(** What writing [row] through the slice [l[i:i+len(row)]] leaves in [l]. *)
Definition write (l : list byte) (i : Z) (row : list byte) : list byte :=
  take (Z.to_nat i) l ++ row ++ drop (Z.to_nat i + length row) l.
End Slice.

Module image.
(** An [*image.RGBA] whose rectangle has its corner at the origin: width,
    height, [Stride] and [Pix]. *)
Record RGBA : Type := mkRGBA { Dx : Z; Dy : Z; Stride : Z; Pix : list byte }.

(** [image.NewRGBA(image.Rect(0, 0, w, h))] for [w, h >= 0]; it panics when
    [4*w*h] does not fit an [int]. *)
Definition NewRGBA (w h : Z) : option RGBA :=
  if (w <? 0) || (h <? 0) || (4 * w * h >? GoInt.MaxInt) then None
  else Some (mkRGBA w h (4 * w) (replicate (Z.to_nat (4 * w * h)) x00)).
End image.

(** [stride := ((width*4 + 3) / 4) * 4] *)
Definition dibStride (width : Z) : Z :=
  GoArith.mul (GoArith.quot (GoInt.add (GoArith.mul width 4) 3) 4) 4.

(** The pixel loop of both conversions, [n] pixels from pixel [x] on:
    [dst[x*4+0] = src[x*4+2]], [dst[x*4+1] = src[x*4+1]],
    [dst[x*4+2] = src[x*4+0]], [dst[x*4+3] = src[x*4+3]]. *)
Fixpoint swapPixels (n : nat) (x : Z) (src dst : list byte)
  : option (list byte) :=
  match n with
  | O => Some dst
  | S n' =>
      let at_ (k : Z) := GoInt.add (GoArith.mul x 4) k in
      v ← Slice.get src (at_ 2); dst ← Slice.set dst (at_ 0) v;
      v ← Slice.get src (at_ 1); dst ← Slice.set dst (at_ 1) v;
      v ← Slice.get src (at_ 0); dst ← Slice.set dst (at_ 2) v;
      v ← Slice.get src (at_ 3); dst ← Slice.set dst (at_ 3) v;
      swapPixels n' (GoInt.add x 1) src dst
  end.

(** [for i := width * 4; i < stride; i++ { rowBuf[i] = 0 }], [n] bytes from
    [i] on. *)
Fixpoint padRow (n : nat) (i : Z) (rowBuf : list byte) : option (list byte) :=
  match n with
  | O => Some rowBuf
  | S n' => rowBuf ← Slice.set rowBuf i x00; padRow n' (GoInt.add i 1) rowBuf
  end.

(** The loop [for y := height - 1; y >= 0; y--] of [ImageToDIB] with [rows]
    rows to go: [rowBuf] is reused from row to row, [buf] is what has been
    written. *)
Fixpoint dibRows (rgba : image.RGBA) (width stride : Z) (rows : nat)
    (rowBuf buf : list byte) : option (list byte) :=
  match rows with
  | O => Some buf
  | S rows' =>
      let y := Z.of_nat rows' in
      rowPtr ← Slice.sub (image.Pix rgba) (GoArith.mul y (image.Stride rgba))
                 (GoArith.mul (GoInt.add y 1) (image.Stride rgba));
      rowBuf ← swapPixels (Z.to_nat width) 0 rowPtr rowBuf;
      rowBuf ← padRow (Z.to_nat (GoArith.sub stride (GoArith.mul width 4)))
                 (GoArith.mul width 4) rowBuf;
      dibRows rgba width stride rows' rowBuf (buf ++ rowBuf)
  end.

(** [ImageToDIB], from the RGBA copy [rgba] that [draw.Draw] made of the
    image on.  The 40 bytes of the header are zero but for the fields set. *)
Definition ImageToDIB (rgba : image.RGBA) : option (list byte) :=
  let width := image.Dx rgba in
  let height := image.Dy rgba in
  let stride := dibStride width in
  let hdr :=
    LittleEndian.PutUint32 40
    ++ LittleEndian.PutUint32 (GoArith.u32 width)
    ++ LittleEndian.PutUint32 (GoArith.u32 height)
    ++ LittleEndian.PutUint16 1
    ++ LittleEndian.PutUint16 32
    ++ LittleEndian.PutUint32 0
    ++ LittleEndian.PutUint32 (GoArith.u32 (GoArith.mul stride height))
    ++ replicate 16 x00 in
  if stride <? 0 then None
  else
    dibRows rgba width stride (Z.to_nat height)
      (replicate (Z.to_nat stride) x00) hdr.

(** The loop [for y := 0; y < height; y++] of [DIBToPNG], [rows] rows from
    row [y] on, over the pixels [pix] of the new image. *)
Fixpoint pngRows (dib : list byte) (bottomUp : bool)
    (width height stride pixelOffset rgbaStride : Z) (rows : nat) (y : Z)
    (pix : list byte) : option (list byte) :=
  match rows with
  | O => Some pix
  | S rows' =>
      let srcY := if bottomUp then GoArith.sub (GoArith.sub height 1) y else y in
      let srcStart := GoInt.add pixelOffset (GoArith.mul srcY stride) in
      let srcEnd := GoInt.add srcStart (GoArith.mul width 4) in
      if srcEnd >? GoInt.len dib then Some pix
      else
        let lo := GoArith.mul y rgbaStride in
        dstRow ← Slice.sub pix lo (GoArith.mul (GoInt.add y 1) rgbaStride);
        srcRow ← Slice.sub dib srcStart srcEnd;
        dstRow ← swapPixels (Z.to_nat width) 0 srcRow dstRow;
        pngRows dib bottomUp width height stride pixelOffset rgbaStride rows'
          (GoInt.add y 1) (Slice.write pix lo dstRow)
  end.

Section Image.

(** [png.Encode] into a buffer: the bytes, or [None] for its error. *)
Variable pngEncode : image.RGBA -> option (list byte).

(** [DIBToPNG]: the outer [None] is a panic, the inner one the nil slice. *)
Definition DIBToPNG (dib : list byte) : option (option (list byte)) :=
  if GoInt.len dib <? 40 then Some None
  else
    biSize ← LittleEndian.Uint32 (GoInt.slice dib 0 4);
    if biSize <? 40 then Some None
    else
      width ← LittleEndian.Uint32 (GoInt.slice dib 4 8);
      height ← LittleEndian.Uint32 (GoInt.slice dib 8 12);
      bitCount ← LittleEndian.Uint16 (GoInt.slice dib 14 16);
      if negb (bitCount =? 32) then Some None
      else
        let bottomUp := height >? 0 in
        let height := if height <? 0 then GoArith.neg height else height in
        let pixelOffset := biSize in
        if GoInt.len dib <? pixelOffset then Some None
        else
          let stride := dibStride width in
          rgba ← image.NewRGBA width height;
          pix ← pngRows dib bottomUp width height stride pixelOffset
                 (image.Stride rgba) (Z.to_nat height) 0 (image.Pix rgba);
          Some (pngEncode (image.mkRGBA width height (image.Stride rgba) pix)).

End Image.

(** What [image.NewRGBA] and [draw.Draw] leave: a stride of four bytes per
    pixel and as many bytes of [Pix] as the rectangle needs. *)
Definition wellFormed (rgba : image.RGBA) : Prop :=
  0 <= image.Dx rgba /\ 0 <= image.Dy rgba
  /\ image.Stride rgba = 4 * image.Dx rgba
  /\ GoInt.len (image.Pix rgba) = 4 * image.Dx rgba * image.Dy rgba
  /\ 4 * image.Dx rgba * image.Dy rgba <= GoInt.MaxInt.

(** A checkerboard of two by two pixels, red and blue, opaque. *)
Definition checker : image.RGBA :=
  image.mkRGBA 2 2 8
    [ xff; x00; x00; xff;  x00; x00; xff; xff;
      x00; x00; xff; xff;  xff; x00; x00; xff ].

(** The bytes of a row with red and blue exchanged in every pixel. *)
Fixpoint swizzle (row : list byte) : list byte :=
  match row with
  | r :: g :: b :: a :: rest => b :: g :: r :: a :: swizzle rest
  | _ => []
  end.

(** The first [h] rows of [n] bytes each of a pixel buffer. *)
Fixpoint rowsOf (n h : nat) (pix : list byte) : list (list byte) :=
  match h with
  | O => []
  | S h' => take n pix :: rowsOf n h' (drop n pix)
  end.

(** The header [ImageToDIB] writes for a bitmap of the given width, height
    and row length (BITMAPINFOHEADER, 32 bits per pixel, BI_RGB). *)
Definition dibHeader (width height stride : Z) : list byte :=
  LittleEndian.PutUint32 40
  ++ LittleEndian.PutUint32 (GoArith.u32 width)
  ++ LittleEndian.PutUint32 (GoArith.u32 height)
  ++ LittleEndian.PutUint16 1
  ++ LittleEndian.PutUint16 32
  ++ LittleEndian.PutUint32 0
  ++ LittleEndian.PutUint32 (GoArith.u32 (GoArith.mul stride height))
  ++ replicate 16 x00.

(** The image without a picture: every byte of [Pix] zero. *)
Definition blank (w h : Z) : image.RGBA :=
  image.mkRGBA w h (4 * w) (replicate (Z.to_nat (4 * w * h)) x00).

(** Instances for the examples: an encoder that keeps the pixels as they
    are, the bitmap of [checker] short of its last byte, and the bitmap of
    [checker] written top-down, with the height -2. *)
Definition rawEncode (rgba : image.RGBA) : option (list byte) :=
  Some (image.Pix rgba).

Definition checkerHeader (height : list byte) : list byte :=
  [ x28; x00; x00; x00;  x02; x00; x00; x00 ] ++ height
  ++ [ x01; x00;  x20; x00;  x00; x00; x00; x00;  x10; x00; x00; x00 ]
  ++ replicate 16 x00.

Definition truncatedChecker : list byte :=
  checkerHeader [ x02; x00; x00; x00 ]
  ++ [ xff; x00; x00; xff;  x00; x00; xff; xff;
       x00; x00; xff; xff;  xff; x00; x00 ].

Definition topDownChecker : list byte :=
  checkerHeader [ xfe; xff; xff; xff ]
  ++ [ x00; x00; xff; xff;  xff; x00; x00; xff;
       xff; x00; x00; xff;  x00; x00; xff; xff ].

(** ** Package [clip], clip.go: the thread that owns the clipboard *)

Definition CF_UNICODETEXT : Z := 13.
Definition CF_DIB : Z := 8.

Definition ErrClipboardBusy : error := errorsNew "clipboard busy".
Definition ErrUnsupportedFormat : error :=
  errorsNew "unsupported clipboard format".

(** One call of [SetClipboardData]: the format and the bytes of the block
    whose handle is passed. *)
Definition Put : Type := (Z * list byte)%type.

(** The loop of [readText] over the locked block: the 16-bit units up to the
    first zero.  [None]: the block ends before a zero, the loop reads past
    the block. *)
Fixpoint readChars (mem : list byte) : option (list Z) :=
  match mem with
  | b0 :: b1 :: rest =>
      let c := Z.lor (Sha256.byte_val b0) (Z.shiftl (Sha256.byte_val b1) 8) in
      if c =? 0 then Some []
      else chars ← readChars rest; Some (c :: chars)
  | _ => None
  end.

(** The block [putText] fills by [copy]: the units of [utf16], two bytes
    each, the low one first. *)
Definition utf16Block (utf16 : list Z) : list byte :=
  concat (LittleEndian.PutUint16 <$> utf16).

Section Clipboard.

Context {World : Type}.

(** The calls into user32.dll, with their return values.  A block of
    global memory is the bytes it holds: [GetClipboardData] gives the
    [GlobalSize] bytes of the block behind the handle, [None] for the handle
    0; allocating and locking a block is taken to work. *)
Variable OpenClipboard : World -> World * Z.
Variable CloseClipboard : World -> World.
Variable EmptyClipboard : World -> World.
Variable SetClipboardData : World -> Z -> list byte -> World * Z.
Variable IsClipboardFormatAvailable : World -> Z -> Z.
Variable GetClipboardData : World -> Z -> option (list byte).

(** [windows.GetLastError()] *)
Variable GetLastError : World -> error.

(** The monotonic clock of [time.Now] and [time.Since], in nanoseconds, and
    [time.Sleep]. *)
Variable clock : World -> Z.
Variable SleepFor : Z -> World -> World.

(** [fmtIDPng] and [fmtIDImagePng], as [init] registered them. *)
Variable fmtIDPng fmtIDImagePng : Z.

(** [png.Decode], followed by the RGBA copy [ImageToDIB] draws; and
    [png.Encode]. *)
Variable pngDecode : list byte -> image.RGBA + error.
Variable pngEncode : image.RGBA -> option (list byte).

(** [windows.UTF16FromString] with its error dropped, and
    [windows.UTF16ToString]. *)
Variable UTF16FromString : string -> list Z.
Variable UTF16ToString : list Z -> string.

(** The loop of [openCB] from the time [start], at most [fuel] calls of
    [OpenClipboard]. *)
Fixpoint openLoop (fuel : nat) (start : Z) (w : World)
  : option (World * option error) :=
  match fuel with
  | O => None
  | S fuel' =>
      let '(w, ret) := OpenClipboard w in
      if negb (ret =? 0) then Some (w, None)
      else if clock w - start >? 500 * 1000000 then
        Some (w, Some ErrClipboardBusy)
      else openLoop fuel' start (SleepFor (10 * 1000000) w)
  end.

Definition openCB (fuel : nat) (w : World) : option (World * option error) :=
  openLoop fuel (clock w) w.

Definition isAvail (w : World) (fmt : Z) : bool :=
  negb (IsClipboardFormatAvailable w fmt =? 0).

(** [putText]: what it returns and the call it made. *)
Definition putText (s : string) (w : World) : World * option error * list Put :=
  let h := utf16Block (UTF16FromString s) in
  let '(w, ret) := SetClipboardData w CF_UNICODETEXT h in
  (w, if ret =? 0 then Some (GetLastError w) else None, [(CF_UNICODETEXT, h)]).

(** [putPNG]; [None] is a panic of [ImageToDIB]. *)
Definition putPNG (data : list byte) (w : World)
  : option (World * option error * list Put) :=
  match pngDecode data with
  | inr err => Some (w, Some err, [])
  | inl img =>
      dib ← ImageToDIB img;
      let '(w, ret) := SetClipboardData w CF_DIB dib in
      if ret =? 0 then Some (w, Some (GetLastError w), [(CF_DIB, dib)])
      else
        let '(w, puts1) :=
          if negb (fmtIDPng =? 0) then
            (fst (SetClipboardData w fmtIDPng data), [(fmtIDPng, data)])
          else (w, []) in
        let '(w, puts2) :=
          if negb (fmtIDImagePng =? 0) then
            (fst (SetClipboardData w fmtIDImagePng data),
             [(fmtIDImagePng, data)])
          else (w, []) in
        Some (w, None, (CF_DIB, dib) :: puts1 ++ puts2)
  end.

(** The loop of [writeSnapshot] over the items. *)
Fixpoint writeItems (items : list Item) (w : World)
  : option (World * option error * list Put) :=
  match items with
  | [] => Some (w, None, [])
  | it :: rest =>
      if String.eqb (Payload it) "" then writeItems rest w
      else
        let payload := fst (Base64.DecodeString (Payload it)) in
        '(w, err, puts) ←
          (if Fmt it =? CF_UNICODETEXT then
             Some (putText (string_of_list_byte payload) w)
           else if (Fmt it =? fmtIDPng) || (Fmt it =? fmtIDImagePng) then
             putPNG payload w
           else Some (w, None, []));
        match err with
        | Some e => Some (w, Some e, puts)
        | None =>
            '(w, err, puts') ← writeItems rest w;
            Some (w, err, puts ++ puts')
        end
  end.

(** [writeSnapshot]: the error it returns and the calls of
    [SetClipboardData] it made.  [None]: it does not return. *)
Definition writeSnapshot (fuel : nat) (items : list Item) (w : World)
  : option (World * option error * list Put) :=
  '(w, err) ← openCB fuel w;
  match err with
  | Some e => Some (w, Some e, [])
  | None =>
      '(w, err, puts) ← writeItems items (EmptyClipboard w);
      Some (CloseClipboard w, err, puts)
  end.

(** [tryFormat]; [None] is the nil pointer. *)
Definition tryFormat (fmt : Z) (fmtName mimeType : string) (w : World)
  : option Item :=
  if (fmt =? 0) || negb (isAvail w fmt) then None
  else
    match GetClipboardData w fmt with
    | None => None
    | Some data =>
        Some (mkItem fmt (base64 data) (GoInt.len data) fmtName mimeType)
    end.

(** [readDIBAsPNG]: the outer [None] is a panic of [DIBToPNG], the inner one
    the nil pointer. *)
Definition readDIBAsPNG (w : World) : option (option Item) :=
  match GetClipboardData w CF_DIB with
  | None => Some None
  | Some dib =>
      png ← DIBToPNG pngEncode dib;
      match png with
      | None => Some None
      | Some png =>
          Some (Some (mkItem CF_DIB (base64 png) (GoInt.len png)
                        "PNG" "image/png"))
      end
  end.

(** [readText]: the outer [None] is the loop leaving the block. *)
Definition readText (w : World) : option (option Item) :=
  match GetClipboardData w CF_UNICODETEXT with
  | None => Some None
  | Some mem =>
      chars ← readChars mem;
      let s := UTF16ToString chars in
      Some (Some (mkItem CF_UNICODETEXT (base64 (list_byte_of_string s))
                    (Z.of_nat (String.length s)) "CF_UNICODETEXT"
                    "text/plain"))
  end.

(** [append(items, *it)] when [it] is not nil. *)
Definition appendItem (items : list Item) (it : option Item) : list Item :=
  match it with Some it => items ++ [it] | None => items end.

(** [readSnapshot]: the items or the error.  [None]: it does not return. *)
Definition readSnapshot (fuel : nat) (w : World)
  : option (World * (list Item + error)) :=
  '(w, err) ← openCB fuel w;
  match err with
  | Some e => Some (w, inr e)
  | None =>
      items ←
        match tryFormat fmtIDPng "PNG" "image/png" w with
        | Some it => Some [it]
        | None =>
            match tryFormat fmtIDImagePng "image/png" "image/png" w with
            | Some it => Some [it]
            | None =>
                if isAvail w CF_DIB then
                  it ← readDIBAsPNG w; Some (appendItem [] it)
                else Some []
            end
        end;
      items ←
        (if isAvail w CF_UNICODETEXT then
           it ← readText w; Some (appendItem items it)
         else Some items);
      Some (CloseClipboard w,
            if GoInt.len items =? 0 then inr ErrUnsupportedFormat
            else inl items)
  end.

End Clipboard.

(** An item [writeSnapshot] has no case for: its payload is empty, or its
    format is neither the text format nor one of the two registered here. *)
Definition passedOver (fmtIDPng fmtIDImagePng : Z) (it : Item) : Prop :=
  Payload it = ""
  \/ (Fmt it <> CF_UNICODETEXT /\ Fmt it <> fmtIDPng
      /\ Fmt it <> fmtIDImagePng).

(** A clipboard for the examples: the blocks it holds with their formats,
    the newest first, and the clock.  It opens at once, or never. *)
Record Board : Type := mkBoard { held : list Put; ticks : Z }.

Definition boardOpen (b : Board) : Board * Z := (b, 1).
Definition boardBusy (b : Board) : Board * Z := (b, 0).
Definition boardClose (b : Board) : Board := b.
Definition boardEmpty (b : Board) : Board := mkBoard [] (ticks b).
Definition boardSet (b : Board) (fmt : Z) (data : list byte) : Board * Z :=
  (mkBoard ((fmt, data) :: held b) (ticks b), 1).
Definition boardGet (b : Board) (fmt : Z) : option (list byte) :=
  snd <$> List.find (fun p : Put => fst p =? fmt) (held b).
Definition boardAvail (b : Board) (fmt : Z) : Z :=
  if boardGet b fmt is Some _ then 1 else 0.
Definition boardLastError (_ : Board) : error := errLib "access denied".
Definition boardSleep (d : Z) (b : Board) : Board :=
  mkBoard (held b) (ticks b + d).

(** Strings of ASCII as UTF-16, with the zero at the end, and back. *)
Definition asciiFromString (s : string) : list Z :=
  (Sha256.byte_val <$> list_byte_of_string s) ++ [0].
Definition asciiToString (chars : list Z) : string :=
  string_of_list_byte (Sha256.byte_of_Z <$> chars).

(** A decoder that sees the picture [checker] in every PNG. *)
Definition decodeChecker (_ : list byte) : image.RGBA + error := inl checker.

(** The ids of the formats PNG and image/png in the examples. *)
Definition idPng : Z := 49285.
Definition idImagePng : Z := 49286.

(** Clipboards that hold the bitmap of [checker], the text hi, and a block
    of the format PNG. *)
Definition checkerDIB : list byte := truncatedChecker ++ [ xff ].
Definition bitmapBoard : Board := mkBoard [(CF_DIB, checkerDIB)] 0.
Definition textBoard : Board :=
  mkBoard [(CF_UNICODETEXT, utf16Block (asciiFromString "hi"))] 0.
Definition pngBoard : Board :=
  mkBoard [(idPng, [ x89; x50; x4e; x47 ])] 0.

(** ** The token of [buildAuthHeader], read back *)
Module token.
(** [type token struct], of [buildAuthHeader] and of its test. *)
Record t : Type := mk { TS : Z; TSEnc : Z }.
Definition zero : t := mk 0 0.
Definition fields : list (Json.field t) :=
  [ Json.Field "TS" "ts" (fun v x =>
      z ← Json.as_int GoInt.MinInt GoInt.MaxInt v (TS x);
      Some (mk z (TSEnc x)));
    Json.Field "TSEnc" "ts_enc" (fun v x =>
      z ← Json.as_int GoInt.MinInt GoInt.MaxInt v (TSEnc x);
      Some (mk (TS x) z)) ].
End token.

(** What [TestBuildAuthHeader] does with the header, and any receiver has to:
    [base64.StdEncoding.DecodeString], then [json.Unmarshal] into a
    token. *)
Definition readToken (hdr : string) : option token.t :=
  let '(raw, err) := Base64.DecodeString hdr in
  match err with
  | Some _ => None
  | None =>
      match Json.scan raw with
      | Some (v, rest) =>
          if Json.all_ws rest then Json.decode_struct token.fields token.zero v
          else None
      | None => None
      end
  end.

(** The digits of a JSON integer: digits only, and no zero in front but for
    the number zero. *)
Definition isDecimal (ds : list byte) : Prop :=
  Forall (fun b => Json.is_digit b = true) ds
  /\ exists d more, ds = d :: more /\ (d = x30 -> more = []).

(** ** Properties *)

Section GoIntFacts.

Lemma wrap_id z : GoInt.MinInt <= z <= GoInt.MaxInt -> GoInt.wrap z = z.
Proof.
  unfold GoInt.MinInt, GoInt.MaxInt, GoInt.wrap. intros H.
  rewrite Z.mod_small; lia.
Qed.

Lemma add_id a b :
  GoInt.MinInt <= a + b <= GoInt.MaxInt -> GoInt.add a b = a + b.
Proof. apply wrap_id. Qed.

Lemma chunkSize_pos : 0 < chunkSize.
Proof. reflexivity. Qed.

Lemma MaxInt_pos : 0 < GoInt.MaxInt.
Proof. reflexivity. Qed.

Lemma MaxInt_val : GoInt.MaxInt = 9223372036854775807.
Proof. reflexivity. Qed.

Lemma chunkSize_val : chunkSize = 307200.
Proof. reflexivity. Qed.

Lemma bodyCap_val : bodyCap = 33554432.
Proof. reflexivity. Qed.

Lemma bodyCap_fits : bodyCap + chunkSize <= GoInt.MaxInt.
Proof. vm_compute. discriminate. Qed.

End GoIntFacts.

#[local] Opaque chunkSize bodyCap GoInt.MaxInt GoInt.MinInt.

Section Chunking.

Implicit Types body : list byte.

(** One turn of the loop, away from the 64-bit boundary. *)
Lemma chunkLoop_step fuel body i chunks :
  0 <= i < GoInt.len body ->
  GoInt.len body + chunkSize <= GoInt.MaxInt ->
  chunkLoop (S fuel) body i chunks
  = chunkLoop fuel body (i + chunkSize)
      (chunks ++ [GoInt.slice body i (Z.min (i + chunkSize) (GoInt.len body))]).
Proof.
  intros Hi Hmax. pose proof chunkSize_pos. cbn [chunkLoop].
  assert (GoInt.MinInt < 0) by reflexivity.
  rewrite add_id by lia.
  destruct (Z.ltb_spec i (GoInt.len body)); [|lia].
  f_equal. f_equal. f_equal. f_equal.
  destruct (Z.gtb_spec (i + chunkSize) (GoInt.len body)); lia.
Qed.

Lemma chunkLoop_done fuel body i chunks :
  GoInt.len body <= i -> chunkLoop fuel body i chunks = chunks.
Proof.
  intros Hi. destruct fuel; [done|]. cbn [chunkLoop].
  destruct (Z.ltb_spec i (GoInt.len body)); [lia|done].
Qed.

(** The accumulator only ever grows at its end. *)
Lemma chunkLoop_acc fuel body : forall i chunks,
  0 <= i ->
  GoInt.len body + chunkSize <= GoInt.MaxInt ->
  chunkLoop fuel body i chunks = chunks ++ chunkLoop fuel body i [].
Proof.
  induction fuel as [|fuel IH]; intros i chunks Hi Hmax.
  - cbn. by rewrite app_nil_r.
  - destruct (Z.lt_ge_cases i (GoInt.len body)) as [Hlt|Hge].
    + pose proof chunkSize_pos.
      rewrite !chunkLoop_step by lia.
      rewrite (IH _ (chunks ++ _)) by lia.
      rewrite (IH _ ([] ++ _)) by lia.
      by rewrite <- app_assoc.
    + rewrite !chunkLoop_done by lia. by rewrite app_nil_r.
Qed.

(** With fuel for the bytes still to slice, the parts are the rest of the
    payload. *)
Lemma chunkLoop_concat fuel body : forall i,
  0 <= i ->
  GoInt.len body + chunkSize <= GoInt.MaxInt ->
  GoInt.len body - i <= Z.of_nat fuel ->
  concat (chunkLoop fuel body i []) = drop (Z.to_nat i) body.
Proof.
  induction fuel as [|fuel IH]; intros i Hi Hmax Hfuel.
  - cbn. rewrite drop_ge; [done|]. unfold GoInt.len in *. lia.
  - destruct (Z.lt_ge_cases i (GoInt.len body)) as [Hlt|Hge].
    + pose proof chunkSize_pos.
      rewrite chunkLoop_step by lia.
      rewrite chunkLoop_acc by lia.
      rewrite concat_app, IH by lia. cbn [app concat]. rewrite app_nil_r.
      unfold GoInt.slice.
      destruct (Z.le_gt_cases (i + chunkSize) (GoInt.len body)) as [Hin|Hout].
      * rewrite Z.min_l by lia.
        replace (Z.to_nat (i + chunkSize))
          with (Z.to_nat i + Z.to_nat (i + chunkSize - i))%nat by lia.
        rewrite <- drop_drop. apply take_drop.
      * rewrite Z.min_r by lia.
        rewrite (drop_ge body (Z.to_nat (i + chunkSize)))
          by (unfold GoInt.len in *; lia).
        rewrite app_nil_r. apply take_ge.
        rewrite length_drop. unfold GoInt.len in *. lia.
    + rewrite chunkLoop_done by lia. cbn.
      rewrite drop_ge; [done|]. unfold GoInt.len in *. lia.
Qed.

Lemma sliceChunks_concat body :
  GoInt.len body + chunkSize <= GoInt.MaxInt ->
  concat (sliceChunks body) = body.
Proof.
  intros Hmax. unfold sliceChunks.
  rewrite chunkLoop_concat; [done|lia|done|unfold GoInt.len; lia].
Qed.

Lemma sliceChunks_nonempty body :
  GoInt.len body + chunkSize <= GoInt.MaxInt ->
  body <> [] -> sliceChunks body <> [].
Proof.
  intros Hmax Hne Hnil. apply Hne.
  rewrite <- (sliceChunks_concat body Hmax), Hnil. done.
Qed.

Lemma slice_length body i j :
  0 <= i <= j -> j <= GoInt.len body ->
  GoInt.len (GoInt.slice body i j) = j - i.
Proof.
  intros Hij Hj. unfold GoInt.slice, GoInt.len in *.
  rewrite length_take, length_drop. lia.
Qed.

(** Every part is non-empty and at most [chunkSize] long. *)
Lemma chunkLoop_bounds fuel body : forall i chunks,
  0 <= i ->
  GoInt.len body + chunkSize <= GoInt.MaxInt ->
  Forall (fun part => 0 < GoInt.len part <= chunkSize) chunks ->
  Forall (fun part => 0 < GoInt.len part <= chunkSize)
    (chunkLoop fuel body i chunks).
Proof.
  induction fuel as [|fuel IH]; intros i chunks Hi Hmax Hall; [done|].
  destruct (Z.lt_ge_cases i (GoInt.len body)) as [Hlt|Hge].
  - pose proof chunkSize_pos.
    rewrite chunkLoop_step by lia. apply IH; [lia|done|].
    apply Forall_app. split; [done|]. constructor; [|constructor].
    rewrite slice_length by lia. lia.
  - by rewrite chunkLoop_done by lia.
Qed.

Lemma sliceChunks_bounds body :
  GoInt.len body + chunkSize <= GoInt.MaxInt ->
  Forall (fun part => 0 < GoInt.len part <= chunkSize) (sliceChunks body).
Proof. intros Hmax. apply chunkLoop_bounds; [lia|done|constructor]. Qed.

(** The number of parts is the length divided by [chunkSize], rounded up. *)
Lemma chunkLoop_count fuel body : forall i,
  0 <= i < GoInt.len body + chunkSize ->
  GoInt.len body + chunkSize <= GoInt.MaxInt ->
  GoInt.len body - i <= Z.of_nat fuel ->
  GoInt.len (chunkLoop fuel body i [])
  = (GoInt.len body - i + chunkSize - 1) / chunkSize.
Proof.
  pose proof chunkSize_pos as Hcs.
  induction fuel as [|fuel IH]; intros i Hi Hmax Hfuel.
  - cbn. symmetry. apply Z.div_small. lia.
  - destruct (Z.lt_ge_cases i (GoInt.len body)) as [Hlt|Hge].
    + rewrite chunkLoop_step, chunkLoop_acc by lia.
      unfold GoInt.len at 1. rewrite length_app, Nat2Z.inj_add. cbn [length].
      change (Z.of_nat (length (chunkLoop fuel body (i + chunkSize) [])))
        with (GoInt.len (chunkLoop fuel body (i + chunkSize) [])).
      rewrite IH by lia.
      replace (GoInt.len body - i + chunkSize - 1)
        with (GoInt.len body - (i + chunkSize) + chunkSize - 1 + 1 * chunkSize)
        by lia.
      rewrite Z.div_add by lia. cbn [app length]. lia.
    + rewrite chunkLoop_done by lia. cbn. symmetry. apply Z.div_small. lia.
Qed.

Lemma sliceChunks_count body :
  GoInt.len body + chunkSize <= GoInt.MaxInt ->
  GoInt.len (sliceChunks body) = (GoInt.len body + chunkSize - 1) / chunkSize.
Proof.
  intros Hmax. pose proof chunkSize_pos. unfold sliceChunks.
  rewrite chunkLoop_count; [f_equal; lia| |done|].
  - unfold GoInt.len. lia.
  - unfold GoInt.len. lia.
Qed.

(** [TestChunking]: a body of more than one part and at most two makes two
    POSTs' worth of chunks. *)
Lemma sliceChunks_two body :
  chunkSize < GoInt.len body <= 2 * chunkSize ->
  GoInt.len (sliceChunks body) = 2.
Proof.
  intros Hlen. pose proof chunkSize_val as Hcs. pose proof MaxInt_val.
  rewrite sliceChunks_count by lia.
  symmetry.
  apply Z.div_unique with (GoInt.len body + chunkSize - 1 - 2 * chunkSize); lia.
Qed.

(** A payload of 700 KiB is cut into parts of 300, 300 and 100 KiB. *)
Lemma sliceChunks_700KiB body :
  GoInt.len body = 700 * 1024 ->
  GoInt.len <$> sliceChunks body = [300 * 1024; 300 * 1024; 100 * 1024].
Proof.
  intros Hlen. pose proof chunkSize_val as Hcs.
  assert (GoInt.len body + chunkSize <= GoInt.MaxInt) as Hmax.
  { pose proof bodyCap_fits. pose proof bodyCap_val. lia. }
  unfold sliceChunks.
  assert (exists f, length body = S (S (S (S f)))) as [f ->].
  { unfold GoInt.len in Hlen.
    destruct (length body) as [|[|[|[|f]]]]; try lia. by exists f. }
  rewrite !chunkLoop_step by lia.
  rewrite chunkLoop_done by lia.
  cbn [app fmap list_fmap]. rewrite !slice_length by lia. repeat f_equal; lia.
Qed.

End Chunking.

Section Assembling.

Lemma size_map_seqZ (xs : list (list byte)) : forall start,
  size (map_seqZ (M := gmap Z (list byte)) start xs) = length xs.
Proof.
  induction xs as [|x xs IH]; intros start; [done|].
  rewrite map_seqZ_cons, map_size_insert_None by apply map_seqZ_cons_disjoint.
  cbn. by rewrite IH.
Qed.

Lemma partsOfChunks_lookup chunks (i : nat) :
  partsOfChunks chunks !! Z.of_nat i = chunks !! i.
Proof.
  unfold partsOfChunks. rewrite lookup_map_seqZ_0 by lia. by rewrite Nat2Z.id.
Qed.

(** Over a complete chunk set the loop of [assemble] appends the parts in
    the order of their indices. *)
Lemma appendParts_chunks chunks : forall n (i : nat) full,
  appendParts (partsOfChunks chunks) n (Z.of_nat i) full
  = full ++ concat (take n (drop i chunks)).
Proof.
  induction n as [|n IH]; intros i full.
  - cbn. by rewrite app_nil_r.
  - cbn [appendParts]. rewrite partsOfChunks_lookup.
    replace (Z.of_nat i + 1) with (Z.of_nat (S i)) by lia. rewrite IH.
    destruct (chunks !! i) as [part|] eqn:Hi.
    + rewrite (drop_S _ _ _ Hi). cbn. by rewrite <- app_assoc.
    + apply lookup_ge_None in Hi.
      rewrite !drop_ge by lia. cbn. by rewrite take_nil, !app_nil_r.
Qed.

Lemma concatParts_chunks cid chunks :
  concatParts (state.mk cid (GoInt.len chunks) (partsOfChunks chunks))
  = concat chunks.
Proof.
  unfold concatParts, GoInt.len. cbn [state.parts state.total].
  rewrite Nat2Z.id. change 0 with (Z.of_nat 0).
  rewrite appendParts_chunks. cbn. by rewrite take_ge.
Qed.

End Assembling.

(** C1.  Round trip of the chunk codec: for every payload [P] (of a length
    Go can slice: [len P + chunkSize] fits an [int]), when the receiver
    holds every part the loop of [Send] cut at 300 KiB, the index-order
    concatenation of [state.assemble] gives back [P] byte for byte, and for
    a non-empty [P] [assemble] decodes exactly [P]. *)
Theorem send_chunks_reassemble
    (jsonScan : list byte -> option (Json.value * list byte))
    (P : list byte) (cid : string) :
  GoInt.len P + chunkSize <= GoInt.MaxInt ->
  let chunks := sliceChunks P in
  let s := state.mk cid (GoInt.len chunks) (partsOfChunks chunks) in
  concatParts s = P
  /\ (P <> [] -> assemble jsonScan s = jsonUnmarshal jsonScan P).
Proof.
  intros Hmax chunks s.
  assert (concatParts s = P) as Hcat.
  { unfold s. rewrite concatParts_chunks. by apply sliceChunks_concat. }
  split; [exact Hcat|]. intros Hne.
  unfold assemble. rewrite Hcat.
  unfold lenParts, s, partsOfChunks, GoInt.len. cbn [state.parts state.total].
  rewrite size_map_seqZ, Z.eqb_refl. cbn [negb orb].
  pose proof (sliceChunks_nonempty P Hmax Hne) as Hch. fold chunks in Hch |- *.
  destruct chunks; [done|]. cbn [length].
  destruct (Z.eqb_spec (Z.of_nat (S (length chunks))) 0); [lia|done].
Qed.

Section Sending.

Context {World : Type}.
Variable Do : World -> Request -> World * Response.
Variable Sleep : World -> World.
Variable now : World -> Z.
Variable newRequestError : string -> option string.
Variable jsonMarshal : Snapshot -> list byte.
Variable c : httpClient.

Local Abbreviation retryLoop_ := (retryLoop Do Sleep now newRequestError c).
Local Abbreviation post_ := (postChunkWithRetry Do Sleep now newRequestError c).
Local Abbreviation upload_ := (uploadLoop Do Sleep now newRequestError c).
Local Abbreviation Send_ := (Send Do Sleep now newRequestError jsonMarshal c).
Local Abbreviation body_ snap := (mustJSON jsonMarshal (withQuick snap)).
Local Abbreviation chunks_ snap :=
  (sliceChunks (mustJSON jsonMarshal (withQuick snap))).

Ltac retry_step H :=
  cbn [retryLoop] in H;
  destruct (newRequestError (url c)) as [text|] eqn:?;
  [|destruct (Do _ _) as [?w resp] eqn:?; destruct resp as [?text|code ?st ?body]].

(** Every attempt carries the same chunk, index, total and session id. *)
Lemma retryLoop_requests data cid idx total mr retries : forall lastErr w r w' log,
  retryLoop_ data cid idx total mr retries lastErr w = (r, w', log) ->
  Forall (postedFor cid idx total data) log.
Proof.
  induction retries as [|retry later IH]; intros lastErr w r w' log H.
  - cbn in H. by simplify_eq.
  - retry_step H.
    + by simplify_eq.
    + destruct (retryLoop_ data cid idx total mr later _ _) as [[r1 w2] log1] eqn:E.
      simplify_eq. constructor; [done|]. by eapply IH.
    + destruct ((200 <=? code) && (code <? 300)).
      * simplify_eq. by repeat constructor.
      * destruct (retryLoop_ data cid idx total mr later _ _) as [[r1 w2] log1] eqn:E.
        simplify_eq. constructor; [done|]. by eapply IH.
Qed.

(** With a URL that parses, the loop ends on the first accepted POST or
    after one POST per value of [retry]. *)
Lemma retryLoop_outcome data cid idx total mr retries :
  newRequestError (url c) = None ->
  forall lastErr w r w' log,
  retryLoop_ data cid idx total mr retries lastErr w = (r, w', log) ->
  retryOutcome idx (length retries) lastErr r log.
Proof.
  intros Hurl.
  assert (forall (x : Exchange) l d,
    match last (x :: l) with Some e => errOfResponse idx (snd e) | None => d end
    = match last l with
      | Some e => errOfResponse idx (snd e)
      | None => errOfResponse idx (snd x)
      end) as Hlast.
  { intros x l d. destruct l as [|y l]; [done|].
    change (last (x :: y :: l)) with (last (y :: l)).
    destruct (last (y :: l)) eqn:E; [done|]. by apply last_None in E. }
  induction retries as [|retry later IH]; intros lastErr w r w' log H.
  - cbn in H. simplify_eq. right. by repeat split.
  - retry_step H; [congruence| |].
    + destruct (retryLoop_ data cid idx total mr later _ _) as [[r1 w2] log1] eqn:E.
      simplify_eq. apply IH in E as [(-> & pre & e & -> & He & Hpre & Hlen)|(Hall & Hlen & ->)].
      * left. split; [done|]. exists ((postRequest now c w data cid idx total,
                                       TransportError text) :: pre), e.
        repeat split; [done|by constructor|cbn in *; lia].
      * right. repeat split; [by constructor|cbn; lia|].
        by rewrite Hlast.
    + destruct ((200 <=? code) && (code <? 300)) eqn:Hcode.
      * simplify_eq. left. split; [done|].
        exists [], (postRequest now c w data cid idx total, HTTP code st body).
        repeat split; [done|constructor|cbn; lia].
      * destruct (retryLoop_ data cid idx total mr later _ _) as [[r1 w2] log1] eqn:E.
        simplify_eq. apply IH in E as [(-> & pre & e & -> & He & Hpre & Hlen)|(Hall & Hlen & ->)].
        -- left. split; [done|]. exists ((postRequest now c w data cid idx total,
                                          HTTP code st body) :: pre), e.
           repeat split; [done|by constructor|cbn in *; lia].
        -- right. repeat split; [by constructor|cbn; lia|].
           rewrite Hlast. cbn [snd errOfResponse]. by rewrite Hcode.
Qed.

(** With a URL that does not parse, nothing is sent. *)
Lemma retryLoop_bad_url data cid idx total mr retries lastErr w r w' log text :
  newRequestError (url c) = Some text ->
  retryLoop_ data cid idx total mr retries lastErr w = (r, w', log) ->
  log = [] /\ w' = w /\ (retries <> [] -> r = Some (errLib text)).
Proof.
  intros Hurl H. destruct retries; cbn in H.
  - by simplify_eq.
  - rewrite Hurl in H. by simplify_eq.
Qed.

Lemma errOfResponse_rejected idx (e : Exchange) :
  ok e = false -> errOfResponse idx (snd e) <> None.
Proof.
  unfold ok. destruct (snd e) as [text|code st body]; cbn; [done|].
  by intros ->.
Qed.

Lemma filter_ok_rejected (l : list Exchange) :
  Forall (fun x => ok x = false) l -> filter (fun e => ok e = true) l = [].
Proof.
  induction 1 as [|x l Hx _ IH]; [done|].
  rewrite filter_cons_False; [done|]. by rewrite Hx.
Qed.

Lemma postedFor_idxOf cid idx total data e :
  postedFor cid idx total data e -> idxOf e = idx.
Proof. intros (_ & _ & H & _). unfold idxOf. by rewrite H. Qed.

(** What one call of [postChunkWithRetry] with [maxRetries = 5] leaves in
    the log. *)
Lemma post_shape data cid idx total w r w' log :
  post_ data cid idx total maxRetries w = (r, w', log) ->
  Forall (postedFor cid idx total data) log
  /\ (length (filter (fun e => ok e = true) log) <= 1)%nat
  /\ (r = None -> exists pre e, log = pre ++ [e] /\ ok e = true)
  /\ (r <> None ->
      log = []
      \/ (Forall (fun x => ok x = false) log /\ length log = 6%nat
          /\ exists e, last log = Some e /\ r = errOfResponse idx (snd e))).
Proof.
  unfold postChunkWithRetry. intros H.
  split; [by eapply retryLoop_requests|].
  destruct (newRequestError (url c)) as [text|] eqn:Hurl.
  - eapply retryLoop_bad_url in H as (-> & _ & Hr); [|done].
    rewrite Hr by done. repeat split; [cbn; lia|done|by left].
  - eapply retryLoop_outcome in H; [|done].
    destruct H as [(-> & pre & e & -> & He & Hpre & Hlen)|(Hall & Hlen & ->)].
    + repeat split; [|by eauto|done].
      rewrite filter_app, filter_ok_rejected by done.
      rewrite filter_cons_True by done. cbn. lia.
    + change (length (seqZ 0 (maxRetries + 1))) with 6%nat in Hlen.
      destruct (last log) as [e|] eqn:Hlast;
        [|apply last_None in Hlast; by subst].
      assert (ok e = false) as He.
      { apply last_Some_elem_of in Hlast.
        by eapply (proj1 (Forall_forall _ _) Hall). }
      repeat split.
      * rewrite filter_ok_rejected by done. cbn. lia.
      * intros Hnone. by apply errOfResponse_rejected in Hnone.
      * intros _. right. eauto.
Qed.

(** Every request of the upload loop posts one of the chunks under its own
    index, with the total and the session id of the call. *)
Lemma upload_requests cid T : forall chunks idx w r w' log,
  upload_ cid T idx chunks w = (r, w', log) ->
  Forall (fun e => exists (k : nat) part,
            chunks !! k = Some part
            /\ postedFor cid (idx + Z.of_nat k) T part e) log.
Proof.
  induction chunks as [|part rest IH]; intros idx w r w' log H.
  - cbn in H. by simplify_eq.
  - cbn [uploadLoop] in H.
    destruct (post_ part cid idx T maxRetries w) as [[err w1] log1] eqn:E1.
    apply post_shape in E1 as (Hreq & _).
    assert (Forall (fun e => exists (k : nat) p, (part :: rest) !! k = Some p
              /\ postedFor cid (idx + Z.of_nat k) T p e) log1) as H1.
    { eapply Forall_impl; [exact Hreq|]. intros e He. exists 0%nat, part.
      split; [done|]. by rewrite Z.add_0_r. }
    destruct err as [e0|]; [by simplify_eq|].
    destruct (upload_ cid T (idx + 1) rest w1) as [[r2 w2] log2] eqn:E2.
    simplify_eq. apply Forall_app. split; [done|].
    apply IH in E2. eapply Forall_impl; [exact E2|].
    intros e (k & p & Hk & Hp). exists (S k), p. split; [done|].
    by replace (idx + Z.of_nat (S k)) with (idx + 1 + Z.of_nat k) by lia.
Qed.

Lemma sorted_constant (f : Exchange -> Z) idx (l : list Exchange) :
  Forall (fun e => f e = idx) l -> StronglySorted Z.le (f <$> l).
Proof.
  induction 1 as [|x l Hx Hl IH]; cbn; constructor; [done|].
  apply Forall_fmap. eapply Forall_impl; [exact Hl|]. cbn. lia.
Qed.

Lemma sorted_short (l : list Z) :
  (length l <= 1)%nat -> StronglySorted Z.lt l.
Proof.
  destruct l as [|x [|y l]]; cbn; intros; [constructor|repeat constructor|lia].
Qed.

(** Parts go out in the order of their indices, and no part is accepted
    twice. *)
Lemma upload_sorted cid T : forall chunks idx w r w' log,
  upload_ cid T idx chunks w = (r, w', log) ->
  Forall (fun e => idx <= idxOf e) log
  /\ StronglySorted Z.le (idxOf <$> log)
  /\ StronglySorted Z.lt (idxOf <$> filter (fun e => ok e = true) log).
Proof.
  induction chunks as [|part rest IH]; intros idx w r w' log H.
  - cbn in H. simplify_eq. repeat split; constructor.
  - cbn [uploadLoop] in H.
    destruct (post_ part cid idx T maxRetries w) as [[err w1] log1] eqn:E1.
    apply post_shape in E1 as (Hreq & Hone & _).
    assert (Forall (fun e => idxOf e = idx) log1) as Hidx.
    { eapply Forall_impl; [exact Hreq|]. intros e. apply postedFor_idxOf. }
    assert (Forall (fun e => idx <= idxOf e) log1) as Hle.
    { eapply Forall_impl; [exact Hidx|]. cbn. lia. }
    assert (StronglySorted Z.lt (idxOf <$> filter (fun e => ok e = true) log1)) as Hlt.
    { apply sorted_short. by rewrite length_fmap. }
    destruct err as [e0|].
    { simplify_eq. repeat split; [done|by eapply sorted_constant|done]. }
    destruct (upload_ cid T (idx + 1) rest w1) as [[r2 w2] log2] eqn:E2.
    simplify_eq. apply IH in E2 as (Hge & Hs & Hs').
    rewrite Forall_forall in Hidx, Hge.
    repeat split.
    + apply Forall_app. split; [done|]. apply Forall_forall.
      intros e He. specialize (Hge e He). lia.
    + rewrite fmap_app. apply StronglySorted_app_2; [|by eapply sorted_constant, Forall_forall|done].
      intros x1 x2 (e1 & -> & H1)%list_elem_of_fmap (e2 & -> & H2)%list_elem_of_fmap.
      specialize (Hidx e1 H1). specialize (Hge e2 H2). lia.
    + rewrite filter_app, fmap_app. apply StronglySorted_app_2; [|done|done].
      intros x1 x2 (e1 & -> & H1)%list_elem_of_fmap (e2 & -> & H2)%list_elem_of_fmap.
      apply list_elem_of_filter in H1 as [_ H1], H2 as [_ H2].
      specialize (Hidx e1 H1). specialize (Hge e2 H2). lia.
Qed.

(** No part is skipped: when part [j] is posted, every part from [idx] up to
    [j] has been accepted before. *)
Lemma upload_no_skip cid T : forall chunks idx w r w' log,
  upload_ cid T idx chunks w = (r, w', log) ->
  forall e j, e ∈ log -> idx <= j < idxOf e ->
  exists e', e' ∈ log /\ idxOf e' = j /\ ok e' = true.
Proof.
  induction chunks as [|part rest IH]; intros idx w r w' log H e j He Hj.
  - cbn in H. simplify_eq. by apply elem_of_nil in He.
  - cbn [uploadLoop] in H.
    destruct (post_ part cid idx T maxRetries w) as [[err w1] log1] eqn:E1.
    apply post_shape in E1 as (Hreq & _ & Hnone & _).
    assert (forall x, x ∈ log1 -> idxOf x = idx) as Hidx.
    { intros x Hx. eapply postedFor_idxOf.
      by eapply (proj1 (Forall_forall _ _) Hreq). }
    destruct err as [e0|].
    { simplify_eq. rewrite (Hidx e He) in Hj. lia. }
    destruct (Hnone eq_refl) as (pre & e1 & -> & Hok1).
    destruct (upload_ cid T (idx + 1) rest w1) as [[r2 w2] log2] eqn:E2.
    simplify_eq.
    assert (e1 ∈ pre ++ [e1]) as Hin1.
    { apply elem_of_app. right. by apply list_elem_of_singleton. }
    apply elem_of_app in He as [He|He]; [rewrite (Hidx e He) in Hj; lia|].
    destruct (Z.eq_dec j idx) as [->|Hne].
    + exists e1. split; [apply elem_of_app; by left|]. split; [by apply Hidx|done].
    + destruct (IH _ _ _ _ _ E2 e j He) as (e' & He' & Hj' & Hok'); [lia|].
      exists e'. split; [apply elem_of_app; by right|done].
Qed.

Lemma filter_all {A} (P : A -> Prop) `{forall x, Decision (P x)} (l : list A) :
  Forall P l -> filter P l = l.
Proof.
  induction 1 as [|x l Hx _ IH]; [done|].
  by rewrite filter_cons_True, IH.
Qed.

Lemma filter_none {A} (P : A -> Prop) `{forall x, Decision (P x)} (l : list A) :
  Forall (fun x => ~ P x) l -> filter P l = [].
Proof.
  induction 1 as [|x l Hx _ IH]; [done|].
  by rewrite filter_cons_False.
Qed.

(** When every attempt on part [k] was rejected, part [k] was posted six
    times, nothing after it was posted, and the call returns the error of
    the sixth answer. *)
Lemma upload_exhaust cid T : forall chunks idx w r w' log,
  upload_ cid T idx chunks w = (r, w', log) ->
  forall k,
  (exists e, e ∈ log /\ idxOf e = k) ->
  (forall e, e ∈ log -> idxOf e = k -> ok e = false) ->
  length (filter (fun e => idxOf e = k) log) = 6%nat
  /\ Forall (fun e => idxOf e <= k) log
  /\ exists e, last log = Some e /\ idxOf e = k
       /\ r = errOfResponse k (snd e) /\ r <> None.
Proof.
  induction chunks as [|part rest IH]; intros idx w r w' log H k (e & He & <-) Hrej.
  - cbn in H. simplify_eq. by apply elem_of_nil in He.
  - cbn [uploadLoop] in H.
    destruct (post_ part cid idx T maxRetries w) as [[err w1] log1] eqn:E1.
    apply post_shape in E1 as (Hreq & _ & Hnone & Hsome).
    assert (Forall (fun x => idxOf x = idx) log1) as Hidx.
    { eapply Forall_impl; [exact Hreq|]. intros x. apply postedFor_idxOf. }
    destruct err as [e0|].
    + simplify_eq. rewrite Forall_forall in Hidx.
      rewrite (Hidx e He).
      destruct Hsome as [->|(Hall & Hlen & e1 & Hlast & Hr)]; [done|by apply elem_of_nil in He|].
      repeat split.
      * rewrite filter_all; [done|]. by apply Forall_forall.
      * apply Forall_forall. intros x Hx. rewrite (Hidx x Hx). lia.
      * exists e1. repeat split; [done| |done|done].
        apply Hidx. by eapply last_Some_elem_of.
    + destruct (Hnone eq_refl) as (pre & e1 & -> & Hok1).
      destruct (upload_ cid T (idx + 1) rest w1) as [[r2 w2] log2] eqn:E2.
      simplify_eq. rewrite Forall_forall in Hidx.
      assert (e1 ∈ pre ++ [e1]) as Hin1.
      { apply elem_of_app. right. by apply list_elem_of_singleton. }
      assert (idxOf e1 = idx) as Hi1 by by apply Hidx.
      assert (idxOf e <> idx) as Hne.
      { intros Heq. rewrite Hrej in Hok1; [done| |congruence].
        apply elem_of_app. by left. }
      assert (e ∈ log2) as He2.
      { apply elem_of_app in He as [He|He]; [|done]. by apply Hidx in He. }
      pose proof (upload_sorted _ _ _ _ _ _ _ _ E2) as (Hge & _).
      rewrite Forall_forall in Hge. pose proof (Hge e He2) as Hlt.
      edestruct (IH _ _ _ _ _ E2 (idxOf e)) as (Hsix & Hle & e3 & Hlast & Hk3 & Hr & Hrn).
      { by exists e. }
      { intros x Hx. apply Hrej. apply elem_of_app. by right. }
      repeat split.
      * rewrite filter_app, (filter_none _ (pre ++ [e1])); [exact Hsix|].
        apply Forall_forall. intros x Hx. rewrite (Hidx x Hx). lia.
      * apply Forall_app. split; [|done].
        apply Forall_forall. intros x Hx. rewrite (Hidx x Hx). lia.
      * exists e3. rewrite last_app, Hlast. done.
Qed.

(** A server that accepts every POST gets every part exactly once. *)
Lemma upload_all_accepted cid T :
  newRequestError (url c) = None ->
  (forall w q, is2xx (snd (Do w q)) = true) ->
  forall chunks idx w r w' log,
  upload_ cid T idx chunks w = (r, w', log) ->
  r = None
  /\ (fun e => (X_Chunk_Idx (fst e), X_Chunk_Total (fst e), req_body (fst e)))
       <$> log
     = (fun p => (Some (fst p), Some T, snd p)) <$> numbered idx chunks.
Proof.
  intros Hurl Hacc.
  induction chunks as [|part rest IH]; intros idx w r w' log H.
  - cbn in H. by simplify_eq.
  - cbn [uploadLoop] in H. unfold postChunkWithRetry in H.
    change (seqZ 0 (maxRetries + 1)) with (0 :: seqZ 1 5) in H.
    cbn [retryLoop] in H. rewrite Hurl in H.
    pose proof (Hacc w (postRequest now c w part cid idx T)) as Hok.
    destruct (Do w _) as [w1 resp]. cbn in Hok.
    destruct resp as [text|code st body]; [done|].
    cbn in Hok. rewrite Hok in H.
    destruct (upload_ cid T (idx + 1) rest w1) as [[r2 w2] log2] eqn:E2.
    simplify_eq. apply IH in E2 as [-> E2]. split; [done|].
    cbn. by rewrite E2.
Qed.

(** C3.  For every Snapshot [Send] accepts (its JSON is within [bodyCap]),
    every POST carries the session id, one of the parts under its 0-based
    index, and as X-Chunk-Total the number of parts, the same non-zero
    number on every part; indices never go down along the uploads, the
    accepted uploads have strictly increasing indices, and a part is posted
    only after every part before it has been accepted.  A payload of
    700 KiB gives parts of 300, 300 and 100 KiB and X-Chunk-Total 3 on every
    POST; a server that accepts everything receives exactly these three. *)
Theorem send_total_on_every_part (rnd : list byte) (snap : Snapshot)
    (w w' : World) (r : option error) (log : list Exchange) :
  GoInt.len (mustJSON jsonMarshal (withQuick snap)) <= bodyCap ->
  Send Do Sleep now newRequestError jsonMarshal c rnd snap w = (r, w', log) ->
  let body := mustJSON jsonMarshal (withQuick snap) in
  let chunks := sliceChunks body in
  Forall (fun e =>
            req_method (fst e) = POST
            /\ X_Chunk_Id (fst e) = Some (randomID 8 rnd)
            /\ X_Chunk_Total (fst e) = Some (GoInt.len chunks)
            /\ GoInt.len chunks <> 0
            /\ exists k : nat, X_Chunk_Idx (fst e) = Some (Z.of_nat k)
                 /\ chunks !! k = Some (req_body (fst e))) log
  /\ StronglySorted Z.le (idxOf <$> log)
  /\ StronglySorted Z.lt (idxOf <$> filter (fun e => ok e = true) log)
  /\ (forall e j, e ∈ log -> 0 <= j < idxOf e ->
      exists e', e' ∈ log /\ idxOf e' = j /\ ok e' = true)
  /\ (GoInt.len body = 700 * 1024 ->
      GoInt.len <$> chunks = [300 * 1024; 300 * 1024; 100 * 1024]
      /\ Forall (fun e => X_Chunk_Total (fst e) = Some 3) log
      /\ (newRequestError (url c) = None ->
          (forall w q, is2xx (snd (Do w q)) = true) ->
          r = None
          /\ (fun e => (X_Chunk_Idx (fst e), X_Chunk_Total (fst e),
                        GoInt.len (req_body (fst e)))) <$> log
             = [ (Some 0, Some 3, 300 * 1024); (Some 1, Some 3, 300 * 1024);
                 (Some 2, Some 3, 100 * 1024) ])).
Proof.
  intros Hcap E body chunks. unfold Send in E. fold body in Hcap, E.
  destruct (Z.gtb_spec (GoInt.len body) bodyCap) as [|_]; [lia|]. fold chunks in E.
  pose proof (upload_requests _ _ _ _ _ _ _ _ E) as Hreq.
  pose proof (upload_sorted _ _ _ _ _ _ _ _ E) as (_ & Hle & Hlt).
  pose proof (upload_no_skip _ _ _ _ _ _ _ _ E) as Hskip.
  assert (Forall (fun e => X_Chunk_Total (fst e) = Some (GoInt.len chunks)) log)
    as Htot.
  { eapply Forall_impl; [exact Hreq|]. by intros e (k & p & _ & _ & _ & _ & ? & _). }
  split; [|split; [done|split; [done|split; [exact Hskip|]]]].
  - eapply Forall_impl; [exact Hreq|].
    intros e (k & p & Hk & Hm & Hc & Hi & Ht & Hb).
    repeat split; [done|done|done| |].
    + apply lookup_lt_Some in Hk. unfold GoInt.len. lia.
    + exists k. rewrite Hi, Hb. split; [f_equal; lia|done].
  - intros H700. apply sliceChunks_700KiB in H700. fold chunks in H700.
    assert (GoInt.len chunks = 3) as H3.
    { unfold GoInt.len at 1. by rewrite <- (length_fmap GoInt.len), H700. }
    split; [done|]. split; [by rewrite <- H3|].
    intros Hurl Hacc.
    destruct (upload_all_accepted _ _ Hurl Hacc _ _ _ _ _ _ E) as [-> Hlog].
    split; [done|].
    apply (f_equal (fmap (fun t : option Z * option Z * list byte =>
                            (fst (fst t), snd (fst t), GoInt.len (snd t))))) in Hlog.
    rewrite <- !list_fmap_compose in Hlog.
    etrans; [exact Hlog|]. clear Hlog E Hreq Hle Hlt Htot Hskip.
    destruct chunks as [|p0 [|p1 [|p2 [|? ?]]]]; try done.
    cbn in H700 |- *. rewrite H3.
    injection H700 as -> -> ->. reflexivity.
Qed.

(** C5, with the error as the code words it.  When the JSON of the Snapshot
    (quick key attached) is longer than 32 MiB, [Send] returns the error
    "snapshot >32 MiB, dropped" and has made no request: the log is empty
    and the world is the one it was called in. *)
Theorem send_oversize_makes_no_request (rnd : list byte) (snap : Snapshot)
    (w : World) :
  bodyCap < GoInt.len (mustJSON jsonMarshal (withQuick snap)) ->
  Send Do Sleep now newRequestError jsonMarshal c rnd snap w
  = (Some (errorsNew "snapshot >32 MiB, dropped"), w, []).
Proof.
  unfold Send, mustJSON. intros Hbig.
  by destruct (Z.gtb_spec (GoInt.len (jsonMarshal (withQuick snap))) bodyCap); [|lia].
Qed.

(** C4, as the code has it.  Whenever some part [k] of a Send was attempted
    and every POST of it was rejected (non-2xx answer or transport error),
    part [k] was posted six times (the first attempt and [maxRetries = 5]
    retries), no later part was posted, and [Send] returns the error made
    from the last answer. *)
Theorem send_gives_up_after_six_attempts (rnd : list byte) (snap : Snapshot)
    (w w' : World) (r : option error) (log : list Exchange) (k : Z) :
  Send Do Sleep now newRequestError jsonMarshal c rnd snap w = (r, w', log) ->
  (exists e, e ∈ log /\ idxOf e = k) ->
  (forall e, e ∈ log -> idxOf e = k -> ok e = false) ->
  length (filter (fun e => idxOf e = k) log) = 6%nat
  /\ Forall (fun e => idxOf e <= k) log
  /\ exists e, last log = Some e /\ idxOf e = k
       /\ r = errOfResponse k (snd e) /\ r <> None.
Proof.
  unfold Send, mustJSON. intros E.
  destruct (GoInt.len (jsonMarshal (withQuick snap)) >? bodyCap).
  { simplify_eq. intros (e & He & _). by apply elem_of_nil in He. }
  by eapply upload_exhaust.
Qed.

End Sending.

Section Polling.

Context {World : Type}.
Variable Do : World -> Request -> World * Response.
Variable Sleep : World -> World.
Variable now : World -> Z.
Variable newRequestError : string -> option string.
Variable jsonScan : list byte -> option (Json.value * list byte).
Variable c : httpClient.

Local Abbreviation fetchChunk_ := (fetchChunk Do now newRequestError c).
Local Abbreviation fetchIfMissing_ :=
  (fetchIfMissing Do now newRequestError c).
Local Abbreviation fetchMissing_ :=
  (fetchMissing Do now newRequestError c).
Local Abbreviation afterDiscover_ :=
  (afterDiscover Do now newRequestError jsonScan c).
Local Abbreviation discover_ :=
  (discover Do now newRequestError jsonScan c).
Local Abbreviation pollLoop_ :=
  (pollLoop Do Sleep now newRequestError jsonScan c).
Local Abbreviation Poll_ := (Poll Do Sleep now newRequestError jsonScan c).
Local Abbreviation PollReach_ :=
  (PollReach Do now newRequestError jsonScan c).

(** What an iteration writes to [out] is at most one snapshot, and it comes
    from somebody else. *)
Lemma afterDiscover_out r current w current' w' out log :
  afterDiscover_ r current w = Some (current', w', out, log) ->
  Forall (fun snap => Origin snap <> id c) out.
Proof.
  unfold afterDiscover. intros H.
  destruct r as [meta|err]; [|by simplify_eq].
  destruct (negb (String.eqb (state.cid (trackSession meta current)) ""));
    [|by simplify_eq].
  destruct (fetchMissing_ _ _ w) as [[[cur2 w2] log2]|]; [|done].
  destruct ((state.total cur2 >? 0) && (lenParts cur2 =? state.total cur2));
    [|by simplify_eq].
  simplify_eq.
  destruct (assemble jsonScan cur2) as [snap|]; [|constructor].
  destruct (String.eqb_spec (Origin snap) (id c)); cbn; by repeat constructor.
Qed.

(** C6.  Self-origin filtering: in every state the Poll loop can reach,
    whatever discover returned along the way, no Snapshot written to the
    output channel has the local client id as its origin. *)
Theorem poll_never_forwards_own_snapshot current out :
  PollReach Do now newRequestError jsonScan c current out ->
  Forall (fun snap => Origin snap <> id c) out.
Proof.
  induction 1 as [|current out r w current' w' out' log _ IH Hstep].
  - constructor.
  - apply Forall_app. split; [exact IH|]. by eapply afterDiscover_out.
Qed.

(** The loop as written, with its own [discover], stays within [PollReach]. *)
Lemma pollLoop_reach n : forall current w out st w' out' log,
  PollReach_ current out ->
  pollLoop_ n current w = (st, w', out', log) ->
  exists current', PollReach_ current' (out ++ out').
Proof.
  induction n as [|n IH]; intros current w out st w' out' log Hreach H.
  - cbn in H. simplify_eq. exists current. by rewrite app_nil_r.
  - cbn [pollLoop] in H. unfold pollIteration in H.
    destruct (discover_ w) as [[[r w1] log1]|].
    2:{ simplify_eq. exists current. by rewrite app_nil_r. }
    destruct (afterDiscover_ r current w1) as [[[[cur2 w2] out2] log2]|] eqn:E.
    2:{ simplify_eq. exists current. by rewrite app_nil_r. }
    destruct (pollLoop_ n cur2 (Sleep w2)) as [[[st3 w3] out3] log3] eqn:E3.
    simplify_eq. rewrite app_assoc. eapply IH; [|exact E3].
    by eapply reach_iter.
Qed.

(** The same holds of the loop as written, read off its result. *)
Lemma pollLoop_out n : forall current w st w' out log,
  pollLoop_ n current w = (st, w', out, log) ->
  Forall (fun snap => Origin snap <> id c) out.
Proof.
  induction n as [|n IH]; intros current w st w' out log H.
  - cbn in H. by simplify_eq.
  - cbn [pollLoop] in H. unfold pollIteration in H.
    destruct (discover_ w) as [[[r w1] log1]|]; [|by simplify_eq].
    destruct (afterDiscover_ r current w1) as [[[[cur2 w2] out2] log2]|] eqn:E;
      [|by simplify_eq].
    destruct (pollLoop_ n cur2 (Sleep w2)) as [[[st3 w3] out3] log3] eqn:E3.
    simplify_eq. apply Forall_app. split; [by eapply afterDiscover_out|by eapply IH].
Qed.


(** *** assemble *)

Lemma size_indexRange total : size (indexRange total) = Z.to_nat total.
Proof.
  unfold indexRange. rewrite size_list_to_set by apply NoDup_seqZ.
  apply length_seqZ.
Qed.

Lemma elem_of_indexRange total k : k ∈ indexRange total <-> 0 <= k < total.
Proof.
  unfold indexRange. rewrite elem_of_list_to_set, elem_of_seqZ. lia.
Qed.

(** A chunk set of [total] parts whose keys all lie in 0..total-1 has
    every key of that range. *)
Lemma full_range_of_count (parts : gmap Z (list byte)) total :
  (forall k, k ∈ dom parts -> 0 <= k < total) ->
  Z.of_nat (size parts) = total ->
  dom parts = indexRange total.
Proof.
  intros Hin Hsize. apply set_subseteq_size_eq.
  - intros k Hk. apply elem_of_indexRange. by apply Hin.
  - rewrite size_indexRange, size_dom. lia.
Qed.

(** C7, as the code has it.  [assemble] returns a decoded Snapshot exactly
    when the declared total is not zero, the number of received parts
    equals it, and the concatenation of parts[0], ..., parts[total-1] (a
    missing index adds nothing) is the JSON of a Snapshot.  The indices
    themselves are not checked: a chunk set whose keys lie in 0..total-1
    but are not all of them is incomplete (nil), the set of keys
    {0, ..., total-1} is decoded, and malformed JSON gives nil. *)
Theorem assemble_checks_the_count (s : state.t) :
  (forall snap, assemble jsonScan s = Some snap <->
     state.total s <> 0 /\ lenParts s = state.total s
     /\ jsonUnmarshal jsonScan (concatParts s) = Some snap)
  /\ ((forall k, k ∈ dom (state.parts s) -> 0 <= k < state.total s) ->
      dom (state.parts s) <> indexRange (state.total s) ->
      assemble jsonScan s = None)
  /\ (dom (state.parts s) = indexRange (state.total s) -> 0 < state.total s ->
      assemble jsonScan s = jsonUnmarshal jsonScan (concatParts s))
  /\ (jsonUnmarshal jsonScan (concatParts s) = None -> assemble jsonScan s = None).
Proof.
  assert (forall snap, assemble jsonScan s = Some snap <->
            state.total s <> 0 /\ lenParts s = state.total s
            /\ jsonUnmarshal jsonScan (concatParts s) = Some snap) as Hsome.
  { intros snap. unfold assemble.
    destruct (Z.eqb_spec (state.total s) 0) as [H0|H0];
      destruct (Z.eqb_spec (lenParts s) (state.total s)) as [Hn|Hn];
      cbn [orb negb]; split; try done; try (by intros (? & ? & ?)). }
  split; [exact Hsome|]. split; [|split].
  - intros Hin Hne.
    destruct (assemble jsonScan s) as [snap|] eqn:E; [|done].
    destruct (proj1 (Hsome snap) eq_refl) as (_ & Hn & _). destruct Hne.
    by apply full_range_of_count.
  - intros Hdom Hpos.
    assert (lenParts s = state.total s) as Hn.
    { unfold lenParts. rewrite <- size_dom, Hdom, size_indexRange. lia. }
    unfold assemble.
    destruct (Z.eqb_spec (state.total s) 0) as [H0|H0]; [lia|].
    by destruct (Z.eqb_spec (lenParts s) (state.total s)).
  - intros Hnone.
    destruct (assemble jsonScan s) as [snap|] eqn:E; [|done].
    destruct (proj1 (Hsome snap) eq_refl) as (_ & _ & E'). congruence.
Qed.

(** *** fetchChunk *)

Lemma readLimited_length body : GoInt.len (readLimited body) <= 300 * 1024 + 1024.
Proof.
  unfold readLimited, GoInt.len. rewrite length_take, chunkSize_val. lia.
Qed.

(** C10.  [fetchChunk] returns at most 300*1024 + 1024 bytes.  When a fetch
    is answered 200 with a longer body, it returns the first
    300*1024 + 1024 bytes of it and no error, and the loop of [Poll] stores
    that prefix as the part. *)
Theorem fetchChunk_truncates_oversized_part (idx : Z) (current : state.t)
    (w : World) :
  (forall data w' log,
     fetchChunk Do now newRequestError c (state.cid current) idx w
     = Some (inl data, w', log) ->
     GoInt.len data <= 300 * 1024 + 1024)
  /\ (forall st body,
        newRequestError (url c) = None ->
        snd (Do w (getRequest now c w (Some (state.cid current, idx))))
          = HTTP 200 st body ->
        300 * 1024 + 1024 < GoInt.len body ->
        state.parts current !! idx = None ->
        let data := take (Z.to_nat (300 * 1024 + 1024)) body in
        GoInt.len data = 300 * 1024 + 1024
        /\ exists w' log,
             fetchChunk Do now newRequestError c (state.cid current) idx w
             = Some (inl data, w', log)
             /\ fetchIfMissing Do now newRequestError c idx current w
                = Some (state.mk (state.cid current) (state.total current)
                          (<[idx := data]> (state.parts current)), w', log)).
Proof.
  split.
  - unfold fetchChunk. intros data w' log H.
    destruct (newRequestError (url c)); [done|].
    destruct (Do w _) as [w1 resp].
    destruct resp as [text|code st body]; [by simplify_eq|].
    destruct (negb (code =? 200)); simplify_eq. apply readLimited_length.
  - intros st body Hurl Hdo Hbig Hmiss data. split.
    { unfold data, GoInt.len in *. rewrite length_take. lia. }
    unfold fetchIfMissing, fetchChunk. rewrite Hmiss, Hurl.
    destruct (Do w _) as [w1 resp]. cbn in Hdo. subst resp. cbn.
    exists w1. eexists. split; [|reflexivity].
    unfold readLimited, data. by rewrite chunkSize_val.
Qed.

(** *** discover *)

(** No field of [discoverResp] is exported, so the decoder has nothing to
    store into. *)
Lemma discoverResp_no_visible_field key :
  Json.find_field discoverResp.fields key = None.
Proof. reflexivity. Qed.

Lemma fill_discoverResp ms x :
  Json.fill discoverResp.fields ms x = (x, true).
Proof.
  induction ms as [|[k v] ms IH]; [done|].
  cbn [Json.fill]. by rewrite discoverResp_no_visible_field.
Qed.

(** Whatever the relay answers, [discover] reports no session. *)
Lemma jsonDecode_zero body meta :
  jsonDecode jsonScan body = Some meta -> meta = discoverResp.zero.
Proof.
  unfold jsonDecode. destruct (jsonScan body) as [[v rest]|]; [|done].
  destruct v; cbn; try done; [by intros [= <-]|].
  rewrite fill_discoverResp. by intros [= <-].
Qed.

Lemma discover_zero w r w' log :
  discover_ w = Some (r, w', log) ->
  (r = inl discoverResp.zero \/ exists e, r = inr e)
  /\ Forall (fun x => X_Chunk_Idx (fst x) = None) log.
Proof.
  unfold discover. destruct (newRequestError (url c)); [done|].
  destruct (Do w _) as [w1 resp] eqn:E. intros [= <- <- <-].
  split; [|by repeat constructor].
  destruct resp as [text|code st body]; [by eauto|].
  destruct (jsonDecode jsonScan body) as [meta|] eqn:Hd; [|by eauto].
  left. by rewrite (jsonDecode_zero _ _ Hd).
Qed.

(** So an idle [Poll] stays idle: it never fetches a part and never writes
    to [out]. *)
Lemma pollLoop_idle n : forall w st w' out log,
  pollLoop_ n state.zero w = (st, w', out, log) ->
  out = [] /\ Forall (fun x => X_Chunk_Idx (fst x) = None) log
  /\ (st = Some state.zero \/ st = None).
Proof.
  induction n as [|n IH]; intros w st w' out log H.
  - cbn in H. simplify_eq. repeat split; [constructor|by left].
  - cbn [pollLoop] in H. unfold pollIteration in H.
    destruct (discover_ w) as [[[r w1] log1]|] eqn:Hd.
    2:{ simplify_eq. repeat split; [constructor|by right]. }
    apply discover_zero in Hd as [Hr Hlog1].
    assert (afterDiscover_ r state.zero w1 = Some (state.zero, w1, [], [])) as Hidle.
    { by destruct Hr as [->|[e ->]]. }
    rewrite Hidle in H.
    destruct (pollLoop_ n state.zero (Sleep w1)) as [[[st3 w3] out3] log3] eqn:E3.
    simplify_eq. apply IH in E3 as (-> & Hlog3 & Hst).
    repeat split; [|done]. rewrite app_nil_r. by apply Forall_app.
Qed.

End Polling.

(** ** The reference surroundings at work *)

Example sha256_abc :
  hex (Sha256.sum (lit "abc"))
  = "ba7816bf8f01cfea414140de5dae2223b00361a396177a9cb410ff61f20015ad".
Proof. vm_compute. reflexivity. Qed.

Example sha256_empty :
  hex (Sha256.sum [])
  = "e3b0c44298fc1c149afbf4c8996fb92427ae41e4649b934ca495991b7852b855".
Proof. vm_compute. reflexivity. Qed.

Example sha256_one_full_block :
  hex (Sha256.sum (repeat "a"%byte 64))
  = "ffe054fe7ae0cb6dc65c3af9b61d5209f439851db43d0ba5997337df154668eb".
Proof. vm_compute. reflexivity. Qed.

(** Scenario of the relay design notes, on the loop body: with the
    advertised session decoded as intended, both parts are fetched in the
    order 0, 1 and the snapshot is written to [out] once. *)
Lemma afterDiscover_advertised :
  exists log,
    afterDiscover relay clock urlParses Json.scan me (inl advertised)
      state.zero 0%nat
    = Some (state.zero, 2%nat, [emptyFromOther], log)
    /\ idxOf <$> log = [0; 1].
Proof. eexists. split; [vm_compute; reflexivity|reflexivity]. Qed.

(** The same session seen by the client that produced the snapshot: decoded,
    not forwarded. *)
Lemma afterDiscover_own_snapshot :
  exists log,
    afterDiscover relay clock urlParses Json.scan
      (mkClient (url me) "other" 0) (inl advertised) state.zero 0%nat
    = Some (state.zero, 2%nat, [], log)
    /\ idxOf <$> log = [0; 1].
Proof. eexists. split; [vm_compute; reflexivity|reflexivity]. Qed.

Lemma relay_reaches :
  PollReach relay clock urlParses Json.scan me state.zero [emptyFromOther].
Proof.
  destruct afterDiscover_advertised as (log & Hstep & _).
  exact (reach_iter relay clock urlParses Json.scan me state.zero [] _ _ _ _ _ _
           (reach_start _ _ _ _ _) Hstep).
Qed.

Lemma send_chunks_reassemble_witness :
  GoInt.len bigPart + chunkSize <= GoInt.MaxInt
  /\ concatParts (state.mk "abc" (GoInt.len (sliceChunks bigPart))
                    (partsOfChunks (sliceChunks bigPart))) = bigPart.
Proof.
  assert (GoInt.len bigPart + chunkSize <= GoInt.MaxInt) as H.
  { unfold bigPart, GoInt.len. rewrite repeat_length, chunkSize_val, MaxInt_val. lia. }
  split; [exact H|].
  exact (proj1 (send_chunks_reassemble Json.scan bigPart "abc" H)).
Defined.

(** C2 at the claim's input.  The relay answers discover with
    [{"cid":"abc","total":2,"have":[0,1]}] and holds both parts of a
    snapshot of another client.  The decoder leaves [meta] at its zero
    value, and three iterations of [Poll] make three discover requests, no
    fetch, and write nothing to [out]. *)
Theorem poll_ignores_the_advertised_session :
  jsonDecode Json.scan discoverBody = Some discoverResp.zero
  /\ exists log,
       Poll relay stay clock urlParses Json.scan me 3 0%nat
       = (Some state.zero, 3%nat, [], log)
       /\ length log = 3%nat
       /\ Forall (fun x => X_Chunk_Idx (fst x) = None) log.
Proof.
  split; [vm_compute; reflexivity|].
  eexists. split; [vm_compute; reflexivity|].
  split; [reflexivity|repeat constructor].
Qed.

Lemma send_total_on_every_part_witness :
  exists r w' log,
    Send (rejectFirst 2) stay clock urlParses marshalSnapshot me [] helloSnapshot 0%nat
    = (r, w', log)
    /\ GoInt.len (marshalSnapshot (withQuick helloSnapshot)) <= bodyCap
    /\ length log = 3%nat
    /\ Forall (fun e => X_Chunk_Total (fst e) = Some 1) log.
Proof.
  eexists _, _, _. split; [vm_compute; reflexivity|].
  assert (GoInt.len (marshalSnapshot (withQuick helloSnapshot)) <= bodyCap) as H.
  { vm_compute. discriminate. }
  split; [exact H|]. split; [reflexivity|].
  eapply Forall_impl.
  - refine (proj1 (send_total_on_every_part (rejectFirst 2) stay clock urlParses
                     marshalSnapshot me [] helloSnapshot 0%nat _ _ _ H _)).
    vm_compute. reflexivity.
  - intros e (_ & _ & Ht & _). rewrite Ht. vm_compute. reflexivity.
Defined.

(** C4 as stated fails.  A server that rejects five POSTs in a row and
    accepts the sixth: [Send] succeeds with that sixth attempt.  A server
    that rejects everything: part 0 is posted six times, not five. *)
Lemma five_failures_do_not_exhaust_the_retries :
  (exists w' log,
     Send (rejectFirst 5) stay clock urlParses marshalSnapshot me [] helloSnapshot 0%nat
     = (None, w', log)
     /\ ok <$> log = [false; false; false; false; false; true])
  /\ (exists r w' log,
        Send (rejectFirst 100) stay clock urlParses marshalSnapshot me []
          helloSnapshot 0%nat = (r, w', log)
        /\ idxOf <$> log = [0; 0; 0; 0; 0; 0]
        /\ ok <$> log = [false; false; false; false; false; false]).
Proof.
  split.
  - eexists _, _. split; [vm_compute; reflexivity|reflexivity].
  - eexists _, _, _. split; [vm_compute; reflexivity|]. split; reflexivity.
Qed.

Lemma send_gives_up_after_six_attempts_witness :
  exists r w' log,
    Send (rejectFirst 100) stay clock urlParses marshalSnapshot me [] helloSnapshot 0%nat
    = (r, w', log)
    /\ (exists e, e ∈ log /\ idxOf e = 0)
    /\ (forall e, e ∈ log -> idxOf e = 0 -> ok e = false)
    /\ length (filter (fun e => idxOf e = 0) log) = 6%nat
    /\ r <> None.
Proof.
  eexists _, _, _.
  split; [vm_compute; reflexivity|].
  match goal with
  | |- (exists e, e ∈ ?l /\ _) /\ _ => set (log := l)
  end.
  assert (exists e, e ∈ log /\ idxOf e = 0) as H1.
  { eexists. split; [apply list_elem_of_here|reflexivity]. }
  assert (forall e, e ∈ log -> idxOf e = 0 -> ok e = false) as H2.
  { intros e He _. unfold log in He.
    repeat (apply elem_of_cons in He as [->|He]; [reflexivity|]).
    by apply elem_of_nil in He. }
  split; [exact H1|]. split; [exact H2|].
  refine (let H := send_gives_up_after_six_attempts (rejectFirst 100) stay clock
                     urlParses marshalSnapshot me [] helloSnapshot 0%nat _ _ log 0
                     _ H1 H2 in _).
  destruct H as (H6 & _ & e & _ & _ & Hr & Hne). split; [exact H6|exact Hne].
  Unshelve. all: try (vm_compute; reflexivity).
Defined.

(** *** The reference marshaller writes at least the origin *)

Lemma escape_byte_nonempty b : (1 <= length (Json.escape_byte b))%nat.
Proof.
  unfold Json.escape_byte.
  destruct b; cbn [length]; try lia;
    repeat match goal with |- context [if ?x then _ else _] => destruct x end;
    cbn [length]; lia.
Qed.

Lemma escaped_length bs :
  (length bs <= length (concat (map Json.escape_byte bs)))%nat.
Proof.
  induction bs as [|b bs IH]; [done|].
  cbn [map concat]. rewrite length_app. pose proof (escape_byte_nonempty b).
  cbn [length]. lia.
Qed.

Lemma marshal_huge n :
  Z.of_nat n < GoInt.len (marshalSnapshot (withQuick (hugeSnapshot n))).
Proof.
  unfold marshalSnapshot, GoInt.len.
  change (Origin (withQuick (hugeSnapshot n)))
    with (string_of_list_byte (repeat "a"%byte n)).
  unfold Json.quote at 1.
  rewrite list_byte_of_string_of_list_byte.
  pose proof (escaped_length (repeat "a"%byte n)) as H.
  rewrite repeat_length in H.
  rewrite !length_app. cbn [length]. rewrite !length_app. lia.
Qed.

Lemma send_oversize_makes_no_request_witness :
  bodyCap < GoInt.len (marshalSnapshot (withQuick (hugeSnapshot (Z.to_nat bodyCap))))
  /\ Send (rejectFirst 0) stay clock urlParses marshalSnapshot me []
       (hugeSnapshot (Z.to_nat bodyCap)) 0%nat
     = (Some (errorsNew "snapshot >32 MiB, dropped"), 0%nat, []).
Proof.
  assert (bodyCap
          < GoInt.len (marshalSnapshot (withQuick (hugeSnapshot (Z.to_nat bodyCap)))))
    as H.
  { pose proof (marshal_huge (Z.to_nat bodyCap)). pose proof bodyCap_val. lia. }
  split; [exact H|].
  exact (send_oversize_makes_no_request (rejectFirst 0) stay clock urlParses
           marshalSnapshot me [] (hugeSnapshot (Z.to_nat bodyCap)) 0%nat H).
Defined.

(** C5 as stated fails in the text of the error only: the error of an
    oversized Send does not read "too large, dropped". *)
Lemma send_oversize_error_reads_otherwise :
  bodyCap < GoInt.len (marshalSnapshot (withQuick (hugeSnapshot (Z.to_nat bodyCap))))
  /\ exists text,
       fst (fst (Send (rejectFirst 0) stay clock urlParses marshalSnapshot me []
                   (hugeSnapshot (Z.to_nat bodyCap)) 0%nat))
       = Some (errorsNew text)
       /\ text <> "too large, dropped".
Proof.
  assert (bodyCap
          < GoInt.len (marshalSnapshot (withQuick (hugeSnapshot (Z.to_nat bodyCap)))))
    as H.
  { pose proof (marshal_huge (Z.to_nat bodyCap)). pose proof bodyCap_val. lia. }
  split; [exact H|]. unfold Send, mustJSON.
  destruct (Z.gtb_spec
              (GoInt.len (marshalSnapshot (withQuick (hugeSnapshot (Z.to_nat bodyCap)))))
              bodyCap) as [_|Hle]; [|lia].
  exists "snapshot >32 MiB, dropped". split; [reflexivity|discriminate].
Qed.

Lemma poll_never_forwards_own_snapshot_witness :
  PollReach relay clock urlParses Json.scan me state.zero [emptyFromOther]
  /\ Forall (fun snap => Origin snap <> id me) [emptyFromOther].
Proof.
  split; [exact relay_reaches|].
  exact (poll_never_forwards_own_snapshot relay clock urlParses Json.scan me
           state.zero [emptyFromOther] relay_reaches).
Defined.

(** C7 as stated fails.  Two parts under the keys 0 and 5 with a declared
    total of 2: the keys are not {0, 1}, yet [assemble] returns the
    Snapshot that part 0 encodes.  [Poll] gets there when the relay
    advertises [have = [0, 5]]. *)
Lemma assemble_accepts_keys_outside_the_range :
  dom (state.parts sparseState) <> indexRange (state.total sparseState)
  /\ assemble Json.scan sparseState = Some emptyFromOther
  /\ exists log,
       afterDiscover relaySparse clock urlParses Json.scan me
         (inl (discoverResp.mk "abc" 2 [0; 5])) state.zero 0%nat
       = Some (state.zero, 2%nat, [emptyFromOther], log).
Proof.
  split; [|split].
  - intros Heq. assert (5 ∈ indexRange (state.total sparseState)) as H.
    { rewrite <- Heq. apply elem_of_dom. by eexists. }
    apply elem_of_list_to_set, elem_of_seqZ in H. cbn in H. lia.
  - vm_compute. reflexivity.
  - eexists. vm_compute. reflexivity.
Qed.

Lemma assemble_checks_the_count_witness :
  assemble Json.scan sparseState = Some emptyFromOther
  /\ lenParts sparseState = state.total sparseState
  /\ jsonUnmarshal Json.scan (concatParts sparseState) = Some emptyFromOther.
Proof.
  assert (assemble Json.scan sparseState = Some emptyFromOther) as H
    by (vm_compute; reflexivity).
  split; [exact H|].
  exact (proj2 (proj1 (proj1 (assemble_checks_the_count Json.scan sparseState)
                         emptyFromOther) H)).
Defined.



Lemma fetchChunk_truncates_oversized_part_witness :
  300 * 1024 + 1024 < GoInt.len bigPart
  /\ exists w' log,
       fetchChunk bigRelay clock urlParses me "abc" 0 0%nat
       = Some (inl (take (Z.to_nat (300 * 1024 + 1024)) bigPart), w', log).
Proof.
  assert (300 * 1024 + 1024 < GoInt.len bigPart) as Hbig.
  { unfold bigPart, GoInt.len. rewrite repeat_length. lia. }
  split; [exact Hbig|].
  destruct (proj2 (fetchChunk_truncates_oversized_part bigRelay clock urlParses
                     me 0 (state.mk "abc" 2 ∅) 0%nat)
              "200 OK" bigPart eq_refl eq_refl Hbig (lookup_empty _))
    as (_ & w' & log & Hfetch & _).
  by exists w', log.
Defined.

(** *** QuickKey *)

Lemma writePayloads_concat items : forall fed,
  writePayloads items fed = fed ++ payloadBytes items.
Proof.
  unfold writePayloads, payloadBytes.
  induction items as [|it items IH]; intros fed; cbn.
  - by rewrite app_nil_r.
  - by rewrite IH, <- app_assoc.
Qed.

Lemma blocks_length fuel : forall h bs,
  length h = 8%nat -> length (Sha256.blocks fuel h bs) = 8%nat.
Proof.
  induction fuel as [|fuel IH]; intros h bs Hh; [done|].
  cbn [Sha256.blocks]. destruct bs as [|b bs]; [done|].
  apply IH. unfold Sha256.compress. rewrite length_zip_with, Hh. done.
Qed.

Lemma sum_length msg : length (Sha256.sum msg) = 32%nat.
Proof.
  unfold Sha256.sum.
  pose proof (blocks_length (length (Sha256.pad msg)) Sha256.H0 (Sha256.pad msg)
                eq_refl) as H.
  destruct (Sha256.blocks _ _ _) as [|a [|b [|c [|d [|e [|f [|g [|h [|? ?]]]]]]]]];
    done.
Qed.

Lemma string_of_list_byte_length bs :
  String.length (string_of_list_byte bs) = length bs.
Proof.
  unfold string_of_list_byte.
  induction bs as [|b bs IH]; [done|]. cbn. by f_equal.
Qed.

(** *** An 8-byte key cannot tell all payloads apart *)

#[local] Instance byte_eq_dec : EqDecision byte := Byte.byte_eq_dec.

#[local] Instance of_bits_inj : Inj (=) (=) Byte.of_bits.
Proof.
  intros x y H.
  by rewrite <- (Byte.to_bits_of_bits x), H, Byte.to_bits_of_bits.
Qed.

#[local] Instance of_bits_surj : Surj (=) Byte.of_bits.
Proof. intros b. exists (Byte.to_bits b). apply Byte.of_bits_to_bits. Qed.

#[local] Instance byte_finite : Finite byte := bijective_finite Byte.of_bits.

Lemma byte_card : card byte = 256%nat.
Proof. unfold card. cbn [enum byte_finite bijective_finite]. by rewrite length_fmap. Qed.

Lemma key_bytes_length msg : length (take 8 (Sha256.sum msg)) = 8%nat.
Proof. by rewrite length_take, sum_length. Qed.

Lemma quickKey_itemOf payload :
  QuickKey [itemOf payload]
  = string_of_list_byte (take 8 (Sha256.sum payload)).
Proof.
  unfold QuickKey, writePayloads, itemOf.
  cbn [length Nat.eqb fold_left Payload app].
  by rewrite list_byte_of_string_of_list_byte.
Qed.

Lemma payloadBytes_itemOf payload : payloadBytes [itemOf payload] = payload.
Proof.
  unfold payloadBytes, itemOf. cbn [map concat Payload].
  by rewrite list_byte_of_string_of_list_byte, app_nil_r.
Qed.

(** There are 256^9 payloads of nine bytes and 256^8 keys. *)
Lemma quickKey_collision_exists :
  exists A B : list Item,
    A <> [] /\ B <> [] /\ payloadBytes A <> payloadBytes B
    /\ QuickKey A = QuickKey B.
Proof.
  pose (key := fun x : {l : list byte | length l = 9%nat} =>
                 exist (fun l => length l = 8%nat)
                   (take 8 (Sha256.sum (proj1_sig x)))
                   (key_bytes_length (proj1_sig x))).
  destruct (finite_pigeonhole key) as (x1 & x2 & Hne & Heq).
  { rewrite !list_card, byte_card. apply Nat.pow_lt_mono_r; lia. }
  exists [itemOf (proj1_sig x1)], [itemOf (proj1_sig x2)].
  split; [done|]. split; [done|]. split.
  - rewrite !payloadBytes_itemOf. intros H. apply Hne. by apply (sig_eq_pi _).
  - rewrite !quickKey_itemOf. apply (f_equal proj1_sig) in Heq. cbn in Heq.
    by rewrite Heq.
Qed.

(** C9, as the code has it.  The key of no items is "empty".  The key of a
    non-empty sequence is 8 bytes long (so it is never "empty") and depends
    on the concatenation of the payloads only: two sequences with the same
    concatenated payload bytes share their key, however the bytes are
    divided among items; put the other way round, different keys mean
    different concatenations.  The converse has exceptions: some sequences
    with different concatenations share a key. *)
Theorem quickKey_is_a_digest_of_the_concatenation :
  QuickKey [] = "empty"
  /\ (forall A, A <> [] ->
        String.length (QuickKey A) = 8%nat /\ QuickKey A <> "empty")
  /\ (forall A B, A <> [] -> B <> [] ->
        payloadBytes A = payloadBytes B -> QuickKey A = QuickKey B)
  /\ (forall A B, A <> [] -> B <> [] ->
        QuickKey A <> QuickKey B -> payloadBytes A <> payloadBytes B)
  /\ (exists A B : list Item,
        A <> [] /\ B <> [] /\ payloadBytes A <> payloadBytes B
        /\ QuickKey A = QuickKey B).
Proof.
  assert (forall A, A <> [] ->
            QuickKey A
            = string_of_list_byte (take 8 (Sha256.sum (payloadBytes A)))) as Hkey.
  { intros [|a A] HA; [done|]. unfold QuickKey. cbn [length Nat.eqb].
    by rewrite writePayloads_concat. }
  assert (forall A B, A <> [] -> B <> [] ->
            payloadBytes A = payloadBytes B -> QuickKey A = QuickKey B) as Hsame.
  { intros A B HA HB Heq. by rewrite !Hkey, Heq. }
  split; [reflexivity|]. split; [|split; [exact Hsame|split]].
  - intros A HA.
    assert (String.length (QuickKey A) = 8%nat) as Hlen.
    { rewrite Hkey by done.
      by rewrite string_of_list_byte_length, key_bytes_length. }
    split; [exact Hlen|]. intros Heq. by rewrite Heq in Hlen.
  - intros A B HA HB Hne Heq. apply Hne. by apply Hsame.
  - exact quickKey_collision_exists.
Qed.

(** C9 as stated fails.  The items "aGVs", "bG8h" and the single item
    "aGVsbG8h" differ in payload content and have the same key; and however
    "payload content" is read, two sequences whose concatenated payloads
    differ share a key. *)
Lemma quickKey_is_not_collision_free :
  (helloSplit <> [] /\ helloWhole <> []
   /\ Payload <$> helloSplit <> Payload <$> helloWhole
   /\ QuickKey helloSplit = QuickKey helloWhole)
  /\ ~ (forall A B : list Item, A <> [] -> B <> [] ->
          payloadBytes A <> payloadBytes B -> QuickKey A <> QuickKey B).
Proof.
  split.
  - split; [discriminate|]. split; [discriminate|]. split; [discriminate|].
    vm_compute. reflexivity.
  - intros Hfree.
    destruct quickKey_collision_exists as (A & B & HA & HB & Hne & Heq).
    by apply (Hfree A B).
Qed.

Lemma quickKey_is_a_digest_of_the_concatenation_witness :
  payloadBytes helloSplit = payloadBytes helloWhole
  /\ QuickKey helloSplit = QuickKey helloWhole
  /\ String.length (QuickKey helloWhole) = 8%nat.
Proof.
  assert (helloSplit <> []) as HA by discriminate.
  assert (helloWhole <> []) as HB by discriminate.
  assert (payloadBytes helloSplit = payloadBytes helloWhole) as H by reflexivity.
  split; [exact H|]. split.
  - exact (proj1 (proj2 (proj2 quickKey_is_a_digest_of_the_concatenation))
             helloSplit helloWhole HA HB H).
  - exact (proj1 (proj1 (proj2 quickKey_is_a_digest_of_the_concatenation)
                    helloWhole HB)).
Defined.

(** The tests of the package, run on the model. *)
Example TestQuickKey :
  let items1 := [mkItem 0 "aGVsbG8=" 0 "" ""; mkItem 0 "d29ybGQ=" 0 "" ""] in
  let items3 := [mkItem 0 "aGVsbG8=" 0 "" ""] in
  QuickKey items1 <> QuickKey items3
  /\ String.length (QuickKey items1) = 8%nat
  /\ hex (list_byte_of_string (QuickKey items1)) = "25046cf3d24eb9ec".
Proof.
  split; [vm_compute; discriminate|]. split; vm_compute; reflexivity.
Qed.

Example TestQuickKeyEmpty : QuickKey [] = "empty".
Proof. reflexivity. Qed.

(** [base64] and [buildAuthHeader] on known values. *)
Example base64_hello :
  base64 (lit "hello") = "aGVsbG8=" /\ base64 (lit "hello!") = "aGVsbG8h"
  /\ base64 (lit "hell") = "aGVsbA==".
Proof. repeat split. Qed.

Example TestBuildAuthHeader :
  buildAuthHeader clock (mkClient "" "deadbeef" 0x0123456789abcdef) 0%nat
  = "eyJ0cyI6MTcwMDAwMDAwMCwidHNfZW5jIjo4MTk4NTUzMDg4MjQ0MDQzMX0="
  /\ buildAuthHeader clock (mkClient "" "deadbeef" 0xfedcba9876543210) 0%nat
     = "eyJ0cyI6MTcwMDAwMDAwMCwidHNfZW5jIjotODE5ODU1MzA4ODI0NDA0MzJ9".
Proof. split; vm_compute; reflexivity. Qed.

(** * Further properties of the transport *)

Section SendOutcomes.

Context {World : Type}.
Variable Do : World -> Request -> World * Response.
Variable Sleep : World -> World.
Variable now : World -> Z.
Variable newRequestError : string -> option string.
Variable jsonMarshal : Snapshot -> list byte.
Variable c : httpClient.

Local Abbreviation post_ := (postChunkWithRetry Do Sleep now newRequestError c).
Local Abbreviation upload_ := (uploadLoop Do Sleep now newRequestError c).

(** One call of [postChunkWithRetry] makes at most six requests. *)
Lemma post_length data cid idx total w r w' log :
  post_ data cid idx total maxRetries w = (r, w', log) ->
  (length log <= 6)%nat.
Proof.
  unfold postChunkWithRetry. intros H.
  destruct (newRequestError (url c)) as [text|] eqn:Hurl.
  - eapply retryLoop_bad_url in H as (-> & _); [cbn; lia|done].
  - eapply retryLoop_outcome in H; [|done].
    change (length (seqZ 0 (maxRetries + 1))) with 6%nat in H.
    destruct H as [(_ & _ & _ & _ & _ & _ & Hlen)|(_ & Hlen & _)]; lia.
Qed.

Lemma upload_length cid T : forall chunks idx w r w' log,
  upload_ cid T idx chunks w = (r, w', log) ->
  (length log <= 6 * length chunks)%nat.
Proof.
  induction chunks as [|part rest IH]; intros idx w r w' log H.
  - cbn in H. simplify_eq. cbn. lia.
  - cbn [uploadLoop] in H.
    destruct (post_ part cid idx T maxRetries w) as [[err w1] log1] eqn:E1.
    apply post_length in E1.
    destruct err as [e0|]; [simplify_eq; cbn [length]; lia|].
    destruct (upload_ cid T (idx + 1) rest w1) as [[r2 w2] log2] eqn:E2.
    simplify_eq. apply IH in E2. rewrite length_app. cbn [length]. lia.
Qed.

(** When the loop ends without an error, the accepted POSTs are the parts,
    one each, in the order of their indices. *)
Lemma upload_success cid T : forall chunks idx w w' log,
  upload_ cid T idx chunks w = (None, w', log) ->
  (fun e => (idxOf e, req_body (fst e))) <$> filter (fun e => ok e = true) log
  = numbered idx chunks.
Proof.
  induction chunks as [|part rest IH]; intros idx w w' log H.
  - cbn in H. by simplify_eq.
  - cbn [uploadLoop] in H.
    destruct (post_ part cid idx T maxRetries w) as [[err w1] log1] eqn:E1.
    apply post_shape in E1 as (Hreq & Hone & Hnone & _).
    destruct err as [e0|]; [done|].
    destruct (Hnone eq_refl) as (pre & e & -> & Hok).
    destruct (upload_ cid T (idx + 1) rest w1) as [[r2 w2] log2] eqn:E2.
    simplify_eq. apply IH in E2.
    rewrite filter_app, fmap_app, E2. cbn [numbered].
    rewrite filter_app, filter_cons_True, filter_nil in Hone |- * by done.
    rewrite length_app in Hone. cbn [length] in Hone.
    destruct (filter _ pre) as [|x xs]; [|cbn in Hone; lia].
    rewrite Forall_app, Forall_singleton in Hreq. destruct Hreq as [_ Hreq].
    cbn [app fmap list_fmap]. rewrite (postedFor_idxOf _ _ _ _ _ Hreq).
    destruct Hreq as (_ & _ & _ & _ & <-). done.
Qed.

(** When the loop ends with an error and the URL parses, the log ends with
    six rejected POSTs of one part, after POSTs of earlier parts only, and the
    error is the one made from the last answer. *)
Lemma upload_failure cid T :
  newRequestError (url c) = None ->
  forall chunks idx w err w' log,
  upload_ cid T idx chunks w = (Some err, w', log) ->
  exists pre six k e,
    log = pre ++ six /\ length six = 6%nat
    /\ Forall (fun x => ok x = false /\ idxOf x = k) six
    /\ Forall (fun x => idxOf x < k) pre
    /\ idx <= k < idx + GoInt.len chunks
    /\ last six = Some e /\ Some err = errOfResponse k (snd e).
Proof.
  intros Hurl.
  induction chunks as [|part rest IH]; intros idx w err w' log H.
  - cbn in H. by simplify_eq.
  - cbn [uploadLoop] in H.
    destruct (post_ part cid idx T maxRetries w) as [[err1 w1] log1] eqn:E1.
    pose proof E1 as Hreq. apply post_shape in Hreq as (Hreq & _).
    assert (Forall (fun x => idxOf x = idx) log1) as Hidx.
    { eapply Forall_impl; [exact Hreq|]. intros x. apply postedFor_idxOf. }
    unfold postChunkWithRetry in E1.
    eapply retryLoop_outcome in E1; [|done].
    change (length (seqZ 0 (maxRetries + 1))) with 6%nat in E1.
    destruct err1 as [e1|].
    + simplify_eq.
      destruct E1 as [(? & _)|(Hall & Hlen & Hr)]; [done|].
      destruct (last log) as [e|] eqn:Hlast;
        [|apply last_None in Hlast; by subst].
      exists [], log, idx, e.
      split; [done|]. split; [done|]. split.
      { apply Forall_forall. intros x Hx. rewrite Forall_forall in Hall, Hidx.
        split; [by apply Hall|by apply Hidx]. }
      split; [constructor|]. split; [unfold GoInt.len; cbn [length]; lia|].
      split; [done|]. exact Hr.
    + destruct (upload_ cid T (idx + 1) rest w1) as [[r2 w2] log2] eqn:E2.
      simplify_eq.
      apply IH in E2 as (pre & six & k & e & -> & Hlen & Hsix & Hpre & Hk & Hlast & Herr).
      exists (log1 ++ pre), six, k, e.
      split; [by rewrite app_assoc|]. split; [done|]. split; [done|]. split.
      { apply Forall_app. split; [|done].
        eapply Forall_impl; [exact Hidx|]. cbn. intros x ->. lia. }
      split; [|done]. unfold GoInt.len in *. cbn [length]. lia.
Qed.

Lemma numbered_fst idx chunks :
  fst <$> numbered idx chunks = seqZ idx (GoInt.len chunks).
Proof.
  revert idx. induction chunks as [|part rest IH]; intros idx; [done|].
  cbn [numbered fmap list_fmap fst]. unfold GoInt.len in *. cbn [length].
  rewrite Nat2Z.inj_succ, seqZ_cons by lia. f_equal.
  rewrite IH. f_equal; lia.
Qed.

Lemma numbered_snd idx chunks : snd <$> numbered idx chunks = chunks.
Proof.
  revert idx. induction chunks as [|part rest IH]; intros idx; [done|].
  cbn [numbered fmap list_fmap snd]. f_equal. apply IH.
Qed.

Lemma total_in_range len :
  0 < len <= 32 * 1024 * 1024 ->
  1 <= (len + 300 * 1024 - 1) / (300 * 1024) <= 110.
Proof.
  intros H. split; [apply Z.div_le_lower_bound; lia|].
  apply Z.lt_succ_r, Z.div_lt_upper_bound; lia.
Qed.

Lemma within_cap_fits len : len <= bodyCap -> len + chunkSize <= GoInt.MaxInt.
Proof. pose proof bodyCap_fits. lia. Qed.

(** With a URL that does not parse the loop stops at the first part. *)
Lemma upload_bad_url cid T text chunks idx w r w' log :
  newRequestError (url c) = Some text ->
  upload_ cid T idx chunks w = (r, w', log) ->
  log = [] /\ w' = w /\ (chunks <> [] -> r = Some (errLib text)).
Proof.
  intros Hurl H. destruct chunks as [|part rest]; cbn [uploadLoop] in H.
  - by simplify_eq.
  - unfold postChunkWithRetry in H.
    change (seqZ 0 (maxRetries + 1)) with (0 :: seqZ 1 5) in H.
    cbn [retryLoop] in H. rewrite Hurl in H. by simplify_eq.
Qed.

(** Every POST of [Send] carries between 1 and 300*1024 bytes and, as
    X-Chunk-Total, the length of the JSON divided by 300 KiB and rounded up,
    which the cap of 32 MiB keeps between 1 and 110; so one [Send] makes at
    most six requests per part and 660 in all. *)
Theorem send_posts_bounded_parts (rnd : list byte) (snap : Snapshot)
    (w w' : World) (r : option error) (log : list Exchange) :
  Send Do Sleep now newRequestError jsonMarshal c rnd snap w = (r, w', log) ->
  let body := mustJSON jsonMarshal (withQuick snap) in
  let total := (GoInt.len body + 300 * 1024 - 1) / (300 * 1024) in
  Forall (fun e => 0 < GoInt.len (req_body (fst e)) <= 300 * 1024
                   /\ X_Chunk_Total (fst e) = Some total
                   /\ 1 <= total <= 110) log
  /\ (length log <= 6 * Z.to_nat total)%nat
  /\ (length log <= 660)%nat.
Proof.
  intros E body total. unfold Send in E. fold body in E.
  destruct (Z.gtb_spec (GoInt.len body) bodyCap) as [|Hcap].
  { simplify_eq. repeat split; [constructor|cbn; lia..]. }
  pose proof (within_cap_fits _ Hcap) as Hmax.
  assert (GoInt.len (sliceChunks body) = total) as Hcount.
  { rewrite (sliceChunks_count body Hmax), chunkSize_val. reflexivity. }
  pose proof (sliceChunks_bounds body Hmax) as Hbounds.
  set (chunks := sliceChunks body) in *.
  pose proof E as Hreq. apply upload_requests in Hreq.
  pose proof E as Hlen. apply upload_length in Hlen.
  assert (length log <= 6 * Z.to_nat total)%nat as Hsix.
  { rewrite <- Hcount. unfold GoInt.len. by rewrite Nat2Z.id. }
  assert (log <> [] -> 1 <= total <= 110) as Htot.
  { intros Hne. apply total_in_range. rewrite bodyCap_val in Hcap.
    split; [|lia]. unfold GoInt.len.
    destruct body as [|b body']; [|cbn [length]; lia].
    destruct log; [done|]. cbn in Hlen. unfold chunks in Hlen. cbn in Hlen. lia. }
  split; [|split; [exact Hsix|]].
  - apply Forall_forall. intros e He.
    rewrite Forall_forall in Hreq. destruct (Hreq e He) as (k & part & Hk & Hp).
    destruct Hp as (_ & _ & _ & Ht & Hb).
    rewrite Forall_lookup in Hbounds. pose proof (Hbounds _ _ Hk) as Hpart.
    rewrite chunkSize_val in Hpart. rewrite Hb, Ht, Hcount.
    split; [cbn in Hpart |- *; lia|]. split; [done|]. apply Htot. by destruct log; [apply elem_of_nil in He|].
  - destruct log as [|e log']; [cbn; lia|].
    specialize (Htot ltac:(done)). lia.
Qed.

(** When [Send] returns nil, the relay has accepted every part once, in the
    order 0, 1, ..., and the accepted bodies put end to end are the JSON of
    the snapshot. *)
Theorem send_success_delivers_the_body (rnd : list byte) (snap : Snapshot)
    (w w' : World) (log : list Exchange) :
  Send Do Sleep now newRequestError jsonMarshal c rnd snap w = (None, w', log) ->
  let body := mustJSON jsonMarshal (withQuick snap) in
  let accepted := filter (fun e => ok e = true) log in
  concat ((fun e => req_body (fst e)) <$> accepted) = body
  /\ idxOf <$> accepted = seqZ 0 (GoInt.len (sliceChunks body))
  /\ GoInt.len body <= bodyCap.
Proof.
  intros E body accepted. unfold Send in E. fold body in E.
  destruct (Z.gtb_spec (GoInt.len body) bodyCap) as [|Hcap]; [done|].
  apply upload_success in E. fold accepted in E.
  split; [|split; [|exact Hcap]].
  - apply (f_equal (fmap snd)) in E.
    rewrite <- list_fmap_compose, numbered_snd in E.
    etrans; [|apply (sliceChunks_concat body), within_cap_fits, Hcap].
    by rewrite <- E.
  - apply (f_equal (fmap fst)) in E.
    rewrite <- list_fmap_compose, numbered_fst in E. exact E.
Qed.

(** [Send] fails in three ways only: the JSON is over the cap, or the URL
    does not parse (no request is made in either case), or six POSTs of one
    part in a row were rejected; then these six end the log, everything
    before them belongs to earlier parts, and the error is the one made from
    the last answer. *)
Theorem send_fails_in_three_ways (rnd : list byte) (snap : Snapshot)
    (w w' : World) (err : error) (log : list Exchange) :
  Send Do Sleep now newRequestError jsonMarshal c rnd snap w = (Some err, w', log) ->
  let body := mustJSON jsonMarshal (withQuick snap) in
  (bodyCap < GoInt.len body /\ err = errorsNew "snapshot >32 MiB, dropped"
   /\ log = [] /\ w' = w)
  \/ (exists text, newRequestError (url c) = Some text /\ err = errLib text
        /\ log = [] /\ w' = w)
  \/ (exists pre six k e,
        log = pre ++ six /\ length six = 6%nat
        /\ Forall (fun x => ok x = false /\ idxOf x = k) six
        /\ Forall (fun x => idxOf x < k) pre
        /\ 0 <= k < GoInt.len (sliceChunks body)
        /\ last six = Some e /\ Some err = errOfResponse k (snd e)).
Proof.
  intros E body. unfold Send in E. fold body in E.
  destruct (Z.gtb_spec (GoInt.len body) bodyCap) as [Hbig|Hcap].
  { left. by simplify_eq. }
  right. destruct (newRequestError (url c)) as [text|] eqn:Hurl.
  - left. exists text. split; [done|].
    pose proof (upload_bad_url _ _ _ _ _ _ _ _ _ Hurl E) as (-> & -> & Hr).
    destruct (sliceChunks body) as [|part rest] eqn:Hch.
    + cbn in E. by simplify_eq.
    + specialize (Hr ltac:(done)). by simplify_eq.
  - right. eapply upload_failure in E; [|done].
    destruct E as (pre & six & k & e & ? & ? & ? & ? & ? & ? & ?).
    exists pre, six, k, e. repeat split; try done; lia.
Qed.

End SendOutcomes.

Section PollOutcomes.

Context {World : Type}.
Variable Do : World -> Request -> World * Response.
Variable Sleep : World -> World.
Variable now : World -> Z.
Variable newRequestError : string -> option string.
Variable jsonScan : list byte -> option (Json.value * list byte).
Variable c : httpClient.

Local Abbreviation fetchIfMissing_ := (fetchIfMissing Do now newRequestError c).
Local Abbreviation fetchMissing_ := (fetchMissing Do now newRequestError c).
Local Abbreviation afterDiscover_ :=
  (afterDiscover Do now newRequestError jsonScan c).

(** The loop of [Poll] is the loop over its own [discover]. *)
Lemma pollLoop_over n : forall current w,
  pollLoop Do Sleep now newRequestError jsonScan c n current w
  = pollLoopOver Do Sleep now newRequestError jsonScan
      (discover Do now newRequestError jsonScan c) c n current w.
Proof.
  induction n as [|n IH]; intros current w; [done|].
  cbn [pollLoop pollLoopOver]. unfold pollIteration, pollIterationOver.
  destruct (discover _ _ _ _ _ w) as [[[r w1] log1]|]; [|done].
  destruct (afterDiscover_ r current w1) as [[[[cur2 w2] out2] log2]|]; [|done].
  by rewrite IH.
Qed.

(** One pass over an advertised index: the part is kept if held, stored if
    the relay answers 200, and left missing otherwise. *)
Lemma fetchIfMissing_cases idx current w cur' w' log :
  fetchIfMissing_ idx current w = Some (cur', w', log) ->
  state.cid cur' = state.cid current /\ state.total cur' = state.total current
  /\ ((state.parts cur' = state.parts current /\ (length log <= 1)%nat
       /\ Forall (fun e => state.parts current !! idx = None
                           /\ fst e = getRequest now c w (Some (state.cid current, idx))
                           /\ forall st body, snd e <> HTTP 200 st body) log)
      \/ (state.parts current !! idx = None
          /\ exists e st body,
               log = [e]
               /\ fst e = getRequest now c w (Some (state.cid current, idx))
               /\ snd e = HTTP 200 st body
               /\ state.parts cur' = <[idx := readLimited body]> (state.parts current))).
Proof.
  unfold fetchIfMissing, fetchChunk. intros H.
  destruct (state.parts current !! idx) as [v|] eqn:Hheld.
  { simplify_eq. repeat split. left. repeat split; [cbn; lia|constructor]. }
  destruct (newRequestError (url c)); [done|].
  destruct (Do w _) as [w1 resp] eqn:EDo.
  destruct resp as [text|code st body].
  - simplify_eq. repeat split. left. repeat split; [cbn; lia|].
    repeat constructor; done.
  - destruct (Z.eqb_spec code 200) as [->|Hcode]; cbn [negb] in H; simplify_eq.
    + repeat split. right. split; [done|]. by eexists _, st, body.
    + repeat split. left. repeat split; [cbn; lia|].
      repeat constructor. cbn. congruence.
Qed.

(** The fetch loop keeps every part it holds, asks only for advertised indices
    it does not hold, under the session id, at most once per entry of
    [have], and every part it adds is the body of a 200 answer to the GET for
    that index, cut at 300*1024 + 1024 bytes. *)
Theorem fetch_loop_only_adds_fetched_parts (have : list Z) (current cur' : state.t)
    (w w' : World) (log : list Exchange) :
  fetchMissing Do now newRequestError c have current w = Some (cur', w', log) ->
  state.cid cur' = state.cid current /\ state.total cur' = state.total current
  /\ (length log <= length have)%nat
  /\ Forall (fun e => req_method (fst e) = GET
                      /\ X_Chunk_Id (fst e) = Some (state.cid current)
                      /\ idxOf e ∈ have
                      /\ state.parts current !! idxOf e = None) log
  /\ (forall k v, state.parts current !! k = Some v ->
                  state.parts cur' !! k = Some v)
  /\ (forall k v, state.parts cur' !! k = Some v ->
                  state.parts current !! k = None ->
        exists e st body,
          e ∈ log /\ X_Chunk_Idx (fst e) = Some k /\ snd e = HTTP 200 st body
          /\ v = readLimited body /\ GoInt.len v <= 300 * 1024 + 1024).
Proof.
  revert current w cur' w' log.
  induction have as [|idx rest IH]; intros current w cur' w' log H.
  - cbn in H. simplify_eq.
    split; [done|]. split; [done|]. split; [done|]. split; [constructor|].
    split; [done|]. intros k v Hv Hn. congruence.
  - cbn [fetchMissing] in H.
    destruct (fetchIfMissing_ idx current w) as [[[cur1 w1] log1]|] eqn:E1; [|done].
    destruct (fetchMissing_ rest cur1 w1) as [[[cur2 w2] log2]|] eqn:E2; [|done].
    simplify_eq.
    apply fetchIfMissing_cases in E1 as (Hcid1 & Htot1 & Hcase).
    apply IH in E2 as (Hcid2 & Htot2 & Hlen2 & Hreq2 & Hkeep2 & Hnew2).
    assert (Forall (fun e => req_method (fst e) = GET
                      /\ X_Chunk_Id (fst e) = Some (state.cid current)
                      /\ idxOf e = idx
                      /\ state.parts current !! idx = None) log1
            /\ (length log1 <= 1)%nat
            /\ (forall k v, state.parts current !! k = Some v ->
                            state.parts cur1 !! k = Some v)
            /\ (forall k v, state.parts cur1 !! k = Some v ->
                            state.parts current !! k = None ->
                  exists e st body,
                    e ∈ log1 /\ X_Chunk_Idx (fst e) = Some k
                    /\ snd e = HTTP 200 st body /\ v = readLimited body)
            /\ (forall k, state.parts cur1 !! k = None ->
                          state.parts current !! k = None))
      as (Hreq1 & Hlen1 & Hkeep1 & Hnew1 & Hnone1).
    { destruct Hcase as [(Hparts & Hlen1 & Hlog1)
                        |(Hmiss & e & st & body & -> & Hfst & Hsnd & Hparts)].
      - rewrite Hparts. split; [|split; [done|split; [done|split; [|done]]]].
        + eapply Forall_impl; [exact Hlog1|]. intros e (Hm & Hf & _).
          unfold idxOf. rewrite Hf. done.
        + intros k v Hv Hn. congruence.
      - rewrite Hparts. split; [|split; [cbn; lia|split; [|split]]].
        + apply Forall_singleton. unfold idxOf. rewrite Hfst. done.
        + intros k v Hv. rewrite lookup_insert_ne; [done|]. congruence.
        + intros k v Hv Hn. destruct (decide (k = idx)) as [->|Hne].
          * rewrite lookup_insert_eq in Hv. simplify_eq.
            exists e, st, body.
            split; [apply list_elem_of_here|]. split; [by rewrite Hfst|done].
          * rewrite lookup_insert_ne in Hv by done. congruence.
        + intros k Hk. destruct (decide (k = idx)) as [->|Hne].
          * by rewrite lookup_insert_eq in Hk.
          * by rewrite lookup_insert_ne in Hk. }
    split; [congruence|]. split; [congruence|]. split.
    { rewrite length_app. cbn [length]. lia. }
    split; [|split].
    + apply Forall_app. split.
      * eapply Forall_impl; [exact Hreq1|]. intros e (? & ? & -> & ?).
        split; [done|]. split; [done|]. split; [apply list_elem_of_here|done].
      * eapply Forall_impl; [exact Hreq2|]. intros e (? & ? & ? & Hn).
        split; [done|]. split; [congruence|].
        split; [by apply list_elem_of_further|by apply Hnone1].
    + intros k v Hv. by apply Hkeep2, Hkeep1.
    + intros k v Hv Hn. destruct (state.parts cur1 !! k) as [v1|] eqn:Hk1.
      * pose proof (Hkeep2 _ _ Hk1) as Hv'. rewrite Hv in Hv'. simplify_eq.
        destruct (Hnew1 _ _ Hk1 Hn) as (e & st & body & He & Hi & Hs & ->).
        exists e, st, body. split; [apply elem_of_app; by left|].
        split; [done|]. split; [done|]. split; [done|apply readLimited_length].
      * destruct (Hnew2 _ _ Hv Hk1) as (e & st & body & He & Hi & Hs & -> & Hl).
        exists e, st, body. split; [apply elem_of_app; by right|done].
Qed.

End PollOutcomes.

Section PollRoundTrip.

Context {World : Type}.
Variable Do : World -> Request -> World * Response.
Variable Sleep : World -> World.
Variable now : World -> Z.
Variable newRequestError : string -> option string.
Variable jsonScan : list byte -> option (Json.value * list byte).
Variable c : httpClient.

Local Abbreviation fetchIfMissing_ := (fetchIfMissing Do now newRequestError c).
Local Abbreviation fetchMissing_ := (fetchMissing Do now newRequestError c).
Local Abbreviation afterDiscover_ :=
  (afterDiscover Do now newRequestError jsonScan c).

Lemma readLimited_short part :
  GoInt.len part <= chunkSize -> readLimited part = part.
Proof.
  intros H. unfold readLimited. apply take_ge. unfold GoInt.len in H. lia.
Qed.

Lemma partsOfChunks_lookup_Z chunks k :
  partsOfChunks chunks !! k
  = if (0 <=? k) then chunks !! Z.to_nat k else None.
Proof.
  unfold partsOfChunks. destruct (Z.leb_spec 0 k) as [Hk|Hk].
  - rewrite lookup_map_seqZ_0 by lia. done.
  - destruct (map_seqZ 0 chunks !! k) as [v|] eqn:E; [|done].
    apply lookup_map_seqZ_Some in E. lia.
Qed.

Lemma fetchMissing_serving cid chunks :
  newRequestError (url c) = None ->
  serves Do now c cid chunks ->
  Forall (fun part => GoInt.len part <= chunkSize) chunks ->
  forall have current w,
  state.cid current = cid ->
  state.parts current ⊆ partsOfChunks chunks ->
  (forall i, i ∈ have -> 0 <= i < GoInt.len chunks) ->
  exists cur' w' log,
    fetchMissing_ have current w = Some (cur', w', log)
    /\ state.cid cur' = cid /\ state.total cur' = state.total current
    /\ state.parts current ⊆ state.parts cur'
    /\ state.parts cur' ⊆ partsOfChunks chunks
    /\ (forall i, i ∈ have -> is_Some (state.parts cur' !! i))
    /\ (size (state.parts cur') = size (state.parts current) + length log)%nat
    /\ NoDup (idxOf <$> log)
    /\ Forall (fun e => state.parts current !! idxOf e = None
                        /\ 0 <= idxOf e < GoInt.len chunks) log.
Proof.
  intros Hurl Hserves Hshort.
  induction have as [|idx rest IH]; intros current w Hcid Hsub Hin.
  - exists current, w, []. split; [done|]. split; [done|]. split; [done|].
    split; [done|]. split; [done|]. split.
    { intros i Hi. by apply elem_of_nil in Hi. }
    split; [cbn; lia|]. split; constructor.
  - assert (0 <= idx < GoInt.len chunks) as Hidx by apply Hin, list_elem_of_here.
    assert (forall i, i ∈ rest -> 0 <= i < GoInt.len chunks) as Hin'.
    { intros i Hi. by apply Hin, list_elem_of_further. }
    cbn [fetchMissing]. unfold fetchIfMissing.
    destruct (state.parts current !! idx) as [v|] eqn:Hheld.
    + destruct (IH current w Hcid Hsub Hin')
        as (cur' & w' & log & -> & ? & ? & ? & ? & Hall & ? & ? & ?).
      exists cur', w', log. split; [done|]. split; [done|]. split; [done|].
      split; [done|]. split; [done|]. split; [|done].
      intros i [->|Hi]%elem_of_cons; [|by apply Hall].
      exists v. by eapply lookup_weaken.
    + destruct (chunks !! Z.to_nat idx) as [part|] eqn:Hpart.
      2:{ apply lookup_ge_None in Hpart. unfold GoInt.len in Hidx. lia. }
      destruct (Hserves w _ _ Hpart) as (w1 & st & HDo).
      rewrite Z2Nat.id in HDo by lia.
      unfold fetchChunk. rewrite Hurl, Hcid, HDo. cbn [Z.eqb Pos.eqb negb].
      rewrite Forall_lookup in Hshort.
      rewrite (readLimited_short part) by by eapply Hshort.
      set (cur1 := state.mk cid (state.total current)
                     (<[idx := part]> (state.parts current))).
      assert (state.parts cur1 ⊆ partsOfChunks chunks) as Hsub1.
      { cbn [cur1 state.parts]. apply insert_subseteq_l; [|done].
        rewrite partsOfChunks_lookup_Z.
        by destruct (Z.leb_spec 0 idx); [|lia]. }
      destruct (IH cur1 w1 eq_refl Hsub1 Hin')
        as (cur' & w' & log & -> & ? & ? & Hsub' & ? & Hall & Hsize & Hnd & Hnew).
      eexists cur', w', _. split; [reflexivity|]. split; [done|]. split; [done|].
      assert (state.parts current ⊆ state.parts cur1) as Hsub01.
      { cbn [cur1 state.parts]. by apply insert_subseteq. }
      split; [by etrans|]. split; [done|]. split; [|split; [|split]].
      * intros i [->|Hi]%elem_of_cons; [|by apply Hall].
        exists part. eapply lookup_weaken; [|exact Hsub'].
        cbn [cur1 state.parts]. by rewrite lookup_insert_eq.
      * rewrite Hsize. cbn [cur1 state.parts length app].
        rewrite map_size_insert_None by done. lia.
      * cbn [app fmap list_fmap]. change (idxOf _) with idx at 1.
        apply NoDup_cons. split; [|done].
        intros (e & He & Hel)%list_elem_of_fmap.
        rewrite Forall_forall in Hnew. destruct (Hnew e Hel) as [Hn _].
        rewrite <- He in Hn. cbn [cur1 state.parts] in Hn.
        by rewrite lookup_insert_eq in Hn.
      * cbn [app]. constructor.
        { change (idxOf _) with idx. done. }
        eapply Forall_impl; [exact Hnew|]. intros e [Hn ?]. split; [|done].
        cbn [cur1 state.parts] in Hn.
        destruct (decide (idxOf e = idx)) as [Heq|Hne].
        -- rewrite Heq, lookup_insert_eq in Hn. done.
        -- by rewrite lookup_insert_ne in Hn.
Qed.

(** One iteration over a relay that holds every part [Send] cut from [P]. *)
Lemma afterDiscover_serving P cid have current w :
  GoInt.len P + chunkSize <= GoInt.MaxInt ->
  P <> [] ->
  newRequestError (url c) = None ->
  cid <> "" ->
  state.cid current <> cid ->
  serves Do now c cid (sliceChunks P) ->
  (forall i, i ∈ have <-> 0 <= i < GoInt.len (sliceChunks P)) ->
  exists w' log,
    afterDiscover_ (inl (discoverResp.mk cid (GoInt.len (sliceChunks P)) have))
      current w
    = Some (state.zero, w', delivered jsonScan c P, log)
    /\ idxOf <$> log ≡ₚ seqZ 0 (GoInt.len (sliceChunks P)).
Proof.
  intros Hmax Hne Hurl Hcid Hother Hserves Hhave.
  set (chunks := sliceChunks P) in *.
  assert (Forall (fun part => GoInt.len part <= chunkSize) chunks) as Hshort.
  { eapply Forall_impl; [apply (sliceChunks_bounds P Hmax)|]. cbn. lia. }
  unfold afterDiscover, trackSession. cbn [discoverResp.cid discoverResp.total discoverResp.have].
  destruct (String.eqb_spec cid "") as [|_]; [done|].
  destruct (String.eqb_spec cid (state.cid current)) as [|_]; [congruence|].
  cbn [negb andb state.cid].
  destruct (String.eqb_spec cid "") as [|_]; [done|]. cbn [negb].
  destruct (fetchMissing_serving cid chunks Hurl Hserves Hshort have
              (state.mk cid (GoInt.len chunks) ∅) w eq_refl)
    as (cur' & w' & log & -> & Hc & Ht & _ & Hsub & Hall & Hsize & Hnd & Hnew).
  { apply map_empty_subseteq. }
  { intros i Hi. by apply Hhave. }
  cbn [state.parts state.total] in *.
  assert (state.parts cur' = partsOfChunks chunks) as Hparts.
  { apply map_eq. intros k.
    destruct (partsOfChunks chunks !! k) as [v|] eqn:Hk.
    - assert (k ∈ have) as Hin.
      { apply Hhave. rewrite partsOfChunks_lookup_Z in Hk.
        destruct (Z.leb_spec 0 k); [|done].
        apply lookup_lt_Some in Hk. unfold GoInt.len. lia. }
      destruct (Hall k Hin) as [v' Hv'].
      pose proof (lookup_weaken _ _ _ _ Hv' Hsub). congruence.
    - destruct (state.parts cur' !! k) as [v'|] eqn:Hv'; [|done].
      pose proof (lookup_weaken _ _ _ _ Hv' Hsub). congruence. }
  assert (cur' = state.mk cid (GoInt.len chunks) (partsOfChunks chunks)) as ->.
  { destruct cur'. cbn in *. congruence. }
  assert (chunks <> []) as Hch by by apply sliceChunks_nonempty.
  assert (0 < GoInt.len chunks) as Hpos.
  { unfold GoInt.len. destruct chunks; [done|cbn [length]; lia]. }
  assert (lenParts (state.mk cid (GoInt.len chunks) (partsOfChunks chunks))
          = GoInt.len chunks) as Hlen.
  { unfold lenParts, partsOfChunks. cbn [state.parts]. by rewrite size_map_seqZ. }
  exists w', log. split.
  - cbn [state.total]. rewrite Hlen, Z.eqb_refl.
    destruct (Z.gtb_spec (GoInt.len chunks) 0); [|lia]. cbn [andb].
    unfold assemble. cbn [state.total]. rewrite Hlen, Z.eqb_refl.
    destruct (Z.eqb_spec (GoInt.len chunks) 0); [lia|]. cbn [orb negb].
    rewrite concatParts_chunks. unfold chunks. rewrite sliceChunks_concat by done.
    unfold delivered. by destruct (jsonUnmarshal jsonScan P).
  - rewrite map_size_empty in Hsize. cbn in Hsize.
    unfold partsOfChunks in Hsize. rewrite size_map_seqZ in Hsize.
    apply submseteq_length_Permutation.
    + apply NoDup_submseteq; [exact Hnd|].
      intros i (e & -> & He)%list_elem_of_fmap. apply elem_of_seqZ.
      rewrite Forall_forall in Hnew. destruct (Hnew e He) as [_ Hr]. lia.
    + rewrite length_fmap, length_seqZ. unfold GoInt.len. lia.
Qed.


Lemma fetchMissing_requests have : forall current w cur' w' log,
  fetchMissing_ have current w = Some (cur', w', log) ->
  Forall (fun e => req_method (fst e) = GET
                   /\ X_Chunk_Id (fst e) = Some (state.cid current)
                   /\ X_Device_Id (fst e) = id c
                   /\ req_body (fst e) = []) log.
Proof.
  induction have as [|idx rest IH]; intros current w cur' w' log H.
  - cbn in H. simplify_eq. constructor.
  - cbn [fetchMissing] in H.
    destruct (fetchIfMissing_ idx current w) as [[[cur1 w1] log1]|] eqn:E1; [|done].
    destruct (fetchMissing_ rest cur1 w1) as [[[cur2 w2] log2]|] eqn:E2; [|done].
    simplify_eq. apply IH in E2. apply Forall_app. split.
    + unfold fetchIfMissing, fetchChunk in E1.
      destruct (state.parts current !! idx); [simplify_eq; constructor|].
      destruct (newRequestError (url c)); [done|].
      destruct (Do w _) as [w3 resp]. destruct resp as [text|code st body].
      * simplify_eq. by repeat constructor.
      * destruct (negb (code =? 200)); simplify_eq; by repeat constructor.
    + assert (state.cid cur1 = state.cid current) as <-; [|done].
      unfold fetchIfMissing in E1.
      destruct (state.parts current !! idx); [by simplify_eq|].
      destruct (fetchChunk _ _ _ _ _ _ _) as [[[[data|err] w3] log3]|];
        by simplify_eq.
Qed.



End PollRoundTrip.

Section PollAsWritten.

Context {World : Type}.
Variable Do : World -> Request -> World * Response.
Variable Sleep : World -> World.
Variable now : World -> Z.
Variable newRequestError : string -> option string.
Variable jsonMarshal : Snapshot -> list byte.
Variable jsonScan : list byte -> option (Json.value * list byte).
Variable c : httpClient.

(** Whatever the relay answers and however long it runs, [Poll] as written
    writes nothing to [out] and never asks for a part: every request it makes
    is the GET of [discover], without chunk headers; with a URL that parses
    it makes one per iteration and ends each iteration with no session. *)
Theorem poll_delivers_nothing (n : nat) (w w' : World) (st : option state.t)
    (out : list Snapshot) (log : list Exchange) :
  Poll Do Sleep now newRequestError jsonScan c n w = (st, w', out, log) ->
  out = []
  /\ Forall (fun e => req_method (fst e) = GET /\ X_Chunk_Id (fst e) = None
                      /\ X_Chunk_Idx (fst e) = None) log
  /\ (newRequestError (url c) = None ->
      st = Some state.zero /\ length log = n).
Proof.
  unfold Poll. revert w w' st out log.
  induction n as [|n IH]; intros w w' st out log H.
  - cbn in H. simplify_eq. split; [done|]. split; [constructor|done].
  - cbn [pollLoop] in H. unfold pollIteration in H.
    destruct (discover Do now newRequestError jsonScan c w)
      as [[[r w1] log1]|] eqn:Hd.
    2:{ split; [by simplify_eq|]. split; [simplify_eq; constructor|].
        intros Hurl. unfold discover in Hd. rewrite Hurl in Hd.
        by destruct (Do w _). }
    assert (r = inl discoverResp.zero \/ exists e, r = inr e) as Hr.
    { by apply discover_zero in Hd as [Hr _]. }
    assert (exists resp, log1 = [(getRequest now c w None, resp)]) as [resp ->].
    { unfold discover in Hd. destruct (newRequestError (url c)); [done|].
      destruct (Do w _) as [w2 resp]. exists resp. by simplify_eq. }
    assert (afterDiscover Do now newRequestError jsonScan c r state.zero w1
            = Some (state.zero, w1, [], [])) as Hidle.
    { by destruct Hr as [->|[e ->]]. }
    rewrite Hidle in H.
    destruct (pollLoop Do Sleep now newRequestError jsonScan c n state.zero
                (Sleep w1)) as [[[st3 w3] out3] log3] eqn:E3.
    simplify_eq. apply IH in E3 as (-> & Hlog3 & Hst).
    split; [done|]. split.
    + rewrite app_nil_r. by constructor.
    + intros Hurl. destruct (Hst Hurl) as [-> <-]. by rewrite app_nil_r.
Qed.

(** A URL that [http.NewRequest] rejects: [Send] returns the error without a
    request, as [postChunkWithRetry] checks it, while [discover] and
    [fetchChunk] drop it and use the nil request, so the first iteration of
    [Poll] panics. *)
Theorem unparsable_url_fails_send_and_panics_poll (text : string)
    (rnd : list byte) (snap : Snapshot) (n : nat) (w : World) :
  newRequestError (url c) = Some text ->
  discover Do now newRequestError jsonScan c w = None
  /\ (forall cid idx, fetchChunk Do now newRequestError c cid idx w = None)
  /\ Poll Do Sleep now newRequestError jsonScan c (S n) w = (None, w, [], [])
  /\ (mustJSON jsonMarshal (withQuick snap) <> [] ->
      GoInt.len (mustJSON jsonMarshal (withQuick snap)) <= bodyCap ->
      Send Do Sleep now newRequestError jsonMarshal c rnd snap w
      = (Some (errLib text), w, [])).
Proof.
  intros Hurl.
  assert (discover Do now newRequestError jsonScan c w = None) as Hd.
  { unfold discover. by rewrite Hurl. }
  split; [exact Hd|]. split; [|split].
  - intros cid idx. unfold fetchChunk. by rewrite Hurl.
  - unfold Poll. cbn [pollLoop]. unfold pollIteration. by rewrite Hd.
  - intros Hne Hcap. unfold Send.
    destruct (Z.gtb_spec (GoInt.len (mustJSON jsonMarshal (withQuick snap))) bodyCap)
      as [|_]; [lia|].
    pose proof (sliceChunks_nonempty _ (within_cap_fits _ Hcap) Hne) as Hch.
    destruct (uploadLoop _ _ _ _ _ _ _ _ _ _) as [[r w'] log] eqn:E.
    destruct (upload_bad_url _ _ _ _ _ _ _ _ _ _ _ _ _ _ Hurl E) as (-> & -> & Hr).
    by rewrite (Hr Hch).
Qed.

End PollAsWritten.

(** ** The further properties at work *)

Lemma send_posts_bounded_parts_witness :
  exists r w' log,
    Send (rejectFirst 2) stay clock urlParses marshalSnapshot me [] helloSnapshot 0%nat
    = (r, w', log)
    /\ Forall (fun e => 0 < GoInt.len (req_body (fst e)) <= 300 * 1024) log
    /\ (length log <= 660)%nat.
Proof.
  eexists _, _, _. split; [vm_compute; reflexivity|].
  refine (let H := send_posts_bounded_parts (rejectFirst 2) stay clock urlParses
                     marshalSnapshot me [] helloSnapshot 0%nat _ _ _ _ in _).
  destruct H as (Hall & _ & H660). split; [|exact H660].
  eapply Forall_impl; [exact Hall|]. by intros e (? & _).
  Unshelve. all: try (vm_compute; reflexivity).
Defined.

Lemma send_success_delivers_the_body_witness :
  exists w' log,
    Send (rejectFirst 2) stay clock urlParses marshalSnapshot me [] helloSnapshot 0%nat
    = (None, w', log)
    /\ concat ((fun e => req_body (fst e)) <$> filter (fun e => ok e = true) log)
       = marshalSnapshot (withQuick helloSnapshot).
Proof.
  eexists _, _.
  refine (let E := _ : Send (rejectFirst 2) stay clock urlParses marshalSnapshot me []
                         helloSnapshot 0%nat = (None, _, _) in _).
  split; [exact E|].
  exact (proj1 (send_success_delivers_the_body (rejectFirst 2) stay clock urlParses
                  marshalSnapshot me [] helloSnapshot 0%nat _ _ E)).
  Unshelve. all: try (vm_compute; reflexivity).
Defined.

Lemma send_fails_in_three_ways_witness :
  exists err w' log,
    Send (rejectFirst 100) stay clock urlParses marshalSnapshot me [] helloSnapshot 0%nat
    = (Some err, w', log)
    /\ exists pre six k e,
         log = pre ++ six /\ length six = 6%nat
         /\ last six = Some e /\ Some err = errOfResponse k (snd e).
Proof.
  eexists _, _, _.
  refine (let E := _ : Send (rejectFirst 100) stay clock urlParses marshalSnapshot me []
                         helloSnapshot 0%nat = (Some _, _, _) in _).
  split; [exact E|].
  destruct (send_fails_in_three_ways (rejectFirst 100) stay clock urlParses
              marshalSnapshot me [] helloSnapshot 0%nat _ _ _ E)
    as [(Hbig & _)|[(text & Hurl & _)|(pre & six & k & e & H1 & H2 & _ & _ & _ & H3 & H4)]].
  - exfalso. revert Hbig. vm_compute. discriminate.
  - discriminate Hurl.
  - exists pre, six, k, e. exact (conj H1 (conj H2 (conj H3 H4))).
  Unshelve. all: try (vm_compute; reflexivity).
Defined.

Lemma fetch_loop_only_adds_fetched_parts_witness :
  exists cur' w' log,
    fetchMissing relay clock urlParses me [0; 1; 0] (state.mk "abc" 2 ∅) 0%nat
    = Some (cur', w', log)
    /\ (length log <= 3)%nat
    /\ Forall (fun e => X_Chunk_Id (fst e) = Some "abc") log.
Proof.
  eexists _, _, _. split; [vm_compute; reflexivity|].
  refine (let H := fetch_loop_only_adds_fetched_parts relay clock urlParses me
                     [0; 1; 0] (state.mk "abc" 2 ∅) _ 0%nat _ _ _ in _).
  destruct H as (_ & _ & Hlen & Hall & _). split; [exact Hlen|].
  eapply Forall_impl; [exact Hall|]. by intros e (_ & ? & _).
  Unshelve. all: try (vm_compute; reflexivity).
Defined.

(** [servingRelay] does hold the parts it was given. *)
Lemma servingRelay_serves cid chunks :
  serves (servingRelay chunks) clock me cid chunks.
Proof.
  intros w k part Hk. exists (S w), "200 OK". unfold servingRelay.
  cbn [getRequest X_Chunk_Idx fmap option_fmap option_map snd].
  destruct (Z.leb_spec 0 (Z.of_nat k)); [|lia]. by rewrite Nat2Z.id, Hk.
Qed.

Lemma otherBody_whole : sliceChunks otherBody = [otherBody].
Proof. vm_compute. reflexivity. Qed.

Lemma otherBody_fits : GoInt.len otherBody + chunkSize <= GoInt.MaxInt.
Proof. vm_compute. discriminate. Qed.

Lemma otherBody_have i :
  i ∈ [0] <-> 0 <= i < GoInt.len (sliceChunks otherBody).
Proof.
  rewrite otherBody_whole, list_elem_of_singleton. unfold GoInt.len. cbn. lia.
Qed.



Lemma poll_delivers_nothing_witness :
  exists st w' out log,
    Poll relay stay clock urlParses Json.scan me 3 0%nat = (st, w', out, log)
    /\ out = [] /\ length log = 3%nat.
Proof.
  eexists _, _, _, _. split; [vm_compute; reflexivity|].
  refine (let H := poll_delivers_nothing relay stay clock urlParses Json.scan me
                     3 0%nat _ _ _ _ _ in _).
  destruct H as (Hout & _ & Hst). split; [exact Hout|].
  exact (proj2 (Hst eq_refl)).
  Unshelve. all: try (vm_compute; reflexivity).
Defined.

Lemma unparsable_url_fails_send_and_panics_poll_witness :
  Poll relay stay clock urlRejected Json.scan me 1 0%nat = (None, 0%nat, [], [])
  /\ Send relay stay clock urlRejected marshalSnapshot me [] helloSnapshot 0%nat
     = (Some (errLib "missing protocol scheme"), 0%nat, []).
Proof.
  destruct (unparsable_url_fails_send_and_panics_poll relay stay clock urlRejected
              marshalSnapshot Json.scan me "missing protocol scheme" []
              helloSnapshot 0 0%nat eq_refl) as (_ & _ & Hpoll & Hsend).
  split; [exact Hpoll|]. apply Hsend; [discriminate|].
  vm_compute. discriminate.
Defined.

(** * The key of the client *)

Section KeyFacts.

Lemma byte_val_range b : 0 <= Sha256.byte_val b < 256.
Proof.
  unfold Sha256.byte_val. pose proof (Byte.to_N_bounded b). lia.
Qed.

Lemma byte_of_Z_val b : Sha256.byte_of_Z (Sha256.byte_val b) = b.
Proof. by destruct b. Qed.

Lemma byte_val_of_Z z : 0 <= z < 256 -> Sha256.byte_val (Sha256.byte_of_Z z) = z.
Proof.
  intros Hz. unfold Sha256.byte_of_Z, Sha256.byte_val.
  change 0xff with (Z.ones 8). rewrite Z.land_ones by lia.
  rewrite Z.mod_small by (change (2 ^ 8) with 256; lia).
  destruct (Byte.of_N (Z.to_N z)) as [b|] eqn:E.
  - apply Byte.to_of_N in E. lia.
  - apply Byte.of_N_None_iff in E. lia.
Qed.

(** Bits that do not overlap add up. *)
Lemma lor_shiftl_add x y k :
  0 <= k -> 0 <= x < 2 ^ k -> 0 <= y ->
  Z.lor x (Z.shiftl y k) = x + y * 2 ^ k.
Proof.
  intros Hk Hx Hy.
  rewrite <- (Z.shiftl_mul_pow2 y k) by done.
  rewrite <- Z.add_lor_land.
  assert (Z.land x (Z.shiftl y k) = 0) as ->; [|lia].
  apply Z.bits_inj'. intros n Hn. rewrite Z.land_spec, Z.bits_0.
  destruct (Z.lt_ge_cases n k) as [Hlt|Hge].
  - by rewrite (Z.shiftl_spec_low y k n), andb_false_r.
  - destruct (Z.eq_dec x 0) as [->|Hx0]; [by rewrite Z.bits_0|].
    rewrite (Z.bits_above_log2 x n); [done|lia|].
    apply Z.lt_le_trans with k; [|done].
    apply Z.log2_lt_pow2; lia.
Qed.

Lemma beValue_snoc bs b :
  beValue (bs ++ [b]) = beValue bs * 256 + Sha256.byte_val b.
Proof. unfold beValue. by rewrite fold_left_app. Qed.

Lemma beValue_range bs : 0 <= beValue bs < 256 ^ Z.of_nat (length bs).
Proof.
  induction bs as [|b bs IH] using rev_ind; [cbn; lia|].
  rewrite beValue_snoc, length_app. cbn [length].
  rewrite Nat2Z.inj_add, Z.pow_add_r by lia. change (256 ^ Z.of_nat 1) with 256.
  pose proof (byte_val_range b). nia.
Qed.

(** Sequences of one length that spell the same number are the same. *)
Lemma beValue_inj bs1 : forall bs2,
  length bs1 = length bs2 -> beValue bs1 = beValue bs2 -> bs1 = bs2.
Proof.
  induction bs1 as [|b1 bs1 IH] using rev_ind; intros bs2 Hlen Hv.
  - by destruct bs2.
  - destruct bs2 as [|b2 bs2 _] using rev_ind.
    { rewrite length_app in Hlen. cbn in Hlen. lia. }
    rewrite !length_app in Hlen. cbn [length] in Hlen.
    rewrite !beValue_snoc in Hv.
    pose proof (byte_val_range b1). pose proof (byte_val_range b2).
    assert (beValue bs1 = beValue bs2 /\ Sha256.byte_val b1 = Sha256.byte_val b2)
      as [Hv1 Hb] by lia.
    f_equal; [apply IH; [lia|done]|].
    f_equal. by rewrite <- (byte_of_Z_val b1), Hb, byte_of_Z_val.
Qed.

Lemma lor_add_disjoint x z k :
  0 <= k -> 0 <= x < 2 ^ k -> 0 <= z -> z mod 2 ^ k = 0 ->
  Z.lor x z = x + z.
Proof.
  intros Hk Hx Hz Hmod.
  assert (z = z / 2 ^ k * 2 ^ k) as Hq.
  { rewrite (Z.div_mod z (2 ^ k)) at 1 by lia. lia. }
  rewrite Hq at 1. rewrite <- Z.shiftl_mul_pow2 by done.
  rewrite lor_shiftl_add; [lia|done|done|].
  apply Z.div_pos; lia.
Qed.

Lemma Uint64_beValue b0 b1 b2 b3 b4 b5 b6 b7 :
  Uint64 [b0; b1; b2; b3; b4; b5; b6; b7]
  = Some (beValue [b0; b1; b2; b3; b4; b5; b6; b7]).
Proof.
  unfold Uint64, beValue. cbn [fold_left]. f_equal.
  pose proof (byte_val_range b0). pose proof (byte_val_range b1).
  pose proof (byte_val_range b2). pose proof (byte_val_range b3).
  pose proof (byte_val_range b4). pose proof (byte_val_range b5).
  pose proof (byte_val_range b6). pose proof (byte_val_range b7).
  set (u := Sha256.byte_val) in *.
  rewrite !Z.shiftl_mul_pow2 by lia.
  rewrite (lor_add_disjoint (u b1 * 2 ^ 48) _ 56);
    [|lia|lia|lia|Z.div_mod_to_equations; lia].
  rewrite (lor_add_disjoint (u b2 * 2 ^ 40) _ 48);
    [|lia|lia|lia|Z.div_mod_to_equations; lia].
  rewrite (lor_add_disjoint (u b3 * 2 ^ 32) _ 40);
    [|lia|lia|lia|Z.div_mod_to_equations; lia].
  rewrite (lor_add_disjoint (u b4 * 2 ^ 24) _ 32);
    [|lia|lia|lia|Z.div_mod_to_equations; lia].
  rewrite (lor_add_disjoint (u b5 * 2 ^ 16) _ 24);
    [|lia|lia|lia|Z.div_mod_to_equations; lia].
  rewrite (lor_add_disjoint (u b6 * 2 ^ 8) _ 16);
    [|lia|lia|lia|Z.div_mod_to_equations; lia].
  rewrite (lor_add_disjoint (u b7) _ 8);
    [|lia|lia|lia|Z.div_mod_to_equations; lia].
  lia.
Qed.

End KeyFacts.

Section HexFacts.

(** Lists, two elements at a time. *)
Lemma list_pair_ind {A} (P : list A -> Prop) :
  P [] -> (forall x, P [x]) -> (forall x y l, P l -> P (x :: y :: l)) ->
  forall l, P l.
Proof.
  intros H0 H1 H2.
  assert (forall l, P l /\ forall x, P (x :: l)) as H.
  { induction l as [|y l [IH1 IH2]]; [by split|]. split; [apply IH2|].
    intros x. by apply H2. }
  intros l. apply H.
Qed.

Lemma fromHexChar_high b :
  Hex.fromHexChar (byte_of_ascii (hex_digit (Sha256.byte_val b / 16)))
  = Some (Sha256.byte_val b / 16).
Proof. by destruct b. Qed.

Lemma fromHexChar_low b :
  Hex.fromHexChar (byte_of_ascii (hex_digit (Sha256.byte_val b mod 16)))
  = Some (Sha256.byte_val b mod 16).
Proof. by destruct b. Qed.

Lemma byte_of_nibbles b :
  Sha256.byte_of_Z (Z.lor (Z.shiftl (Sha256.byte_val b / 16) 4)
                          (Sha256.byte_val b mod 16)) = b.
Proof. by destruct b. Qed.

(** Decoding what [%x] wrote gives the bytes back. *)
Lemma Decode_hex bs : Hex.DecodeString (hex bs) = (bs, None).
Proof.
  unfold Hex.DecodeString. induction bs as [|b bs IH]; [done|].
  cbn [hex list_byte_of_string list_ascii_of_string map Hex.Decode].
  change (map byte_of_ascii (list_ascii_of_string (hex bs)))
    with (list_byte_of_string (hex bs)).
  by rewrite fromHexChar_high, fromHexChar_low, IH, byte_of_nibbles.
Qed.

(** A digit of either case and its value. *)
Lemma fromHexChar_digit p a :
  Hex.fromHexChar p = Some a ->
  0 <= a < 16 /\ hex_digit a = Json.lower (ascii_of_byte p).
Proof. destruct p; cbn; intros [= <-]; split; (lia || reflexivity). Qed.

Lemma nibbles_value a b :
  0 <= a < 16 -> 0 <= b < 16 ->
  Sha256.byte_val (Sha256.byte_of_Z (Z.lor (Z.shiftl a 4) b)) = a * 16 + b.
Proof.
  intros Ha Hb. rewrite Z.lor_comm, lor_shiftl_add by lia.
  rewrite byte_val_of_Z; lia.
Qed.

(** What [Decode] accepts: an even number of digits; writing the result
    with [%x] gives the digits back in lower case. *)
Lemma Decode_accepts src : forall out,
  Hex.Decode src = (out, None) ->
  length src = (2 * length out)%nat
  /\ Forall (fun p => is_Some (Hex.fromHexChar p)) src
  /\ hex out = string_of_list_ascii (map (fun p => Json.lower (ascii_of_byte p)) src).
Proof.
  induction src as [|p|p q rest IH] using list_pair_ind; intros out H.
  - cbn in H. by simplify_eq.
  - cbn in H. by destruct (Hex.fromHexChar p).
  - cbn [Hex.Decode] in H.
    destruct (Hex.fromHexChar p) as [a|] eqn:Hp; [|done].
    destruct (Hex.fromHexChar q) as [b|] eqn:Hq; [|done].
    destruct (Hex.Decode rest) as [out' err] eqn:E. simplify_eq.
    destruct (IH out' eq_refl) as (Hlen & Hall & Hhex).
    apply fromHexChar_digit in Hp as Hp'. destruct Hp' as [Ha Hpa].
    apply fromHexChar_digit in Hq as Hq'. destruct Hq' as [Hb Hqb].
    split; [cbn [length]; lia|]. split.
    + constructor; [by rewrite Hp|]. constructor; [by rewrite Hq|done].
    + cbn [hex map string_of_list_ascii]. rewrite nibbles_value by done.
      replace ((a * 16 + b) / 16) with a by (Z.div_mod_to_equations; lia).
      replace ((a * 16 + b) mod 16) with b by (Z.div_mod_to_equations; lia).
      by rewrite Hpa, Hqb, Hhex.
Qed.

Lemma Decode_digits src :
  Forall (fun p => is_Some (Hex.fromHexChar p)) src ->
  Nat.Even (length src) ->
  exists out, Hex.Decode src = (out, None).
Proof.
  induction src as [|p|p q rest IH] using list_pair_ind; intros Hall Heven.
  - by exists [].
  - destruct Heven as [n Hn]. cbn in Hn. lia.
  - apply Forall_cons in Hall as [[a Hp] Hall].
    apply Forall_cons in Hall as [[b Hq] Hall].
    destruct IH as [out E]; [done| |].
    { destruct Heven as [n Hn]. exists (n - 1)%nat. cbn [length] in Hn. lia. }
    eexists. cbn [Hex.Decode]. by rewrite Hp, Hq, E.
Qed.

Lemma fold_case_map s :
  Json.fold_case s = string_of_list_ascii (map Json.lower (list_ascii_of_string s)).
Proof. induction s as [|a s IH]; [done|]. cbn. by rewrite IH. Qed.

Lemma length_list_byte_of_string s :
  length (list_byte_of_string s) = String.length s.
Proof.
  unfold list_byte_of_string. rewrite length_map.
  induction s as [|a s IH]; [done|]. cbn. by rewrite IH.
Qed.

(** [newShared], spelled out: the key is accepted exactly when [Decode]
    gives eight bytes and no error. *)
Lemma newShared_cases id keyHex :
  (exists bs, Hex.DecodeString keyHex = (bs, None) /\ length bs = 8%nat
              /\ newShared id keyHex = Some (inl (shared.mk id (beValue bs))))
  \/ (newShared id keyHex = Some (inr (errorsNew "key must be 16 hex chars (8 bytes)"))
      /\ forall bs, Hex.DecodeString keyHex = (bs, None) -> length bs <> 8%nat).
Proof.
  unfold newShared. destruct (Hex.DecodeString keyHex) as [k [e|]] eqn:E.
  { right. split; [done|]. intros bs [=]. }
  cbn [orb]. unfold GoInt.len.
  destruct (Z.eqb_spec (Z.of_nat (length k)) 8) as [Hlen|Hlen]; cbn [negb].
  - left. exists k. split; [done|]. split; [lia|].
    destruct k as [|b0 [|b1 [|b2 [|b3 [|b4 [|b5 [|b6 [|b7 [|? ?]]]]]]]]];
      cbn [length] in Hlen; try lia.
    by rewrite Uint64_beValue.
  - right. split; [done|]. intros bs [= <-]. lia.
Qed.

End HexFacts.

Section KeyTheorems.

(** [newShared] never panics, accepts a key exactly when it is sixteen
    hexadecimal digits (of either case), and answers every other key with
    the one error "key must be 16 hex chars (8 bytes)"; [NewHTTP] hands that
    through and otherwise builds the client around the id and the key. *)
Theorem newShared_accepts_sixteen_hex_digits (id keyHex : string) :
  newShared id keyHex <> None
  /\ ((exists sh, newShared id keyHex = Some (inl sh))
      <-> String.length keyHex = 16%nat
          /\ Forall isHexDigit (list_ascii_of_string keyHex))
  /\ (forall err, newShared id keyHex = Some (inr err) ->
        err = errorsNew "key must be 16 hex chars (8 bytes)")
  /\ (forall url timeout,
        NewHTTP url id keyHex timeout
        = match newShared id keyHex with
          | Some (inl sh) => Some (inl (mkClient url id (shared.key64 sh)))
          | Some (inr err) => Some (inr err)
          | None => None
          end).
Proof.
  assert (Forall isHexDigit (list_ascii_of_string keyHex)
          <-> Forall (fun p => is_Some (Hex.fromHexChar p))
                (list_byte_of_string keyHex)) as Hdigits.
  { unfold list_byte_of_string. by rewrite Forall_map. }
  unfold NewHTTP.
  destruct (newShared_cases id keyHex)
    as [(bs & Hdec & Hlen & Hnew)|[Hnew Hrej]]; rewrite Hnew.
  - split; [done|]. split; [|split; [done|done]].
    split; [|by eauto]. intros _.
    apply Decode_accepts in Hdec as (Hl & Hall & _).
    rewrite length_list_byte_of_string in Hl. split; [lia|by apply Hdigits].
  - split; [done|]. split; [|split; [by intros err [= <-]|done]].
    split; [by intros [sh [=]]|]. intros [Hl Hall]. exfalso.
    destruct (Decode_digits (list_byte_of_string keyHex)) as [out Hout].
    { by apply Hdigits. }
    { rewrite length_list_byte_of_string, Hl. by exists 8%nat. }
    apply (Hrej out Hout).
    apply Decode_accepts in Hout as (Hlen & _).
    rewrite length_list_byte_of_string in Hlen. lia.
Qed.

(** The key is the number its sixteen digits spell, most significant digit
    first: writing eight bytes with [%x] and reading them with [newShared]
    gives the number they spell, below 2^64; an accepted key, written back
    with [%x], is the key in lower case; and two accepted keys give the same
    number exactly when they differ in the case of their letters only. *)
Theorem newShared_reads_the_key_big_endian (id : string) :
  (forall bs, length bs = 8%nat ->
     newShared id (hex bs) = Some (inl (shared.mk id (beValue bs)))
     /\ 0 <= beValue bs < 2 ^ 64)
  /\ (forall keyHex sh, newShared id keyHex = Some (inl sh) ->
        shared.id sh = id
        /\ 0 <= shared.key64 sh < 2 ^ 64
        /\ exists bs, length bs = 8%nat /\ shared.key64 sh = beValue bs
                      /\ hex bs = Json.fold_case keyHex)
  /\ (forall k1 k2 sh1 sh2,
        newShared id k1 = Some (inl sh1) -> newShared id k2 = Some (inl sh2) ->
        (shared.key64 sh1 = shared.key64 sh2
         <-> Json.fold_case k1 = Json.fold_case k2)).
Proof.
  assert (forall bs, length bs = 8%nat -> 0 <= beValue bs < 2 ^ 64) as Hrange.
  { intros bs Hlen. pose proof (beValue_range bs) as H. by rewrite Hlen in H. }
  assert (forall keyHex sh, newShared id keyHex = Some (inl sh) ->
            exists bs, length bs = 8%nat /\ sh = shared.mk id (beValue bs)
                       /\ hex bs = Json.fold_case keyHex) as Hback.
  { intros keyHex sh Hnew.
    destruct (newShared_cases id keyHex)
      as [(bs & Hdec & Hlen & Hnew')|[Hnew' _]]; [|congruence].
    exists bs. split; [done|]. split; [congruence|].
    apply Decode_accepts in Hdec as (_ & _ & ->).
    unfold list_byte_of_string. rewrite map_map, fold_case_map. f_equal.
    apply map_ext. intros a. by rewrite ascii_of_byte_of_ascii. }
  split; [|split].
  - intros bs Hlen. split; [|by apply Hrange].
    destruct (newShared_cases id (hex bs))
      as [(bs' & Hdec & _ & Hnew)|[_ Hrej]].
    + rewrite Decode_hex in Hdec. by simplify_eq.
    + by destruct (Hrej bs (Decode_hex bs)).
  - intros keyHex sh Hnew. destruct (Hback _ _ Hnew) as (bs & Hlen & -> & Hhex).
    split; [done|]. split; [by apply Hrange|]. by exists bs.
  - intros k1 k2 sh1 sh2 H1 H2.
    destruct (Hback _ _ H1) as (bs1 & Hlen1 & -> & Hhex1).
    destruct (Hback _ _ H2) as (bs2 & Hlen2 & -> & Hhex2).
    cbn [shared.key64]. rewrite <- Hhex1, <- Hhex2. split.
    + intros Hv. f_equal. apply beValue_inj; [congruence|done].
    + intros Hhex. f_equal.
      pose proof (Decode_hex bs1) as Hd1. rewrite Hhex, Decode_hex in Hd1.
      by simplify_eq.
Qed.

End KeyTheorems.

Lemma newShared_reads_the_key_big_endian_witness :
  newShared "deadbeef" "0123456789abcdef"
  = Some (inl (shared.mk "deadbeef" 0x0123456789abcdef))
  /\ newShared "deadbeef" "0123456789ABCDEF"
     = Some (inl (shared.mk "deadbeef" 0x0123456789abcdef)).
Proof.
  split.
  - exact (proj1 (proj1 (newShared_reads_the_key_big_endian "deadbeef")
                    [x01; x23; x45; x67; x89; xab; xcd; xef] eq_refl)).
  - vm_compute. reflexivity.
Defined.

(** The keys that ship with the repository are not keys: the default of the
    [-key] flag and the key of the tests are not sixteen hexadecimal digits,
    so [NewHTTP] returns the error for both. *)
Example shipped_keys_are_rejected :
  NewHTTP "http://localhost:5002/clip" "deadbeef" "your-secret-key-here" 15
  = Some (inr (errorsNew "key must be 16 hex chars (8 bytes)"))
  /\ newShared "deadbeef" "test-secret-key"
     = Some (inr (errorsNew "key must be 16 hex chars (8 bytes)")).
Proof. split; vm_compute; reflexivity. Qed.

(** * The watcher and the poller *)

Section MainFacts.

Context {World : Type}.
Variable GetSeq : World -> Z.
Variable askClipboard : World -> World * (list Item * option error).
Variable writeClipboard : World -> list Item -> World * option error.
Variable now : World -> Z.
Variable Tick : World -> World.

(** The key of at least one item is eight bytes long. *)
Lemma quickKey_length items :
  items <> [] -> String.length (QuickKey items) = 8%nat.
Proof.
  intros Hne. unfold QuickKey. destruct items as [|it items]; [done|].
  cbn [length Nat.eqb]. by rewrite string_of_list_byte_length, key_bytes_length.
Qed.

Lemma keysAlternate_nil {A} (key : A -> string) : keysAlternate key [].
Proof. by intros i x y Hx. Qed.

Lemma keysAlternate_singleton {A} (key : A -> string) x : keysAlternate key [x].
Proof. intros i x1 y Hx Hy. by destruct i. Qed.

Lemma keysAlternate_cons {A} (key : A -> string) x l :
  keysAlternate key l ->
  (forall y, head l = Some y -> key x <> key y) ->
  keysAlternate key (x :: l).
Proof.
  intros Hl Hhead [|i] x1 y Hx Hy; cbn in Hx, Hy.
  - simplify_eq. apply Hhead. by destruct l.
  - by eapply Hl.
Qed.

(** What one tick of the watcher sends. *)
Lemma watcherTick_cases myID st w :
  exists st' w',
    (watcherTick GetSeq askClipboard now myID st w = Some (st', w', [], [])
     /\ watch.lastQuick st' = watch.lastQuick st)
    \/ (exists items first,
          watcherTick GetSeq askClipboard now myID st w
          = Some (st', w', [mkSnapshot myID (now w') items ""],
                  [LogLocal (Fmt first) (GoInt.len items)])
          /\ head items = Some first
          /\ QuickKey items <> watch.lastQuick st
          /\ watch.lastQuick st' = QuickKey items).
Proof.
  unfold watcherTick.
  destruct (GetSeq w =? watch.lastSeq st); [by eexists _, _; left|].
  destruct (askClipboard w) as [w' [items err]].
  destruct err as [e|]; cbn [orb]; [by eexists _, _; left|].
  destruct items as [|first items]; [by eexists _, _; left|].
  replace (GoInt.len (first :: items) =? 0) with false.
  2:{ symmetry. apply Z.eqb_neq. unfold GoInt.len. cbn [length]. lia. }
  cbn [watch.lastQuick].
  destruct (String.eqb_spec (QuickKey (first :: items)) (watch.lastQuick st)).
  - by eexists _, _; left.
  - eexists _, _. right. by exists (first :: items), first.
Qed.

Lemma watcherLoop_spec myID n : forall st w,
  exists st' w' out log,
    watcherLoop GetSeq askClipboard now Tick myID n st w = Some (st', w', out, log)
    /\ Forall (fun s => Origin s = myID /\ Items s <> [] /\ Quick s = "") out
    /\ keysAlternate (fun s => QuickKey (Items s)) out
    /\ (forall s, head out = Some s -> QuickKey (Items s) <> watch.lastQuick st)
    /\ length log = length out.
Proof.
  induction n as [|n IH]; intros st w.
  - exists st, w, [], []. split; [done|]. split; [constructor|].
    split; [apply keysAlternate_nil|]. by split.
  - cbn [watcherLoop].
    destruct (watcherTick_cases myID st (Tick w)) as (st1 & w1 & Hcase).
    destruct (IH st1 w1) as (st2 & w2 & out2 & log2 & HIH & Hall & Halt & Hhead & Hlen).
    destruct Hcase as [[-> Hq]|(items & first & -> & Hfirst & Hnew & Hq)];
      rewrite HIH.
    + exists st2, w2, out2, log2. split; [done|]. split; [done|].
      split; [done|]. split; [|done]. by rewrite <- Hq.
    + eexists st2, w2, _, _. split; [reflexivity|]. split; [|split; [|split]].
      * cbn [app]. constructor; [|done]. cbn. split; [done|].
        split; [|done]. by destruct items.
      * cbn [app]. apply keysAlternate_cons; [done|].
        intros s Hs. cbn [Items]. rewrite <- Hq. intros Heq.
        by apply (Hhead s Hs).
      * intros s [= <-]. done.
      * cbn [app length]. by rewrite Hlen.
Qed.

End MainFacts.

Section MainTheorems.

Context {World : Type}.
Variable GetSeq : World -> Z.
Variable askClipboard : World -> World * (list Item * option error).
Variable writeClipboard : World -> list Item -> World * option error.
Variable now : World -> Z.
Variable Tick : World -> World.

(** The watcher never panics.  Every snapshot it sends carries the local id
    as origin, at least one item and no quick key yet; no two snapshots in a
    row have the same quick key; each one is logged.  What is on the
    clipboard when the watcher starts is not sent as long as the sequence
    number stays what it was. *)
Theorem watcher_sends_each_copy_once (myID : string) (n : nat) (w : World) :
  exists st w' out log,
    watcher GetSeq askClipboard now Tick myID n w = Some (st, w', out, log)
    /\ Forall (fun s => Origin s = myID /\ Items s <> [] /\ Quick s = "") out
    /\ keysAlternate (fun s => QuickKey (Items s)) out
    /\ length log = length out
    /\ ((forall w1, GetSeq w1 = GetSeq w) -> out = []).
Proof.
  unfold watcher.
  destruct (watcherLoop_spec GetSeq askClipboard now Tick myID n
              (watch.mk (GetSeq w) "") w)
    as (st & w' & out & log & Hrun & Hall & Halt & _ & Hlen).
  exists st, w', out, log. split; [exact Hrun|]. split; [exact Hall|].
  split; [exact Halt|]. split; [exact Hlen|].
  intros Hseq. clear Hall Halt Hlen.
  assert (forall n st w0 st' w0' out log,
            watch.lastSeq st = GetSeq w ->
            watcherLoop GetSeq askClipboard now Tick myID n st w0
            = Some (st', w0', out, log) -> out = []) as Hquiet.
  { clear -Hseq. intros n0.
    induction n0 as [|n0 IH]; intros st0 w0 st' w0' out0 log0 Hst H.
    - cbn in H. by simplify_eq.
    - cbn [watcherLoop] in H. unfold watcherTick in H.
      rewrite Hseq, <- Hst, Z.eqb_refl in H.
      destruct (watcherLoop _ _ _ _ myID n0 st0 (Tick w0))
        as [[[[st2 w2] out2] log2]|] eqn:E; [|done].
      simplify_eq. cbn [app]. by eapply IH. }
  eapply Hquiet; [|exact Hrun]. reflexivity.
Qed.

Lemma pollerStep_cases last snap w :
  pollerStep writeClipboard last snap w = None
  \/ (exists last' w' writes log,
        pollerStep writeClipboard last snap w = Some (last', w', writes, log)
        /\ length log = length writes
        /\ ((writes = [] /\ last' = last /\ QuickKey (Items snap) = last)
            \/ (writes = [Items snap] /\ last' = QuickKey (Items snap)
                /\ QuickKey (Items snap) <> last))).
Proof.
  unfold pollerStep.
  destruct (String.eqb_spec (QuickKey (Items snap)) last) as [Heq|Hne].
  { right. eexists _, _, _, _. split; [done|]. split; [done|]. by left. }
  destruct (writeClipboard w (Items snap)) as [w' [e|]].
  { right. eexists _, _, _, _. split; [done|]. split; [done|]. by right. }
  destruct (Items snap) as [|first items] eqn:E; [by left|].
  right. eexists _, _, _, _. split; [done|]. split; [done|]. by right.
Qed.

(** The poller asks for a write only when the key of a snapshot differs from
    the key of the snapshot before it: no two writes in a row have the same
    key, every attempt is logged once, and a snapshot that arrives again and
    again is written at most once, whether that write worked or failed. *)
Theorem poller_writes_a_repeated_snapshot_once (last : string)
    (incoming : list Snapshot) (w w' : World) (last' : string)
    (writes : list (list Item)) (log : list logLine) :
  pollerLoop writeClipboard last incoming w = Some (last', w', writes, log) ->
  keysAlternate QuickKey writes
  /\ (forall items, head writes = Some items -> QuickKey items <> last)
  /\ length log = length writes
  /\ (forall snap n, incoming = replicate n snap -> (length writes <= 1)%nat).
Proof.
  assert (forall incoming last w last' w' writes log,
            pollerLoop writeClipboard last incoming w
            = Some (last', w', writes, log) ->
            keysAlternate QuickKey writes
            /\ (forall items, head writes = Some items -> QuickKey items <> last)
            /\ length log = length writes
            /\ (forall snap, Forall (fun s => s = snap) incoming ->
                  (length writes <= 1)%nat
                  /\ (QuickKey (Items snap) = last -> writes = []))) as Hloop.
  { clear. induction incoming as [|snap rest IH];
      intros last w last' w' writes log H.
    - cbn in H. simplify_eq. split; [apply keysAlternate_nil|].
      split; [done|]. split; [done|]. intros snap _. split; [cbn; lia|done].
    - cbn [pollerLoop] in H.
      destruct (pollerStep_cases last snap w)
        as [Hp|(last1 & w1 & writes1 & log1 & Hp & Hlen1 & Hcase)];
        rewrite Hp in H; [done|].
      destruct (pollerLoop writeClipboard last1 rest w1)
        as [[[[last2 w2] writes2] log2]|] eqn:E; [|done].
      simplify_eq. apply IH in E as (Halt & Hhead & Hlen & Hsame).
      destruct Hcase as [(-> & -> & Hk)|(-> & -> & Hk)]; cbn [app].
      + split; [done|]. split; [done|].
        split; [by rewrite length_app, Hlen1, Hlen|].
        intros s [-> Hall]%Forall_cons. by apply Hsame.
      + split.
        { apply keysAlternate_cons; [done|].
          intros y Hy Heq. by apply (Hhead y Hy). }
        split; [by intros items [= <-]|].
        split; [by rewrite (length_app log1), Hlen1, Hlen|].
        intros s [-> Hall]%Forall_cons.
        destruct (Hsame s Hall) as [_ Hnone]. rewrite (Hnone eq_refl).
        split; [cbn; lia|done]. }
  intros H. destruct (Hloop _ _ _ _ _ _ _ H) as (Halt & Hhead & Hlen & Hsame).
  split; [exact Halt|]. split; [exact Hhead|]. split; [exact Hlen|].
  intros snap n ->. apply (Hsame snap).
  apply Forall_forall. by intros s [-> _]%elem_of_replicate.
Qed.

Lemma pollerLoop_app last pre post w last1 w1 writes1 log1 :
  pollerLoop writeClipboard last pre w = Some (last1, w1, writes1, log1) ->
  pollerLoop writeClipboard last (pre ++ post) w
  = match pollerLoop writeClipboard last1 post w1 with
    | None => None
    | Some (last2, w2, writes2, log2) =>
        Some (last2, w2, writes1 ++ writes2, log1 ++ log2)
    end.
Proof.
  revert last w last1 w1 writes1 log1.
  induction pre as [|snap pre IH]; intros last w last1 w1 writes1 log1 H.
  - cbn in H. simplify_eq. cbn [app].
    by destruct (pollerLoop _ _ _ _) as [[[[? ?] ?] ?]|].
  - cbn [pollerLoop app] in H |- *.
    destruct (pollerStep writeClipboard last snap w)
      as [[[[last' w'] writes'] log']|]; [|done].
    destruct (pollerLoop writeClipboard last' pre w')
      as [[[[last2 w2] writes2] log2]|] eqn:E; [|done].
    simplify_eq. rewrite (IH _ _ _ _ _ _ E).
    destruct (pollerLoop writeClipboard last1 post w1) as [[[[? ?] ?] ?]|];
      [|done].
    by rewrite !app_assoc.
Qed.

(** A snapshot without items takes the poller down: unless the snapshot
    before it had no items either, the poller asks for the write of nothing,
    and when that write works it logs [snap.Items[0]] and panics.  So does
    the very first snapshot if it has no items. *)
Theorem poller_panics_on_a_snapshot_without_items (last : string)
    (pre post : list Snapshot) (snap : Snapshot) (w w1 : World) (last1 : string)
    (writes1 : list (list Item)) (log1 : list logLine) :
  Items snap = [] ->
  pollerLoop writeClipboard last pre w = Some (last1, w1, writes1, log1) ->
  last1 <> "empty" ->
  snd (writeClipboard w1 []) = None ->
  pollerLoop writeClipboard last (pre ++ snap :: post) w = None
  /\ (pre = [] -> last = "" ->
      poller writeClipboard (snap :: post) w = None).
Proof.
  intros Hitems Hpre Hlast Hwrite.
  assert (pollerStep writeClipboard last1 snap w1 = None) as Hstep.
  { unfold pollerStep. rewrite Hitems.
    change (QuickKey []) with "empty".
    destruct (String.eqb_spec "empty" last1) as [|_]; [congruence|].
    destruct (writeClipboard w1 []) as [w2 err]. cbn in Hwrite. by subst err. }
  split.
  - rewrite (pollerLoop_app _ _ _ _ _ _ _ _ Hpre). cbn [pollerLoop].
    by rewrite Hstep.
  - intros -> ->. cbn in Hpre. simplify_eq. unfold poller. cbn [pollerLoop].
    by rewrite Hstep.
Qed.

End MainTheorems.

Lemma poller_writes_a_repeated_snapshot_once_witness :
  exists last' w' writes log,
    pollerLoop writeBusy "" [helloSnapshot; helloSnapshot; helloSnapshot] 0%nat
    = Some (last', w', writes, log)
    /\ writes = [helloWhole]
    /\ (length writes <= 1)%nat.
Proof.
  eexists _, _, _, _.
  refine (let E := _ : pollerLoop writeBusy ""
                         [helloSnapshot; helloSnapshot; helloSnapshot] 0%nat
                       = Some (_, _, _, _) in _).
  split; [exact E|]. split; [reflexivity|].
  exact (proj2 (proj2 (proj2 (poller_writes_a_repeated_snapshot_once writeBusy ""
           [helloSnapshot; helloSnapshot; helloSnapshot] 0%nat _ _ _ _ E)))
           helloSnapshot 3%nat eq_refl).
  Unshelve. all: try (vm_compute; reflexivity).
Defined.

Lemma poller_panics_on_a_snapshot_without_items_witness :
  pollerLoop writeWorks "" ([helloSnapshot] ++ emptyFromOther :: [helloSnapshot]) 0%nat
  = None.
Proof.
  refine (proj1 (poller_panics_on_a_snapshot_without_items writeWorks ""
                   [helloSnapshot] [helloSnapshot] emptyFromOther 0%nat 1%nat
                   (QuickKey helloWhole) [helloWhole] _ eq_refl _ _ eq_refl)).
  - vm_compute. reflexivity.
  - vm_compute. discriminate.
Defined.

(** Three ticks over a clipboard that changes every time but always holds
    the same item: one snapshot goes out. *)
Example watcher_sends_hello_once :
  exists st w' log,
    watcher seqOfTick readsHello clock S "deadbeef" 3 0%nat
    = Some (st, w', [mkSnapshot "deadbeef" 1700000001 helloWhole ""], log).
Proof. eexists _, _, _. vm_compute. reflexivity. Qed.

(** * The payload of an item: base64 *)

Example base64_decode_examples :
  Base64.DecodeString "aGVsbG8=" = (lit "hello", None)
  /\ Base64.DecodeString "aGVsbG8h" = (lit "hello!", None)
  /\ Base64.DecodeString "aGVsbA==" = (lit "hell", None)
  /\ Base64.DecodeString "aGVs
bG8h" = (lit "hello!", None)
  /\ Base64.DecodeString "aGVsbG8" = (lit "hel", Some (Base64.CorruptInputError 4))
  /\ Base64.DecodeString "aGV$bG8h" = ([], Some (Base64.CorruptInputError 3))
  /\ Base64.DecodeString "aGVsbA==x" = (lit "hell", Some (Base64.CorruptInputError 8))
  /\ Base64.DecodeString "aGVsbA=x" = (lit "hel", Some (Base64.CorruptInputError 6))
  /\ Base64.DecodeString "" = ([], None).
Proof. repeat split. Qed.

Section Base64Facts.

Lemma list_triple_ind {A} (P : list A -> Prop) :
  P [] -> (forall x, P [x]) -> (forall x y, P [x; y]) ->
  (forall x y z l, P l -> P (x :: y :: z :: l)) ->
  forall l, P l.
Proof.
  intros H0 H1 H2 H3.
  assert (forall l, P l /\ (forall x, P (x :: l)) /\ forall x y, P (x :: y :: l))
    as H.
  { induction l as [|z l (IH0 & IH1 & IH2)]; [by repeat split|].
    split; [apply IH1|]. split; [intros x; apply IH2|].
    intros x y. by apply H3. }
  intros l. apply H.
Qed.

Lemma decodeMap_b64char n :
  0 <= n < 64 -> Base64.decodeMap (byte_of_ascii (b64char n)) = Some n.
Proof.
  intros Hn. replace n with (Z.of_nat (Z.to_nat n)) by lia.
  assert (Z.to_nat n < 64)%nat as Hk by lia.
  generalize dependent (Z.to_nat n). clear. intros k Hk.
  do 64 (destruct k as [|k]; [reflexivity|]). lia.
Qed.

Lemma byte_of_Z_mod z : Sha256.byte_of_Z z = Sha256.byte_of_Z (z mod 256).
Proof.
  unfold Sha256.byte_of_Z. change 0xff with (Z.ones 8).
  rewrite !Z.land_ones by lia. change (2 ^ 8) with 256.
  by rewrite Z.mod_mod by lia.
Qed.

Lemma byte_of_Z_eq z b :
  z mod 256 = Sha256.byte_val b -> Sha256.byte_of_Z z = b.
Proof. intros H. by rewrite byte_of_Z_mod, H, byte_of_Z_val. Qed.

(** A digit of the quantum is read and the loop goes on. *)
Lemma decodeQuantum_digit c d rest si total dbuf :
  (length dbuf < 4)%nat ->
  Base64.decodeMap c = Some d ->
  Base64.decodeQuantum (c :: rest) si total dbuf
  = Base64.decodeQuantum rest (si + 1) total (dbuf ++ [d]).
Proof.
  intros Hlen Hd. cbn [Base64.decodeQuantum].
  destruct (Nat.eqb_spec (length dbuf) 4); [lia|]. by rewrite Hd.
Qed.

Lemma decodeQuantum_full src si total d0 d1 d2 d3 :
  Base64.decodeQuantum src si total [d0; d1; d2; d3]
  = (src, si, Base64.quantumBytes [d0; d1; d2; d3] 4, None).
Proof. by destruct src. Qed.

(** The four digits of three bytes, put together again. *)
Lemma quantum_of_three a b c :
  let n := Sha256.byte_val a * 65536 + Sha256.byte_val b * 256
           + Sha256.byte_val c in
  Base64.quantumBytes [n / 262144; n / 4096 mod 64; n / 64 mod 64; n mod 64] 4
  = [a; b; c].
Proof.
  intros n. unfold Base64.quantumBytes. cbn [nth Nat.sub take].
  pose proof (byte_val_range a). pose proof (byte_val_range b).
  pose proof (byte_val_range c).
  assert (Z.lor (Z.shiftl (n / 262144) 18)
            (Z.lor (Z.shiftl (n / 4096 mod 64) 12)
               (Z.lor (Z.shiftl (n / 64 mod 64) 6) (n mod 64))) = n) as ->.
  { rewrite !Z.shiftl_mul_pow2 by lia.
    rewrite (Z.lor_comm _ (n mod 64)).
    rewrite (lor_add_disjoint (n mod 64) _ 6);
      [|lia|Z.div_mod_to_equations; lia..].
    rewrite (Z.lor_comm _ (n mod 64 + _)).
    rewrite (lor_add_disjoint (n mod 64 + _) _ 12);
      [|lia|Z.div_mod_to_equations; lia..].
    rewrite (Z.lor_comm _ (n mod 64 + _ + _)).
    rewrite (lor_add_disjoint (n mod 64 + _ + _) _ 18);
      [|lia|Z.div_mod_to_equations; lia..].
    Z.div_mod_to_equations. lia. }
  rewrite !Z.shiftr_div_pow2 by lia.
  f_equal; [|f_equal; [|f_equal]]; apply byte_of_Z_eq;
    unfold n; Z.div_mod_to_equations; lia.
Qed.

Lemma quantum_of_two a b :
  let n := Sha256.byte_val a * 65536 + Sha256.byte_val b * 256 in
  Base64.quantumBytes [n / 262144; n / 4096 mod 64; n / 64 mod 64] 3 = [a; b].
Proof.
  intros n. unfold Base64.quantumBytes. cbn [nth Nat.sub take].
  pose proof (byte_val_range a). pose proof (byte_val_range b).
  assert (Z.lor (Z.shiftl (n / 262144) 18)
            (Z.lor (Z.shiftl (n / 4096 mod 64) 12)
               (Z.lor (Z.shiftl (n / 64 mod 64) 6) 0)) = n) as ->.
  { rewrite Z.lor_0_r, !Z.shiftl_mul_pow2 by lia.
    rewrite (Z.lor_comm _ (_ * 2 ^ 6)).
    rewrite (lor_add_disjoint (_ * 2 ^ 6) _ 12);
      [|lia|Z.div_mod_to_equations; lia..].
    rewrite (Z.lor_comm _ (_ * 2 ^ 6 + _)).
    rewrite (lor_add_disjoint (_ * 2 ^ 6 + _) _ 18);
      [|lia|Z.div_mod_to_equations; lia..].
    Z.div_mod_to_equations. lia. }
  rewrite !Z.shiftr_div_pow2 by lia.
  f_equal; [|f_equal]; apply byte_of_Z_eq;
    unfold n; Z.div_mod_to_equations; lia.
Qed.

Lemma quantum_of_one a :
  let n := Sha256.byte_val a * 65536 in
  Base64.quantumBytes [n / 262144; n / 4096 mod 64] 2 = [a].
Proof.
  intros n. unfold Base64.quantumBytes. cbn [nth Nat.sub take].
  pose proof (byte_val_range a).
  assert (Z.lor (Z.shiftl (n / 262144) 18)
            (Z.lor (Z.shiftl (n / 4096 mod 64) 12) (Z.lor (Z.shiftl 0 6) 0)) = n)
    as ->.
  { change (Z.lor (Z.shiftl 0 6) 0) with 0.
    rewrite Z.lor_0_r, !Z.shiftl_mul_pow2 by lia.
    rewrite (Z.lor_comm _ (_ * 2 ^ 12)).
    rewrite (lor_add_disjoint (_ * 2 ^ 12) _ 18);
      [|lia|Z.div_mod_to_equations; lia..].
    Z.div_mod_to_equations. lia. }
  rewrite !Z.shiftr_div_pow2 by lia.
  f_equal. apply byte_of_Z_eq. unfold n. Z.div_mod_to_equations. lia.
Qed.

End Base64Facts.

Section Base64RoundTrip.

Lemma digit_ranges a b c :
  let n := Sha256.byte_val a * 65536 + Sha256.byte_val b * 256
           + Sha256.byte_val c in
  0 <= n / 262144 < 64 /\ 0 <= n / 4096 mod 64 < 64
  /\ 0 <= n / 64 mod 64 < 64 /\ 0 <= n mod 64 < 64.
Proof.
  intros n. pose proof (byte_val_range a). pose proof (byte_val_range b).
  pose proof (byte_val_range c). unfold n.
  repeat split; Z.div_mod_to_equations; lia.
Qed.

(** Decoding what [EncodeToString] wrote gives the bytes back, without an
    error. *)
Lemma decodeQuantum_pad2 si total d0 d1 :
  Base64.decodeQuantum [x3d; x3d] si total [d0; d1]
  = ([], si + 1 + 1, Base64.quantumBytes [d0; d1] 2, None).
Proof. reflexivity. Qed.

Lemma decodeQuantum_pad1 si total d0 d1 d2 :
  Base64.decodeQuantum [x3d] si total [d0; d1; d2]
  = ([], si + 1, Base64.quantumBytes [d0; d1; d2] 3, None).
Proof. reflexivity. Qed.

Ltac digit H :=
  erewrite decodeQuantum_digit;
  [|cbn [length]; lia|exact (decodeMap_b64char _ H)]; cbn [app].

Lemma decodeLoop_base64 bs : forall fuel si total,
  (length (list_byte_of_string (base64 bs)) <= fuel)%nat ->
  Base64.decodeLoop fuel (list_byte_of_string (base64 bs)) si total = (bs, None).
Proof.
  induction bs as [|a|a b|a b c rest IH] using list_triple_ind;
    intros fuel si total Hfuel.
  - by destruct fuel.
  - destruct (digit_ranges a x00 x00) as (H0 & H1 & _).
    change (Sha256.byte_val x00) with 0 in H0, H1.
    rewrite Z.mul_0_l, !Z.add_0_r in H0, H1.
    cbn [base64 list_byte_of_string list_ascii_of_string map length] in Hfuel |- *.
    destruct fuel as [|fuel]; [lia|]. cbn [Base64.decodeLoop].
    digit H0.
    digit H1.
    rewrite decodeQuantum_pad2, (quantum_of_one a). by destruct fuel.
  - destruct (digit_ranges a b x00) as (H0 & H1 & H2 & _).
    change (Sha256.byte_val x00) with 0 in H0, H1, H2.
    rewrite !Z.add_0_r in H0, H1, H2.
    cbn [base64 list_byte_of_string list_ascii_of_string map length] in Hfuel |- *.
    destruct fuel as [|fuel]; [lia|]. cbn [Base64.decodeLoop].
    digit H0.
    digit H1.
    digit H2.
    rewrite decodeQuantum_pad1, (quantum_of_two a b). by destruct fuel.
  - destruct (digit_ranges a b c) as (H0 & H1 & H2 & H3).
    cbn [base64 list_byte_of_string list_ascii_of_string map length] in Hfuel |- *.
    change (map byte_of_ascii (list_ascii_of_string (base64 rest)))
      with (list_byte_of_string (base64 rest)) in Hfuel |- *.
    destruct fuel as [|fuel]; [lia|]. cbn [Base64.decodeLoop].
    digit H0.
    digit H1.
    digit H2.
    digit H3.
    rewrite decodeQuantum_full, (quantum_of_three a b c).
    rewrite IH by lia. done.
Qed.

Lemma DecodeString_base64 bs :
  Base64.DecodeString (base64 bs) = (bs, None).
Proof. unfold Base64.DecodeString. by apply decodeLoop_base64. Qed.

(** [EncodeToString] writes the empty string for no bytes only. *)
Lemma base64_empty bs : base64 bs = "" -> bs = [].
Proof. by destruct bs as [|a [|b [|c rest]]]. Qed.

End Base64RoundTrip.

(** * Bitmaps: image.go *)

Example ImageToDIB_checker :
  ImageToDIB checker
  = Some ([ x28; x00; x00; x00;  x02; x00; x00; x00;  x02; x00; x00; x00;
            x01; x00;  x20; x00;  x00; x00; x00; x00;  x10; x00; x00; x00 ]
          ++ replicate 16 x00
          ++ [ xff; x00; x00; xff;  x00; x00; xff; xff;
               x00; x00; xff; xff;  xff; x00; x00; xff ]).
Proof. vm_compute. reflexivity. Qed.

Example DIBToPNG_checker :
  forall pngEncode,
    (dib ← ImageToDIB checker; DIBToPNG pngEncode dib) = Some (pngEncode checker).
Proof. intros. vm_compute. reflexivity. Qed.

Section ImageFacts.

Implicit Types (row src dst pix : list byte).

Lemma wrap_small z : 0 <= z <= GoInt.MaxInt -> GoInt.wrap z = z.
Proof.
  intros H. apply wrap_id.
  assert (GoInt.MinInt <= 0) by (vm_compute; discriminate). lia.
Qed.

Lemma dibStride_width w :
  0 <= w -> 4 * w + 3 <= GoInt.MaxInt -> dibStride w = 4 * w.
Proof.
  intros Hw Hmax. unfold dibStride, GoArith.mul, GoArith.quot, GoInt.add.
  rewrite (wrap_small (w * 4)) by lia.
  rewrite (wrap_small (w * 4 + 3)) by lia.
  assert ((w * 4 + 3) ÷ 4 = w) as ->.
  { rewrite Z.quot_div_nonneg by lia. Z.div_mod_to_equations. lia. }
  rewrite (wrap_small w) by lia. rewrite wrap_small by lia. lia.
Qed.

(** Reading and writing inside the pixel that follows a prefix. *)
Lemma get_pixel pre a b c d rest i (k : nat) v :
  length pre = Z.to_nat i -> 0 <= i ->
  [a; b; c; d] !! k = Some v ->
  Slice.get (pre ++ a :: b :: c :: d :: rest) (i + Z.of_nat k) = Some v.
Proof.
  intros Hpre Hi Hk. unfold Slice.get, GoInt.len.
  apply lookup_lt_Some in Hk as Hlt. cbn [length] in Hlt.
  rewrite length_app. cbn [length].
  destruct (Z.leb_spec 0 (i + Z.of_nat k)); [|lia].
  destruct (Z.ltb_spec (i + Z.of_nat k)
              (Z.of_nat (length pre + S (S (S (S (length rest))))))); [|lia].
  cbn [andb]. rewrite lookup_app_r by lia.
  replace (Z.to_nat (i + Z.of_nat k) - length pre)%nat with k by lia.
  by destruct k as [|[|[|[|k]]]]; cbn in Hk |- *; try lia.
Qed.

Lemma set_pixel pre a b c d rest i (k : nat) v :
  length pre = Z.to_nat i -> 0 <= i -> (k < 4)%nat ->
  Slice.set (pre ++ a :: b :: c :: d :: rest) (i + Z.of_nat k) v
  = Some (pre ++ <[k := v]> [a; b; c; d] ++ rest).
Proof.
  intros Hpre Hi Hk. unfold Slice.set, GoInt.len.
  rewrite length_app. cbn [length].
  destruct (Z.leb_spec 0 (i + Z.of_nat k)); [|lia].
  destruct (Z.ltb_spec (i + Z.of_nat k)
              (Z.of_nat (length pre + S (S (S (S (length rest))))))); [|lia].
  cbn [andb]. f_equal. rewrite insert_app_r_alt by lia.
  replace (Z.to_nat (i + Z.of_nat k) - length pre)%nat with k by lia.
  by destruct k as [|[|[|[|k]]]]; try lia.
Qed.

(** The pixel loop writes the source pixels, red and blue exchanged, over
    the pixels of the destination at the same place. *)
Lemma swapPixels_spec n : forall x spre smid spost pre mid post,
  0 <= x -> 4 * (x + Z.of_nat n) + 3 <= GoInt.MaxInt ->
  length spre = Z.to_nat (4 * x) -> length pre = Z.to_nat (4 * x) ->
  length smid = (4 * n)%nat -> length mid = (4 * n)%nat ->
  swapPixels n x (spre ++ smid ++ spost) (pre ++ mid ++ post)
  = Some (pre ++ swizzle smid ++ post).
Proof.
  induction n as [|n IH]; intros x spre smid spost pre mid post Hx Hmax
    Hspre Hpre Hsmid Hmid.
  - destruct smid; [|done]. by destruct mid.
  - destruct smid as [|r [|g [|b [|a smid]]]]; cbn [length] in Hsmid; try lia.
    destruct mid as [|d0 [|d1 [|d2 [|d3 mid]]]]; cbn [length] in Hmid; try lia.
    cbn [swapPixels]. unfold GoArith.mul, GoInt.add.
    rewrite (wrap_small (x * 4)) by lia.
    replace (x * 4) with (4 * x) by lia.
    rewrite !(wrap_small (4 * x + _)) by lia.
    rewrite (wrap_small (x + 1)) by lia.
    cbn [app].
    rewrite (get_pixel spre r g b a _ (4 * x) 2 b) by (done || lia).
    cbn [mbind option_bind].
    replace (4 * x + 0) with (4 * x + Z.of_nat 0) by lia.
    rewrite (set_pixel pre _ _ _ _ _ (4 * x) 0) by (done || lia).
    cbn [mbind option_bind list_insert insert app].
    rewrite (get_pixel spre r g b a _ (4 * x) 1 g) by (done || lia).
    cbn [mbind option_bind].
    rewrite (set_pixel pre _ _ _ _ _ (4 * x) 1) by (done || lia).
    cbn [mbind option_bind list_insert insert app].
    rewrite (get_pixel spre r g b a _ (4 * x) 0 r) by (done || lia).
    cbn [mbind option_bind].
    rewrite (set_pixel pre _ _ _ _ _ (4 * x) 2) by (done || lia).
    cbn [mbind option_bind list_insert insert app].
    rewrite (get_pixel spre r g b a _ (4 * x) 3 a) by (done || lia).
    cbn [mbind option_bind].
    rewrite (set_pixel pre _ _ _ _ _ (4 * x) 3) by (done || lia).
    cbn [mbind option_bind list_insert insert app].
    specialize (IH (x + 1) (spre ++ [r; g; b; a]) smid spost
                  (pre ++ [b; g; r; a]) mid post).
    rewrite <- !app_assoc in IH. cbn [app] in IH. rewrite IH.
    + done.
    + lia.
    + lia.
    + rewrite length_app. cbn [length]. lia.
    + rewrite length_app. cbn [length]. lia.
    + lia.
    + lia.
Qed.


Lemma swizzle_spec n : forall row,
  length row = (4 * n)%nat ->
  length (swizzle row) = (4 * n)%nat /\ swizzle (swizzle row) = row.
Proof.
  induction n as [|n IH]; intros row Hlen.
  - by destruct row.
  - destruct row as [|r [|g [|b [|a row]]]]; cbn [length] in Hlen; try lia.
    destruct (IH row) as [Hl Hs]; [lia|]. cbn [swizzle length].
    split; [lia|]. by rewrite Hs.
Qed.

Lemma padRow_none i rowBuf : padRow 0 i rowBuf = Some rowBuf.
Proof. done. Qed.

(** Rows of one length, put end to end, and cut out again. *)
Lemma rowsOf_spec n h : forall pix,
  length pix = (n * h)%nat ->
  concat (rowsOf n h pix) = pix
  /\ Forall (fun row => length row = n) (rowsOf n h pix)
  /\ length (rowsOf n h pix) = h.
Proof.
  induction h as [|h IH]; intros pix Hlen.
  - destruct pix; [done|]. cbn in Hlen. lia.
  - cbn [rowsOf concat length]. destruct (IH (drop n pix)) as (Hc & Hall & Hl).
    { rewrite length_drop. lia. }
    rewrite Hc, take_drop, Hl. split; [done|]. split; [|done].
    constructor; [|done]. rewrite length_take. lia.
Qed.

Lemma concat_rows_length n (rows : list (list byte)) :
  Forall (fun row => length row = n) rows ->
  length (concat rows) = (n * length rows)%nat.
Proof.
  induction 1 as [|row rows Hrow _ IH]; [cbn; lia|].
  cbn [concat length]. rewrite length_app, IH, Hrow. lia.
Qed.

Lemma drop_rows n (rows : list (list byte)) : forall k,
  Forall (fun row => length row = n) rows ->
  drop (k * n) (concat rows) = concat (drop k rows).
Proof.
  induction rows as [|row rows IH]; intros k Hall.
  - cbn [concat]. by rewrite !drop_nil.
  - apply Forall_cons in Hall as [Hrow Hall]. destruct k as [|k]; [done|].
    cbn [concat drop]. replace (S k * n)%nat with (length row + k * n)%nat by lia.
    rewrite drop_app_add. by apply IH.
Qed.

Lemma take_rows n (rows : list (list byte)) : forall k,
  Forall (fun row => length row = n) rows ->
  take (k * n) (concat rows) = concat (take k rows).
Proof.
  induction rows as [|row rows IH]; intros k Hall.
  - cbn [concat]. by rewrite !take_nil.
  - apply Forall_cons in Hall as [Hrow Hall]. destruct k as [|k]; [done|].
    cbn [concat take]. replace (S k * n)%nat with (length row + k * n)%nat by lia.
    rewrite take_app_add. by rewrite IH.
Qed.

(** Row [k] of the byte sequence [pre ++ concat rows ++ post]. *)
Lemma sub_row n (rows : list (list byte)) pre post (k : nat) row :
  Forall (fun r => length r = n) rows ->
  rows !! k = Some row ->
  Slice.sub (pre ++ concat rows ++ post)
    (Z.of_nat (length pre + k * n)) (Z.of_nat (length pre + (k + 1) * n))
  = Some row.
Proof.
  intros Hall Hk. unfold Slice.sub, GoInt.len, GoInt.slice.
  pose proof (lookup_lt_Some _ _ _ Hk) as Hlt.
  rewrite !length_app, (concat_rows_length n rows Hall).
  destruct (Z.leb_spec 0 (Z.of_nat (length pre + k * n))); [|lia].
  destruct (Z.leb_spec (Z.of_nat (length pre + k * n))
              (Z.of_nat (length pre + (k + 1) * n))); [|lia].
  destruct (Z.leb_spec (Z.of_nat (length pre + (k + 1) * n))
              (Z.of_nat (length pre + (n * length rows + length post))));
    [|nia].
  cbn [andb]. f_equal. rewrite Nat2Z.id.
  replace (Z.to_nat (Z.of_nat (length pre + (k + 1) * n)
                     - Z.of_nat (length pre + k * n))) with n by lia.
  rewrite drop_app_add, drop_app_le.
  2:{ rewrite (concat_rows_length n rows Hall). nia. }
  rewrite (drop_rows n rows k Hall), (drop_S _ _ _ Hk). cbn [concat].
  rewrite <- app_assoc, take_app_length'; [done|].
  symmetry. by eapply (proj1 (Forall_lookup _ _) Hall).
Qed.

End ImageFacts.

Section ImageToDIBFacts.

(** The rows of the image leave [dibRows] last row first, each with red and
    blue exchanged. *)
Lemma dibRows_spec rgba (wn : nat) (rows : list (list byte)) :
  image.Pix rgba = concat rows ->
  image.Stride rgba = 4 * Z.of_nat wn ->
  Forall (fun row => length row = (4 * wn)%nat) rows ->
  4 * Z.of_nat wn * Z.of_nat (length rows) <= GoInt.MaxInt ->
  4 * Z.of_nat wn + 3 <= GoInt.MaxInt ->
  Z.of_nat (length rows) <= GoInt.MaxInt ->
  forall (k : nat) rowBuf buf,
  (k <= length rows)%nat -> length rowBuf = (4 * wn)%nat ->
  dibRows rgba (Z.of_nat wn) (4 * Z.of_nat wn) k rowBuf buf
  = Some (buf ++ concat (swizzle <$> reverse (take k rows))).
Proof.
  intros Hpix Hstride Hall Hmax Hmax4 Hmaxh.
  induction k as [|k IH]; intros rowBuf buf Hk Hbuf.
  - cbn. by rewrite app_nil_r.
  - cbn [dibRows]. rewrite Hpix, Hstride.
    destruct (rows !! k) as [row|] eqn:Hrow.
    2:{ apply lookup_ge_None in Hrow. lia. }
    assert (length row = (4 * wn)%nat) as Hlen
      by by eapply (proj1 (Forall_lookup _ _) Hall).
    unfold GoArith.mul, GoArith.sub, GoInt.add.
    rewrite (wrap_small (Z.of_nat k + 1)) by lia.
    rewrite (wrap_small (Z.of_nat k * _)) by nia.
    rewrite (wrap_small ((Z.of_nat k + 1) * _)) by nia.
    rewrite (wrap_small (Z.of_nat wn * 4)) by lia.
    replace (4 * Z.of_nat wn - Z.of_nat wn * 4) with 0 by lia.
    rewrite (wrap_small 0) by (pose proof MaxInt_pos; lia).
    pose proof (sub_row (4 * wn) rows [] [] k row Hall Hrow) as Hsub.
    cbn [app length] in Hsub. rewrite app_nil_r in Hsub.
    replace (Z.of_nat k * (4 * Z.of_nat wn))
      with (Z.of_nat (0 + k * (4 * wn))) by lia.
    replace ((Z.of_nat k + 1) * (4 * Z.of_nat wn))
      with (Z.of_nat (0 + (k + 1) * (4 * wn))) by lia.
    rewrite Hsub. cbn [mbind option_bind]. rewrite Nat2Z.id.
    pose proof (swapPixels_spec wn 0 [] row [] [] rowBuf []) as Hswap.
    cbn [app] in Hswap. rewrite !app_nil_r in Hswap.
    rewrite Hswap by (done || lia). cbn [mbind option_bind].
    change (Z.to_nat 0) with 0%nat. rewrite padRow_none. cbn [mbind option_bind].
    destruct (swizzle_spec wn row Hlen) as [Hsl _].
    rewrite IH by (done || lia).
    rewrite (take_S_r _ _ _ Hrow), reverse_app. cbn [reverse fmap list_fmap app].
    rewrite reverse_singleton. cbn [app fmap list_fmap concat].
    by rewrite <- app_assoc.
Qed.

End ImageToDIBFacts.

Section DIBFacts.

Lemma Uint32_PutUint32 v rest :
  0 <= v < 2 ^ 32 ->
  LittleEndian.Uint32 (LittleEndian.PutUint32 v ++ rest) = Some v.
Proof.
  intros Hv. unfold LittleEndian.PutUint32, LittleEndian.Uint32. cbn [app].
  f_equal. rewrite !Z.shiftr_div_pow2 by lia.
  rewrite (byte_of_Z_mod v), (byte_of_Z_mod (v / _)),
    (byte_of_Z_mod (v / 2 ^ 16)), (byte_of_Z_mod (v / 2 ^ 24)).
  rewrite !byte_val_of_Z by (apply Z.mod_pos_bound; lia).
  rewrite !Z.shiftl_mul_pow2 by lia.
  rewrite (lor_add_disjoint (v / 2 ^ 16 mod 256 * 2 ^ 16) _ 24);
    [|lia|Z.div_mod_to_equations; lia..].
  rewrite (lor_add_disjoint (v / 2 ^ 8 mod 256 * 2 ^ 8) _ 16);
    [|lia|Z.div_mod_to_equations; lia..].
  rewrite (lor_add_disjoint (v mod 256) _ 8);
    [|lia|Z.div_mod_to_equations; lia..].
  Z.div_mod_to_equations. lia.
Qed.

Lemma dibHeader_length w h s : length (dibHeader w h s) = 40%nat.
Proof. reflexivity. Qed.

(** The fields [DIBToPNG] reads from a header [ImageToDIB] wrote. *)
Lemma dibHeader_fields w h s body :
  0 <= w < 2 ^ 32 -> 0 <= h < 2 ^ 32 ->
  let dib := dibHeader w h s ++ body in
  LittleEndian.Uint32 (GoInt.slice dib 0 4) = Some 40
  /\ LittleEndian.Uint32 (GoInt.slice dib 4 8) = Some w
  /\ LittleEndian.Uint32 (GoInt.slice dib 8 12) = Some h
  /\ LittleEndian.Uint16 (GoInt.slice dib 14 16) = Some 32.
Proof.
  intros Hw Hh dib.
  assert (GoArith.u32 w = w) as Hw' by (unfold GoArith.u32; by rewrite Z.mod_small).
  assert (GoArith.u32 h = h) as Hh' by (unfold GoArith.u32; by rewrite Z.mod_small).
  unfold dib, dibHeader. rewrite Hw', Hh'. unfold GoInt.slice.
  split; [reflexivity|]. split; [|split; [|reflexivity]].
  - change (drop (Z.to_nat 4) ((LittleEndian.PutUint32 40 ++ ?x) ++ body))
      with (x ++ body).
    cbn [Z.to_nat Z.sub Z.add Z.opp Z.pos_sub Pos.to_nat Pos.iter_op Nat.add
         Pos.pred_double LittleEndian.PutUint32 app drop take].
    apply (Uint32_PutUint32 w [] Hw).
  - cbn [Z.to_nat Z.sub Z.add Z.opp Z.pos_sub Pos.to_nat Pos.iter_op Nat.add
         Pos.pred_double LittleEndian.PutUint32 app drop take].
    apply (Uint32_PutUint32 h [] Hh).
Qed.

End DIBFacts.

Section DIBRoundTrip.

Variable pngEncode : image.RGBA -> option (list byte).

(** A well-formed image as rows. *)
Lemma wellFormed_rows rgba :
  wellFormed rgba ->
  exists (wn : nat) (rows : list (list byte)),
    image.Dx rgba = Z.of_nat wn /\ image.Dy rgba = Z.of_nat (length rows)
    /\ image.Pix rgba = concat rows
    /\ rows = rowsOf (4 * wn) (length rows) (image.Pix rgba)
    /\ Forall (fun row => length row = (4 * wn)%nat) rows.
Proof.
  intros (Hw & Hh & Hstride & Hlen & Hmax).
  exists (Z.to_nat (image.Dx rgba)).
  destruct (rowsOf_spec (4 * Z.to_nat (image.Dx rgba)) (Z.to_nat (image.Dy rgba))
              (image.Pix rgba)) as (Hc & Hall & Hl).
  { unfold GoInt.len in Hlen. nia. }
  exists (rowsOf (4 * Z.to_nat (image.Dx rgba)) (Z.to_nat (image.Dy rgba))
            (image.Pix rgba)).
  rewrite Hl. split; [lia|]. split; [lia|]. by split.
Qed.

(** [ImageToDIB] on a well-formed image: the header, then the rows from the
    last to the first, blue first in every pixel; no padding. *)
Lemma ImageToDIB_spec rgba :
  wellFormed rgba ->
  image.Dx rgba < 2 ^ 32 -> image.Dy rgba < 2 ^ 32 ->
  ImageToDIB rgba
  = Some (dibHeader (image.Dx rgba) (image.Dy rgba) (4 * image.Dx rgba)
          ++ concat (swizzle <$> reverse
               (rowsOf (Z.to_nat (4 * image.Dx rgba)) (Z.to_nat (image.Dy rgba))
                  (image.Pix rgba)))).
Proof.
  intros Hwf Hw32 Hh32.
  destruct (wellFormed_rows rgba Hwf) as (wn & rows & Hw & Hh & Hpix & Hrows & Hall).
  destruct Hwf as (Hw0 & Hh0 & Hstride & Hlen & Hmax).
  assert (4 * Z.of_nat wn + 3 <= GoInt.MaxInt) as Hmax4.
  { rewrite MaxInt_val. rewrite Hw in Hw32. lia. }
  unfold ImageToDIB. rewrite Hw, Hh.
  rewrite dibStride_width by lia.
  destruct (Z.ltb_spec (4 * Z.of_nat wn) 0); [lia|].
  fold (dibHeader (Z.of_nat wn) (Z.of_nat (length rows)) (4 * Z.of_nat wn)).
  rewrite Nat2Z.id.
  rewrite (dibRows_spec rgba wn rows); try done.
  - rewrite take_ge by done.
    replace (Z.to_nat (4 * Z.of_nat wn)) with (4 * wn)%nat by lia.
    by rewrite <- Hrows.
  - by rewrite Hstride, Hw.
  - rewrite <- Hw, <- Hh. lia.
  - rewrite <- Hh, MaxInt_val. lia.
  - rewrite length_replicate. lia.
Qed.


Lemma swizzled_rows_length (wn : nat) (rows : list (list byte)) :
  Forall (fun row => length row = (4 * wn)%nat) rows ->
  Forall (fun row => length row = (4 * wn)%nat) (swizzle <$> reverse rows).
Proof.
  intros Hall. apply Forall_fmap, Forall_reverse.
  eapply Forall_impl; [exact Hall|]. intros row Hrow. cbn.
  by destruct (swizzle_spec wn row Hrow).
Qed.

(** Over a DIB that holds every row, bottom-up, the row loop of [DIBToPNG]
    fills the image with the rows, first row first, red first. *)
Lemma pngRows_spec hdr (wn : nat) (rows : list (list byte)) :
  let dib := hdr ++ concat (swizzle <$> reverse rows) in
  let n := (4 * wn)%nat in
  Forall (fun row => length row = n) rows ->
  Z.of_nat (length hdr) + 4 * Z.of_nat wn * Z.of_nat (length rows) + 3
    <= GoInt.MaxInt ->
  Z.of_nat (length rows) <= GoInt.MaxInt ->
  forall (k y : nat), (y + k = length rows)%nat ->
  pngRows dib true (Z.of_nat wn) (Z.of_nat (length rows)) (4 * Z.of_nat wn)
    (Z.of_nat (length hdr)) (4 * Z.of_nat wn) k (Z.of_nat y)
    (concat (take y rows) ++ replicate (k * n) x00)
  = Some (concat rows).
Proof.
  intros dib n Hall Hmax Hmaxh.
  pose proof (swizzled_rows_length wn rows Hall) as Hall'.
  assert (GoInt.len dib
          = Z.of_nat (length hdr) + 4 * Z.of_nat wn * Z.of_nat (length rows))
    as Hlen.
  { unfold dib, GoInt.len. rewrite length_app, (concat_rows_length n _ Hall').
    rewrite length_fmap, length_reverse. unfold n. lia. }
  induction k as [|k IH]; intros y Hy.
  - cbn [pngRows Nat.mul replicate]. rewrite app_nil_r, take_ge by lia. done.
  - cbn [pngRows]. rewrite Hlen.
    destruct (rows !! y) as [row|] eqn:Hrow.
    2:{ apply lookup_ge_None in Hrow. lia. }
    assert (length row = n) as Hrowlen
      by by eapply (proj1 (Forall_lookup _ _) Hall).
    unfold GoArith.mul, GoArith.sub, GoInt.add.
    rewrite (wrap_small (Z.of_nat (length rows) - 1)) by lia.
    rewrite (wrap_small (Z.of_nat (length rows) - 1 - Z.of_nat y)) by lia.
    rewrite (wrap_small (_ * (4 * Z.of_nat wn))) by nia.
    rewrite (wrap_small (Z.of_nat wn * 4)) by nia.
    rewrite (wrap_small (Z.of_nat (length hdr) + _)) by nia.
    rewrite (wrap_small (Z.of_nat (length hdr) + _ + _)) by nia.
    rewrite (wrap_small (Z.of_nat y + 1)) by lia.
    rewrite (wrap_small (Z.of_nat y * _)) by nia.
    rewrite (wrap_small ((Z.of_nat y + 1) * _)) by nia.
    destruct (Z.gtb_spec
                (Z.of_nat (length hdr)
                 + (Z.of_nat (length rows) - 1 - Z.of_nat y) * (4 * Z.of_nat wn)
                 + Z.of_nat wn * 4)
                (Z.of_nat (length hdr)
                 + 4 * Z.of_nat wn * Z.of_nat (length rows))); [nia|].
    (* the row of the image *)
    replace (replicate (S k * n) x00)
      with (concat [replicate n x00] ++ replicate (k * n) x00).
    2:{ cbn [concat]. rewrite app_nil_r, <- replicate_add. f_equal; lia. }
    assert (length (concat (take y rows)) = (y * n)%nat) as Hpre.
    { rewrite (concat_rows_length n); [rewrite length_take; lia|].
      by apply Forall_take. }
    pose proof (sub_row n [replicate n x00] (concat (take y rows))
                  (replicate (k * n) x00) 0 (replicate n x00)) as Hdst.
    rewrite Hpre in Hdst.
    replace (Z.of_nat y * (4 * Z.of_nat wn))
      with (Z.of_nat (y * n + 0 * n)) by (unfold n; lia).
    replace ((Z.of_nat y + 1) * (4 * Z.of_nat wn))
      with (Z.of_nat (y * n + (0 + 1) * n)) by (unfold n; lia).
    rewrite Hdst; [|by repeat constructor; rewrite length_replicate|done].
    cbn [mbind option_bind].
    (* the row of the DIB *)
    pose proof (sub_row n (swizzle <$> reverse rows) hdr []
                  (length rows - 1 - y) (swizzle row) Hall') as Hsrc.
    rewrite app_nil_r in Hsrc. fold dib in Hsrc.
    replace (Z.of_nat (length hdr)
             + (Z.of_nat (length rows) - 1 - Z.of_nat y) * (4 * Z.of_nat wn))
      with (Z.of_nat (length hdr + (length rows - 1 - y) * n))
      by (unfold n; nia).
    replace (Z.of_nat (length hdr + (length rows - 1 - y) * n) + Z.of_nat wn * 4)
      with (Z.of_nat (length hdr + (length rows - 1 - y + 1) * n))
      by (unfold n; nia).
    rewrite Hsrc.
    2:{ rewrite list_lookup_fmap, reverse_lookup by lia.
        replace (length rows - S (length rows - 1 - y))%nat with y by lia.
        by rewrite Hrow. }
    cbn [mbind option_bind]. rewrite Nat2Z.id.
    destruct (swizzle_spec wn row Hrowlen) as [Hsl Hss].
    pose proof (swapPixels_spec wn 0 [] (swizzle row) [] [] (replicate n x00) [])
      as Hswap.
    cbn [app] in Hswap. rewrite !app_nil_r in Hswap.
    rewrite Hswap, Hss; [|lia|lia|done|done|done|by rewrite length_replicate].
    cbn [mbind option_bind].
    (* written back *)
    assert (Slice.write
              (concat (take y rows) ++ concat [replicate n x00]
               ++ replicate (k * n) x00) (Z.of_nat (y * n + 0 * n)) row
            = concat (take (S y) rows) ++ replicate (k * n) x00) as ->.
    { unfold Slice.write. rewrite Nat2Z.id.
      replace (y * n + 0 * n)%nat with (length (concat (take y rows))) by lia.
      rewrite take_app_length, drop_app_add. cbn [concat]. rewrite app_nil_r.
      replace (length row) with (length (replicate n x00))
        by (rewrite length_replicate; lia).
      rewrite drop_app_length.
      rewrite (take_S_r _ _ _ Hrow), concat_app. cbn [concat].
      by rewrite app_nil_r, <- app_assoc. }
    replace (Z.of_nat y + 1) with (Z.of_nat (S y)) by lia.
    apply IH. lia.
Qed.

End DIBRoundTrip.

Section DIBToPNGFacts.

Variable pngEncode : image.RGBA -> option (list byte).

Lemma Uint32_range b v :
  LittleEndian.Uint32 b = Some v -> 0 <= v < 2 ^ 32.
Proof.
  destruct b as [|b0 [|b1 [|b2 [|b3 rest]]]]; try done.
  unfold LittleEndian.Uint32. intros [= <-].
  pose proof (byte_val_range b0). pose proof (byte_val_range b1).
  pose proof (byte_val_range b2). pose proof (byte_val_range b3).
  rewrite !Z.shiftl_mul_pow2 by lia.
  rewrite (lor_add_disjoint (Sha256.byte_val b2 * 2 ^ 16) _ 24);
    [|lia|lia|lia|Z.div_mod_to_equations; lia].
  rewrite (lor_add_disjoint (Sha256.byte_val b1 * 2 ^ 8) _ 16);
    [|lia|lia|lia|Z.div_mod_to_equations; lia].
  rewrite (lor_add_disjoint (Sha256.byte_val b0) _ 8);
    [|lia|lia|lia|Z.div_mod_to_equations; lia].
  lia.
Qed.

Lemma Uint32_total (dib : list byte) i :
  0 <= i -> i + 4 <= GoInt.len dib ->
  is_Some (LittleEndian.Uint32 (GoInt.slice dib i (i + 4))).
Proof.
  intros Hi Hlen. unfold GoInt.slice, GoInt.len in *.
  replace (i + 4 - i) with 4 by lia.
  assert (4 <= length (drop (Z.to_nat i) dib))%nat as Hd
    by (rewrite length_drop; lia).
  destruct (drop (Z.to_nat i) dib) as [|b0 [|b1 [|b2 [|b3 rest]]]];
    cbn [length] in Hd; try lia.
  by eexists.
Qed.

Lemma Uint16_total (dib : list byte) i :
  0 <= i -> i + 2 <= GoInt.len dib ->
  is_Some (LittleEndian.Uint16 (GoInt.slice dib i (i + 2))).
Proof.
  intros Hi Hlen. unfold GoInt.slice, GoInt.len in *.
  replace (i + 2 - i) with 2 by lia.
  assert (2 <= length (drop (Z.to_nat i) dib))%nat as Hd
    by (rewrite length_drop; lia).
  destruct (drop (Z.to_nat i) dib) as [|b0 [|b1 rest]];
    cbn [length] in Hd; try lia.
  by eexists.
Qed.

(** [DIBToPNG] past its checks of the header. *)
Lemma DIBToPNG_header dib biSize w h :
  LittleEndian.Uint32 (GoInt.slice dib 0 4) = Some biSize ->
  LittleEndian.Uint32 (GoInt.slice dib 4 8) = Some w ->
  LittleEndian.Uint32 (GoInt.slice dib 8 12) = Some h ->
  LittleEndian.Uint16 (GoInt.slice dib 14 16) = Some 32 ->
  40 <= biSize <= GoInt.len dib ->
  DIBToPNG pngEncode dib
  = rgba ← image.NewRGBA w h;
    pix ← pngRows dib (h >? 0) w h (dibStride w) biSize (image.Stride rgba)
           (Z.to_nat h) 0 (image.Pix rgba);
    Some (pngEncode (image.mkRGBA w h (image.Stride rgba) pix)).
Proof.
  intros Hsize Hw Hh Hbits Hlen. unfold DIBToPNG.
  destruct (Z.ltb_spec (GoInt.len dib) 40); [lia|].
  rewrite Hsize. cbn [mbind option_bind].
  destruct (Z.ltb_spec biSize 40); [lia|].
  rewrite Hw, Hh, Hbits. cbn [mbind option_bind negb Z.eqb Pos.eqb].
  apply Uint32_range in Hh.
  destruct (Z.ltb_spec h 0); [lia|].
  destruct (Z.ltb_spec (GoInt.len dib) biSize); [lia|]. done.
Qed.

Lemma sub_some (l : list byte) i j :
  0 <= i <= j -> j <= GoInt.len l ->
  Slice.sub l i j = Some (GoInt.slice l i j)
  /\ length (GoInt.slice l i j) = Z.to_nat (j - i).
Proof.
  intros Hij Hj. unfold Slice.sub, GoInt.slice, GoInt.len in *.
  destruct (Z.leb_spec 0 i); [|lia]. destruct (Z.leb_spec i j); [|lia].
  destruct (Z.leb_spec j (Z.of_nat (length l))); [|lia].
  split; [done|]. rewrite length_take, length_drop. lia.
Qed.

Lemma write_length (l : list byte) i row :
  0 <= i -> (Z.to_nat i + length row <= length l)%nat ->
  length (Slice.write l i row) = length l.
Proof.
  intros Hi Hlen. unfold Slice.write.
  rewrite !length_app, length_take, length_drop. lia.
Qed.

(** The row loop of [DIBToPNG] stays within its slices as long as the
    offsets fit an [int]: it ends, at the last row or at the [break], with
    as many pixels as it started with. *)
Lemma pngRows_total dib (wn hn : nat) off :
  0 <= off ->
  off + 4 * Z.of_nat wn * Z.of_nat hn + 3 <= GoInt.MaxInt ->
  4 * Z.of_nat wn + 3 <= GoInt.MaxInt ->
  Z.of_nat hn <= GoInt.MaxInt ->
  forall (k y : nat) pix, (y + k = hn)%nat ->
  length pix = (4 * wn * hn)%nat ->
  exists pix',
    pngRows dib true (Z.of_nat wn) (Z.of_nat hn) (4 * Z.of_nat wn) off
      (4 * Z.of_nat wn) k (Z.of_nat y) pix = Some pix'
    /\ length pix' = length pix.
Proof.
  intros Hoff Hmax Hmax4 Hmaxh.
  induction k as [|k IH]; intros y pix Hy Hpix.
  - by exists pix.
  - cbn [pngRows].
    unfold GoArith.mul, GoArith.sub, GoInt.add.
    rewrite (wrap_small (Z.of_nat hn - 1)) by lia.
    rewrite (wrap_small (Z.of_nat hn - 1 - Z.of_nat y)) by lia.
    rewrite (wrap_small (_ * (4 * Z.of_nat wn))) by nia.
    rewrite (wrap_small (Z.of_nat wn * 4)) by nia.
    rewrite (wrap_small (off + _)) by nia.
    rewrite (wrap_small (off + _ + _)) by nia.
    rewrite (wrap_small (Z.of_nat y + 1)) by lia.
    rewrite (wrap_small (Z.of_nat y * _)) by nia.
    rewrite (wrap_small ((Z.of_nat y + 1) * _)) by nia.
    destruct (Z.gtb_spec
                (off + (Z.of_nat hn - 1 - Z.of_nat y) * (4 * Z.of_nat wn)
                 + Z.of_nat wn * 4) (GoInt.len dib)) as [Hbreak|Hin].
    { by exists pix. }
    destruct (sub_some pix (Z.of_nat y * (4 * Z.of_nat wn))
                ((Z.of_nat y + 1) * (4 * Z.of_nat wn))) as [-> Hdst].
    { nia. } { unfold GoInt.len. nia. }
    destruct (sub_some dib
                (off + (Z.of_nat hn - 1 - Z.of_nat y) * (4 * Z.of_nat wn))
                (off + (Z.of_nat hn - 1 - Z.of_nat y) * (4 * Z.of_nat wn)
                 + Z.of_nat wn * 4)) as [-> Hsrc].
    { nia. } { lia. }
    cbn [mbind option_bind]. rewrite Nat2Z.id.
    pose proof (swapPixels_spec wn 0 [] (GoInt.slice dib _ _) [] []
                  (GoInt.slice pix _ _) [] ltac:(lia) ltac:(lia) eq_refl eq_refl
                  ltac:(rewrite Hsrc; lia) ltac:(rewrite Hdst; lia)) as Hswap.
    cbn [app] in Hswap. rewrite !app_nil_r in Hswap. rewrite Hswap.
    cbn [mbind option_bind].
    replace (Z.of_nat y + 1) with (Z.of_nat (S y)) by lia.
    destruct (swizzle_spec wn (GoInt.slice dib
                (off + (Z.of_nat hn - 1 - Z.of_nat y) * (4 * Z.of_nat wn))
                (off + (Z.of_nat hn - 1 - Z.of_nat y) * (4 * Z.of_nat wn)
                 + Z.of_nat wn * 4))) as [Hsl _]; [rewrite Hsrc; lia|].
    destruct (IH (S y) (Slice.write pix (Z.of_nat y * (4 * Z.of_nat wn))
                          (swizzle (GoInt.slice dib
                (off + (Z.of_nat hn - 1 - Z.of_nat y) * (4 * Z.of_nat wn))
                (off + (Z.of_nat hn - 1 - Z.of_nat y) * (4 * Z.of_nat wn)
                 + Z.of_nat wn * 4))))) as (pix' & -> & Hlen'); [lia| |].
    { rewrite write_length; [done|nia|]. rewrite Hsl. nia. }
    exists pix'. split; [done|]. rewrite Hlen'.
    apply write_length; [nia|]. rewrite Hsl. nia.
Qed.

End DIBToPNGFacts.

Section DIBLayout.

Lemma lookup_concat_rows n (rows : list (list byte)) : forall (k j : nat) row,
  Forall (fun r => length r = n) rows ->
  rows !! k = Some row -> (j < n)%nat ->
  concat rows !! (k * n + j)%nat = row !! j.
Proof.
  induction rows as [|r rows IH]; intros k j row Hall Hk Hj; [done|].
  apply Forall_cons in Hall as [Hr Hall]. cbn [concat].
  destruct k as [|k].
  - injection Hk as ->. cbn [Nat.mul Nat.add]. apply lookup_app_l. lia.
  - rewrite lookup_app_r by (rewrite Hr; lia).
    replace (S k * n + j - length r)%nat with (k * n + j)%nat by (rewrite Hr; lia).
    by apply IH.
Qed.

Lemma swizzle_lookup n : forall row (x : nat),
  length row = (4 * n)%nat -> (x < n)%nat ->
  swizzle row !! (4 * x)%nat = row !! (4 * x + 2)%nat
  /\ swizzle row !! (4 * x + 1)%nat = row !! (4 * x + 1)%nat
  /\ swizzle row !! (4 * x + 2)%nat = row !! (4 * x)%nat
  /\ swizzle row !! (4 * x + 3)%nat = row !! (4 * x + 3)%nat.
Proof.
  induction n as [|n IH]; intros row x Hlen Hx; [lia|].
  destruct row as [|r [|g [|b [|a row]]]]; cbn [length] in Hlen; try lia.
  cbn [swizzle]. destruct x as [|x]; [done|].
  replace (4 * S x)%nat with (S (S (S (S (4 * x))))) by lia.
  cbn [Nat.add]. rewrite !lookup_cons. apply IH; lia.
Qed.

End DIBLayout.

Section DIBTheorems.

Variable pngEncode : image.RGBA -> option (list byte).

(** [DIBToPNG] undoes [ImageToDIB]: the bitmap written for an image is
    read back as the very image that is handed to [png.Encode], for every
    image whose bitmap has a length that fits an [int]. *)
Theorem DIBToPNG_reads_back_what_ImageToDIB_wrote rgba :
  wellFormed rgba ->
  image.Dx rgba < 2 ^ 32 -> image.Dy rgba < 2 ^ 32 ->
  4 * image.Dx rgba * image.Dy rgba + 43 <= GoInt.MaxInt ->
  exists dib,
    ImageToDIB rgba = Some dib
    /\ GoInt.len dib = 40 + 4 * image.Dx rgba * image.Dy rgba
    /\ DIBToPNG pngEncode dib = Some (pngEncode rgba).
Proof.
  intros Hwf Hw32 Hh32 Hmax.
  pose proof (ImageToDIB_spec rgba Hwf Hw32 Hh32) as Hdib.
  destruct (wellFormed_rows rgba Hwf)
    as (wn & rows & Hw & Hh & Hpix & Hrows & Hall).
  destruct Hwf as (Hw0 & Hh0 & Hstride & Hlen & Hmax0).
  replace (Z.to_nat (4 * image.Dx rgba)) with (4 * wn)%nat in Hdib by lia.
  replace (Z.to_nat (image.Dy rgba)) with (length rows) in Hdib by lia.
  rewrite <- Hrows in Hdib.
  pose proof (swizzled_rows_length wn rows Hall) as Hall'.
  eexists. split; [exact Hdib|].
  assert (GoInt.len (dibHeader (image.Dx rgba) (image.Dy rgba)
                       (4 * image.Dx rgba)
                     ++ concat (swizzle <$> reverse rows))
          = 40 + 4 * image.Dx rgba * image.Dy rgba) as Hlendib.
  { unfold GoInt.len. rewrite length_app, dibHeader_length.
    rewrite (concat_rows_length (4 * wn) _ Hall'), length_fmap, length_reverse.
    nia. }
  split; [exact Hlendib|].
  destruct (dibHeader_fields (image.Dx rgba) (image.Dy rgba)
              (4 * image.Dx rgba) (concat (swizzle <$> reverse rows)))
    as (Hf0 & Hf1 & Hf2 & Hf3); [lia|lia|].
  rewrite (DIBToPNG_header pngEncode _ 40 (image.Dx rgba) (image.Dy rgba));
    [|done|done|done|done|lia].
  unfold image.NewRGBA.
  destruct (Z.ltb_spec (image.Dx rgba) 0); [lia|].
  destruct (Z.ltb_spec (image.Dy rgba) 0); [lia|].
  destruct (Z.gtb_spec (4 * image.Dx rgba * image.Dy rgba) GoInt.MaxInt);
    [lia|].
  cbn [orb mbind option_bind image.Stride image.Pix].
  assert (4 * image.Dx rgba + 3 <= GoInt.MaxInt) as Hmax4
    by (rewrite MaxInt_val; lia).
  rewrite dibStride_width by done.
  pose proof (pngRows_spec (dibHeader (image.Dx rgba) (image.Dy rgba)
                              (4 * image.Dx rgba)) wn rows Hall) as Hloop.
  cbn zeta in Hloop. rewrite dibHeader_length in Hloop.
  change (Z.of_nat 40) with 40 in Hloop.
  rewrite <- Hw, <- Hh in Hloop.
  specialize (Hloop ltac:(lia) ltac:(rewrite MaxInt_val; lia)
                (length rows) 0%nat eq_refl).
  rewrite take_0 in Hloop. cbn [concat app] in Hloop. change (Z.of_nat 0) with 0 in Hloop.
  replace (Z.to_nat (4 * image.Dx rgba * image.Dy rgba))
    with (length rows * (4 * wn))%nat by nia.
  replace (Z.to_nat (image.Dy rgba)) with (length rows) by lia.
  destruct (Z.gtb_spec (image.Dy rgba) 0) as [Hpos|Hzero].
  - rewrite Hloop. cbn [mbind option_bind]. rewrite <- Hpix, <- Hstride.
    by destruct rgba.
  - assert (rows = []) as -> by (apply nil_length_inv; lia).
    cbn [length pngRows Nat.mul replicate mbind option_bind].
    cbn [concat] in Hpix. rewrite <- Hpix, <- Hstride. by destruct rgba.
Qed.



End DIBTheorems.

Section DIBLayoutTheorem.

(** What [ImageToDIB] writes for an image: a header of 40 bytes that holds
    40, the width, the height and 32 bits per pixel, then four bytes per
    pixel and no padding, the rows from the last to the first, and in every
    pixel blue, green, red, alpha. *)
Theorem ImageToDIB_writes_rows_bottom_up_as_BGRA rgba :
  wellFormed rgba ->
  image.Dx rgba < 2 ^ 32 -> image.Dy rgba < 2 ^ 32 ->
  exists dib,
    ImageToDIB rgba = Some dib
    /\ GoInt.len dib = 40 + 4 * image.Dx rgba * image.Dy rgba
    /\ LittleEndian.Uint32 (GoInt.slice dib 0 4) = Some 40
    /\ LittleEndian.Uint32 (GoInt.slice dib 4 8) = Some (image.Dx rgba)
    /\ LittleEndian.Uint32 (GoInt.slice dib 8 12) = Some (image.Dy rgba)
    /\ LittleEndian.Uint16 (GoInt.slice dib 14 16) = Some 32
    /\ forall x y, 0 <= x < image.Dx rgba -> 0 <= y < image.Dy rgba ->
         let src := Z.to_nat (4 * (y * image.Dx rgba + x)) in
         let dst :=
           Z.to_nat (40 + 4 * ((image.Dy rgba - 1 - y) * image.Dx rgba + x)) in
         dib !! dst = image.Pix rgba !! (src + 2)%nat
         /\ dib !! (dst + 1)%nat = image.Pix rgba !! (src + 1)%nat
         /\ dib !! (dst + 2)%nat = image.Pix rgba !! src
         /\ dib !! (dst + 3)%nat = image.Pix rgba !! (src + 3)%nat.
Proof.
  intros Hwf Hw32 Hh32.
  pose proof (ImageToDIB_spec rgba Hwf Hw32 Hh32) as Hdib.
  destruct (wellFormed_rows rgba Hwf)
    as (wn & rows & Hw & Hh & Hpix & Hrows & Hall).
  destruct Hwf as (Hw0 & Hh0 & Hstride & Hlen & Hmax0).
  replace (Z.to_nat (4 * image.Dx rgba)) with (4 * wn)%nat in Hdib by lia.
  replace (Z.to_nat (image.Dy rgba)) with (length rows) in Hdib by lia.
  rewrite <- Hrows in Hdib.
  pose proof (swizzled_rows_length wn rows Hall) as Hall'.
  eexists. split; [exact Hdib|]. split.
  { unfold GoInt.len. rewrite length_app, dibHeader_length.
    rewrite (concat_rows_length (4 * wn) _ Hall'), length_fmap, length_reverse.
    nia. }
  destruct (dibHeader_fields (image.Dx rgba) (image.Dy rgba)
              (4 * image.Dx rgba) (concat (swizzle <$> reverse rows)))
    as (Hf0 & Hf1 & Hf2 & Hf3); [lia|lia|].
  do 4 (split; [done|]).
  intros x y Hx Hy src dst.
  destruct (rows !! Z.to_nat y) as [row|] eqn:Hrow.
  2:{ apply lookup_ge_None in Hrow. lia. }
  assert (length row = (4 * wn)%nat) as Hrowlen
    by by eapply (proj1 (Forall_lookup _ _) Hall).
  assert ((swizzle <$> reverse rows) !! (length rows - 1 - Z.to_nat y)%nat
          = Some (swizzle row)) as Hrow'.
  { rewrite list_lookup_fmap, reverse_lookup by lia.
    replace (length rows - S (length rows - 1 - Z.to_nat y))%nat
      with (Z.to_nat y) by lia.
    by rewrite Hrow. }
  assert (0 <= (image.Dy rgba - 1 - y) * image.Dx rgba) as Hp1 by nia.
  assert (0 <= y * image.Dx rgba) as Hp2 by nia.
  assert (dst = 40 + ((length rows - 1 - Z.to_nat y) * (4 * wn)
                      + 4 * Z.to_nat x))%nat as Hdstv.
  { unfold dst.
    replace (image.Dy rgba - 1 - y)
      with (Z.of_nat (length rows - 1 - Z.to_nat y)) in * by lia.
    replace x with (Z.of_nat (Z.to_nat x)) at 1 by lia.
    rewrite Hw. lia. }
  assert (src = Z.to_nat y * (4 * wn) + 4 * Z.to_nat x)%nat as Hsrcv.
  { unfold src.
    replace y with (Z.of_nat (Z.to_nat y)) at 1 by lia.
    replace x with (Z.of_nat (Z.to_nat x)) at 1 by lia.
    rewrite Hw. lia. }
  clearbody src dst. subst src dst.
  assert (forall c : nat, (c < 4)%nat ->
            (dibHeader (image.Dx rgba) (image.Dy rgba) (4 * image.Dx rgba)
             ++ concat (swizzle <$> reverse rows))
              !! (40 + ((length rows - 1 - Z.to_nat y) * (4 * wn)
                        + 4 * Z.to_nat x) + c)%nat
            = swizzle row !! (4 * Z.to_nat x + c)%nat) as Hdst.
  { intros c Hc. rewrite lookup_app_r by (rewrite dibHeader_length; lia).
    rewrite dibHeader_length.
    replace (40 + ((length rows - 1 - Z.to_nat y) * (4 * wn)
                   + 4 * Z.to_nat x) + c - 40)%nat
      with ((length rows - 1 - Z.to_nat y) * (4 * wn) + (4 * Z.to_nat x + c))%nat
      by lia.
    apply (lookup_concat_rows (4 * wn)); [done|done|lia]. }
  assert (forall c : nat, (c < 4)%nat ->
            image.Pix rgba !! (Z.to_nat y * (4 * wn) + 4 * Z.to_nat x + c)%nat
            = row !! (4 * Z.to_nat x + c)%nat) as Hsrc.
  { intros c Hc. rewrite Hpix, <- Nat.add_assoc.
    apply (lookup_concat_rows (4 * wn)); [done|done|lia]. }
  destruct (swizzle_lookup wn row (Z.to_nat x) Hrowlen ltac:(lia))
    as (H0 & H1 & H2 & H3).
  pose proof (Hdst 0%nat ltac:(lia)) as Hd0.
  pose proof (Hsrc 0%nat ltac:(lia)) as Hs0.
  rewrite !Nat.add_0_r in Hd0, Hs0.
  rewrite Hd0, Hs0, !Hdst, !Hsrc by lia. done.
Qed.

End DIBLayoutTheorem.

Lemma checker_wellFormed : wellFormed checker.
Proof. repeat split; vm_compute; congruence. Qed.

Lemma DIBToPNG_reads_back_what_ImageToDIB_wrote_witness :
  exists dib,
    ImageToDIB checker = Some dib
    /\ GoInt.len dib = 40 + 4 * image.Dx checker * image.Dy checker
    /\ DIBToPNG rawEncode dib = Some (rawEncode checker).
Proof.
  apply (DIBToPNG_reads_back_what_ImageToDIB_wrote rawEncode checker
           checker_wellFormed); vm_compute; congruence.
Defined.



Lemma ImageToDIB_writes_rows_bottom_up_as_BGRA_witness :
  exists dib,
    ImageToDIB checker = Some dib
    /\ GoInt.len dib = 40 + 4 * image.Dx checker * image.Dy checker
    /\ LittleEndian.Uint32 (GoInt.slice dib 0 4) = Some 40
    /\ LittleEndian.Uint32 (GoInt.slice dib 4 8) = Some (image.Dx checker)
    /\ LittleEndian.Uint32 (GoInt.slice dib 8 12) = Some (image.Dy checker)
    /\ LittleEndian.Uint16 (GoInt.slice dib 14 16) = Some 32
    /\ forall x y, 0 <= x < image.Dx checker -> 0 <= y < image.Dy checker ->
         let src := Z.to_nat (4 * (y * image.Dx checker + x)) in
         let dst :=
           Z.to_nat (40 + 4 * ((image.Dy checker - 1 - y) * image.Dx checker
                               + x)) in
         dib !! dst = image.Pix checker !! (src + 2)%nat
         /\ dib !! (dst + 1)%nat = image.Pix checker !! (src + 1)%nat
         /\ dib !! (dst + 2)%nat = image.Pix checker !! src
         /\ dib !! (dst + 3)%nat = image.Pix checker !! (src + 3)%nat.
Proof.
  apply (ImageToDIB_writes_rows_bottom_up_as_BGRA checker checker_wellFormed);
    vm_compute; congruence.
Defined.

(** The bitmap of [checker] short of one byte, and the top-down one: no
    pixel of either is read. *)
Example DIBToPNG_truncated :
  DIBToPNG rawEncode truncatedChecker = Some (Some (replicate 16 x00)).
Proof. vm_compute. reflexivity. Qed.

(** * The clipboard thread: clip.go *)

Section ClipFacts.

Context {World : Type}.
Variable OpenClipboard : World -> World * Z.
Variable CloseClipboard : World -> World.
Variable EmptyClipboard : World -> World.
Variable SetClipboardData : World -> Z -> list byte -> World * Z.
Variable IsClipboardFormatAvailable : World -> Z -> Z.
Variable GetClipboardData : World -> Z -> option (list byte).
Variable GetLastError : World -> error.
Variable clock : World -> Z.
Variable SleepFor : Z -> World -> World.
Variable fmtIDPng fmtIDImagePng : Z.
Variable pngDecode : list byte -> image.RGBA + error.
Variable pngEncode : image.RGBA -> option (list byte).
Variable UTF16FromString : string -> list Z.
Variable UTF16ToString : list Z -> string.

Lemma writeItems_passedOver items : forall w,
  Forall (passedOver fmtIDPng fmtIDImagePng) items ->
  writeItems SetClipboardData GetLastError fmtIDPng fmtIDImagePng pngDecode
    UTF16FromString items w = Some (w, None, []).
Proof.
  induction items as [|it items IH]; intros w Hall; [done|].
  apply Forall_cons in Hall as [Hit Hall]. cbn [writeItems].
  destruct (String.eqb_spec (Payload it) "") as [|Hne]; [by apply IH|].
  destruct Hit as [|(H1 & H2 & H3)]; [done|].
  destruct (Z.eqb_spec (Fmt it) CF_UNICODETEXT); [done|].
  destruct (Z.eqb_spec (Fmt it) fmtIDPng); [done|].
  destruct (Z.eqb_spec (Fmt it) fmtIDImagePng); [done|].
  cbn [orb mbind option_bind]. rewrite IH by done. done.
Qed.

Lemma writeItems_app items1 : forall items2 w,
  Forall (passedOver fmtIDPng fmtIDImagePng) items1 ->
  writeItems SetClipboardData GetLastError fmtIDPng fmtIDImagePng pngDecode
    UTF16FromString (items1 ++ items2) w
  = writeItems SetClipboardData GetLastError fmtIDPng fmtIDImagePng pngDecode
      UTF16FromString items2 w.
Proof.
  induction items1 as [|it items IH]; intros items2 w Hall; [done|].
  apply Forall_cons in Hall as [Hit Hall]. cbn [writeItems app].
  destruct (String.eqb_spec (Payload it) "") as [|Hne]; [by apply IH|].
  destruct Hit as [|(H1 & H2 & H3)]; [done|].
  destruct (Z.eqb_spec (Fmt it) CF_UNICODETEXT); [done|].
  destruct (Z.eqb_spec (Fmt it) fmtIDPng); [done|].
  destruct (Z.eqb_spec (Fmt it) fmtIDImagePng); [done|].
  cbn [orb mbind option_bind]. rewrite IH by done.
  by destruct (writeItems _ _ _ _ _ _ items2 w) as [[[w' err] puts]|].
Qed.

(** The bytes of a string, back as a string. *)
Lemma string_of_bytes_of_string s :
  string_of_list_byte (list_byte_of_string s) = s.
Proof. apply string_of_list_byte_of_string. Qed.

Lemma writeItems_text s w :
  s <> "" ->
  writeItems SetClipboardData GetLastError fmtIDPng fmtIDImagePng pngDecode
    UTF16FromString
    [mkItem CF_UNICODETEXT (base64 (list_byte_of_string s))
       (Z.of_nat (String.length s)) "CF_UNICODETEXT" "text/plain"] w
  = (let '(w', err, puts) :=
       putText SetClipboardData GetLastError UTF16FromString s w in
     Some (w', err, puts)).
Proof.
  intros Hs. cbn [writeItems Payload Fmt].
  destruct (String.eqb_spec (base64 (list_byte_of_string s)) "") as [He|_].
  { apply base64_empty in He. destruct s; [done|discriminate]. }
  rewrite DecodeString_base64. cbn [fst]. rewrite string_of_bytes_of_string.
  change (CF_UNICODETEXT =? CF_UNICODETEXT) with true. cbn [mbind option_bind].
  destruct (putText _ _ _ s w) as [[w' [e|]] puts]; [done|].
  by rewrite app_nil_r.
Qed.

(** The items [readSnapshot] gathers when the clipboard is open. *)
Lemma readSnapshot_open fuel w wo :
  openCB OpenClipboard clock SleepFor fuel w = Some (wo, None) ->
  readSnapshot OpenClipboard CloseClipboard IsClipboardFormatAvailable
    GetClipboardData clock SleepFor fmtIDPng fmtIDImagePng pngEncode
    UTF16ToString fuel w
  = (items ←
       match tryFormat IsClipboardFormatAvailable GetClipboardData fmtIDPng
               "PNG" "image/png" wo with
       | Some it => Some [it]
       | None =>
           match tryFormat IsClipboardFormatAvailable GetClipboardData
                   fmtIDImagePng "image/png" "image/png" wo with
           | Some it => Some [it]
           | None =>
               if isAvail IsClipboardFormatAvailable wo CF_DIB then
                 it ← readDIBAsPNG GetClipboardData pngEncode wo;
                 Some (appendItem [] it)
               else Some []
           end
       end;
     items ←
       (if isAvail IsClipboardFormatAvailable wo CF_UNICODETEXT then
          it ← readText GetClipboardData UTF16ToString wo;
          Some (appendItem items it)
        else Some items);
     Some (CloseClipboard wo,
           if GoInt.len items =? 0 then inr ErrUnsupportedFormat
           else inl items)).
Proof. intros Hopen. unfold readSnapshot. by rewrite Hopen. Qed.

Lemma tryFormat_item fmt fmtName mimeType w it :
  tryFormat IsClipboardFormatAvailable GetClipboardData fmt fmtName mimeType w
  = Some it ->
  fmt <> 0
  /\ exists data,
       GetClipboardData w fmt = Some data
       /\ it = mkItem fmt (base64 data) (GoInt.len data) fmtName mimeType.
Proof.
  unfold tryFormat. destruct (Z.eqb_spec fmt 0); [done|].
  destruct (isAvail _ w fmt); [|done]. cbn [negb orb].
  destruct (GetClipboardData w fmt) as [data|]; [|done].
  intros [= <-]. eauto.
Qed.

Lemma readDIBAsPNG_item w it :
  readDIBAsPNG GetClipboardData pngEncode w = Some (Some it) ->
  exists dib png,
    GetClipboardData w CF_DIB = Some dib
    /\ DIBToPNG pngEncode dib = Some (Some png)
    /\ it = mkItem CF_DIB (base64 png) (GoInt.len png) "PNG" "image/png".
Proof.
  unfold readDIBAsPNG. destruct (GetClipboardData w CF_DIB) as [dib|]; [|done].
  destruct (DIBToPNG pngEncode dib) as [[png|]|] eqn:Hpng; try done.
  intros [= <-]. by eexists _, _.
Qed.

Lemma readText_item w it :
  readText GetClipboardData UTF16ToString w = Some (Some it) ->
  exists mem chars,
    GetClipboardData w CF_UNICODETEXT = Some mem
    /\ readChars mem = Some chars
    /\ it = mkItem CF_UNICODETEXT
              (base64 (list_byte_of_string (UTF16ToString chars)))
              (Z.of_nat (String.length (UTF16ToString chars)))
              "CF_UNICODETEXT" "text/plain".
Proof.
  unfold readText.
  destruct (GetClipboardData w CF_UNICODETEXT) as [mem|]; [|done].
  destruct (readChars mem) as [chars|] eqn:Hchars; [|done].
  intros [= <-]. by eexists _, _.
Qed.

(** The loop of [openCB] ends once ten milliseconds per round have added up
    to more than half a second. *)
Lemma openLoop_ends start :
  (forall w, clock w <= clock (OpenClipboard w).1) ->
  (forall d w, clock w + d <= clock (SleepFor d w)) ->
  forall (fuel : nat) w,
    start + 10 * 1000000 * (52 - Z.of_nat fuel) <= clock w ->
    (fuel <= 52)%nat -> (0 < fuel)%nat ->
    exists w' err,
      openLoop OpenClipboard clock SleepFor fuel start w = Some (w', err)
      /\ (err = None
          \/ err = Some ErrClipboardBusy /\ 500 * 1000000 < clock w' - start).
Proof.
  intros Hopen Hsleep. induction fuel as [|fuel IH]; intros w Hclock Hle Hpos;
    [lia|].
  cbn [openLoop]. specialize (Hopen w).
  destruct (OpenClipboard w) as [w1 ret]. cbn [fst] in Hopen.
  destruct (Z.eqb_spec ret 0); cbn [negb]; [|by eauto].
  destruct (Z.gtb_spec (clock w1 - start) (500 * 1000000)); [by eauto 6|].
  destruct fuel as [|fuel]; [lia|].
  apply IH; [|lia|lia]. specialize (Hsleep (10 * 1000000) w1). lia.
Qed.

Lemma openLoop_error fuel : forall start w w' e,
  openLoop OpenClipboard clock SleepFor fuel start w = Some (w', Some e) ->
  e = ErrClipboardBusy.
Proof.
  induction fuel as [|fuel IH]; intros start w w' e; [done|].
  cbn [openLoop]. destruct (OpenClipboard w) as [w1 ret].
  destruct (negb (ret =? 0)); [done|].
  destruct (clock w1 - start >? 500 * 1000000); [by intros [= _ <-]|].
  apply IH.
Qed.

End ClipFacts.

Section ClipTheorems.

Context {World : Type}.
Variable OpenClipboard : World -> World * Z.
Variable CloseClipboard : World -> World.
Variable EmptyClipboard : World -> World.
Variable SetClipboardData : World -> Z -> list byte -> World * Z.
Variable IsClipboardFormatAvailable : World -> Z -> Z.
Variable GetClipboardData : World -> Z -> option (list byte).
Variable GetLastError : World -> error.
Variable clock : World -> Z.
Variable SleepFor : Z -> World -> World.
Variable fmtIDPng fmtIDImagePng : Z.
Variable pngDecode : list byte -> image.RGBA + error.
Variable pngEncode : image.RGBA -> option (list byte).
Variable UTF16FromString : string -> list Z.
Variable UTF16ToString : list Z -> string.

(** [openCB] gives up: when the clock does not run backwards over a call of
    [OpenClipboard] and a sleep lasts at least as long as asked, 52 calls of
    [OpenClipboard] are enough for it to return, with the clipboard open or
    with [ErrClipboardBusy] after more than half a second. *)
Theorem openCB_returns_within_52_attempts w :
  (forall w, clock w <= clock (OpenClipboard w).1) ->
  (forall d w, clock w + d <= clock (SleepFor d w)) ->
  exists w' err,
    openCB OpenClipboard clock SleepFor 52 w = Some (w', err)
    /\ (err = None
        \/ err = Some ErrClipboardBusy
           /\ 500 * 1000000 < clock w' - clock w).
Proof.
  intros Hopen Hsleep. unfold openCB.
  apply (openLoop_ends OpenClipboard clock SleepFor (clock w) Hopen Hsleep);
    lia.
Qed.

(** [writeSnapshot] has a case for three formats only, the text format and
    the two ids registered on this machine.  Given items of other formats,
    or with an empty payload, it empties the clipboard, puts nothing on it
    and returns no error. *)
Theorem writeSnapshot_empties_the_clipboard_for_other_formats
    fuel items w wo :
  Forall (passedOver fmtIDPng fmtIDImagePng) items ->
  openCB OpenClipboard clock SleepFor fuel w = Some (wo, None) ->
  writeSnapshot OpenClipboard CloseClipboard EmptyClipboard SetClipboardData
    GetLastError clock SleepFor fmtIDPng fmtIDImagePng pngDecode
    UTF16FromString fuel items w
  = Some (CloseClipboard (EmptyClipboard wo), None, []).
Proof.
  intros Hall Hopen. unfold writeSnapshot. rewrite Hopen.
  cbn [mbind option_bind]. by rewrite writeItems_passedOver.
Qed.

(** A bitmap that is on the clipboard as CF_DIB only is read by
    [readSnapshot] as an item of the format CF_DIB, and [writeSnapshot] has
    no case for that format: written anywhere, the items put at most the
    text on the clipboard, never the picture. *)
Theorem bitmap_read_from_CF_DIB_is_never_written fuel w wo w1 r it :
  fmtIDPng <> CF_DIB -> fmtIDImagePng <> CF_DIB ->
  openCB OpenClipboard clock SleepFor fuel w = Some (wo, None) ->
  tryFormat IsClipboardFormatAvailable GetClipboardData fmtIDPng
    "PNG" "image/png" wo = None ->
  tryFormat IsClipboardFormatAvailable GetClipboardData fmtIDImagePng
    "image/png" "image/png" wo = None ->
  isAvail IsClipboardFormatAvailable wo CF_DIB = true ->
  readDIBAsPNG GetClipboardData pngEncode wo = Some (Some it) ->
  readSnapshot OpenClipboard CloseClipboard IsClipboardFormatAvailable
    GetClipboardData clock SleepFor fmtIDPng fmtIDImagePng pngEncode
    UTF16ToString fuel w = Some (w1, r) ->
  exists text,
    r = inl (it :: text) /\ Fmt it = CF_DIB
    /\ forall fuel2 w2 wo2,
         openCB OpenClipboard clock SleepFor fuel2 w2 = Some (wo2, None) ->
         exists w3 err puts,
           writeSnapshot OpenClipboard CloseClipboard EmptyClipboard
             SetClipboardData GetLastError clock SleepFor fmtIDPng
             fmtIDImagePng pngDecode UTF16FromString fuel2 (it :: text) w2
           = Some (w3, err, puts)
           /\ Forall (fun p : Put => p.1 = CF_UNICODETEXT) puts.
Proof.
  intros Hpng Himg Hopen Htry1 Htry2 Havail Hdib Hread.
  rewrite (readSnapshot_open _ _ _ _ _ _ _ _ _ _ _ _ _ Hopen) in Hread.
  rewrite Htry1, Htry2, Havail, Hdib in Hread.
  cbn [mbind option_bind appendItem app] in Hread.
  destruct (readDIBAsPNG_item _ _ _ _ Hdib) as (dib & png & _ & _ & Hit).
  assert (Fmt it = CF_DIB) as Hfmt by by rewrite Hit.
  assert (passedOver fmtIDPng fmtIDImagePng it) as Hpass.
  { right. rewrite Hfmt. by repeat split. }
  assert (exists text,
            r = inl (it :: text)
            /\ (text = []
                \/ exists chars,
                     text = [mkItem CF_UNICODETEXT
                               (base64 (list_byte_of_string
                                          (UTF16ToString chars)))
                               (Z.of_nat (String.length (UTF16ToString chars)))
                               "CF_UNICODETEXT" "text/plain"]))
    as (text & -> & Htext).
  { destruct (isAvail _ wo CF_UNICODETEXT).
    - destruct (readText _ _ wo) as [[t|]|] eqn:Ht; [| |done].
      + apply readText_item in Ht as (mem & chars & _ & _ & ->).
        injection Hread as _ <-. eexists. split; [done|]. right. by eexists.
      + injection Hread as _ <-. exists []. by split; [|left].
    - injection Hread as _ <-. exists []. by split; [|left]. }
  exists text. split; [done|]. split; [done|].
  intros fuel2 w2 wo2 Hopen2. unfold writeSnapshot. rewrite Hopen2.
  cbn [mbind option_bind].
  rewrite (writeItems_app _ _ _ _ _ _ [it] text) by by constructor.
  destruct Htext as [->|[chars ->]].
  - cbn [writeItems]. by eexists _, _, _.
  - destruct (String.eqb_spec (UTF16ToString chars) "") as [He|Hne].
    + rewrite writeItems_passedOver.
      * by eexists _, _, _.
      * constructor; [|done]. left. cbn [Payload]. by rewrite He.
    + rewrite writeItems_text by done. unfold putText.
      destruct (SetClipboardData _ _ _) as [w3 ret].
      eexists _, _, _. split; [done|]. by constructor.
Qed.



(** What [readSnapshot] returns: never an empty list without an error, but
    one or two items, at most one picture, of the first of the formats PNG,
    image/png and CF_DIB that can be read, and after it at most one text;
    and no error but [ErrClipboardBusy] and [ErrUnsupportedFormat]. *)
Theorem readSnapshot_returns_a_picture_and_a_text_at_most fuel w w' r :
  readSnapshot OpenClipboard CloseClipboard IsClipboardFormatAvailable
    GetClipboardData clock SleepFor fmtIDPng fmtIDImagePng pngEncode
    UTF16ToString fuel w = Some (w', r) ->
  match r with
  | inl items =>
      exists picture text,
        items = picture ++ text /\ items <> []
        /\ (length picture <= 1)%nat /\ (length text <= 1)%nat
        /\ Forall (fun it => Fmt it = fmtIDPng \/ Fmt it = fmtIDImagePng
                             \/ Fmt it = CF_DIB) picture
        /\ Forall (fun it => Fmt it = CF_UNICODETEXT) text
  | inr e => e = ErrClipboardBusy \/ e = ErrUnsupportedFormat
  end.
Proof.
  intros Hread.
  destruct (openCB OpenClipboard clock SleepFor fuel w) as [[wo [e|]]|] eqn:Hopen.
  - unfold readSnapshot in Hread. rewrite Hopen in Hread.
    injection Hread as _ <-. left.
    apply (openLoop_error OpenClipboard clock SleepFor _ _ _ _ _ Hopen).
  - rewrite (readSnapshot_open _ _ _ _ _ _ _ _ _ _ _ _ _ Hopen) in Hread.
    assert (forall (picture : list Item),
              (length picture <= 1)%nat ->
              Forall (fun it => Fmt it = fmtIDPng \/ Fmt it = fmtIDImagePng
                                \/ Fmt it = CF_DIB) picture ->
              (items ←
                 (if isAvail IsClipboardFormatAvailable wo CF_UNICODETEXT then
                    it ← readText GetClipboardData UTF16ToString wo;
                    Some (appendItem picture it)
                  else Some picture);
               Some (CloseClipboard wo,
                     if GoInt.len items =? 0 then inr ErrUnsupportedFormat
                     else inl items)) = Some (w', r) ->
              match r with
              | inl items =>
                  exists picture text,
                    items = picture ++ text /\ items <> []
                    /\ (length picture <= 1)%nat /\ (length text <= 1)%nat
                    /\ Forall (fun it => Fmt it = fmtIDPng
                                         \/ Fmt it = fmtIDImagePng
                                         \/ Fmt it = CF_DIB) picture
                    /\ Forall (fun it => Fmt it = CF_UNICODETEXT) text
              | inr e => e = ErrClipboardBusy \/ e = ErrUnsupportedFormat
              end) as Hrest.
    { intros picture Hlen Hall Hr.
      assert (exists text,
                (length text <= 1)%nat
                /\ Forall (fun it => Fmt it = CF_UNICODETEXT) text
                /\ Some (CloseClipboard wo,
                         if GoInt.len (picture ++ text) =? 0
                         then inr ErrUnsupportedFormat
                         else inl (picture ++ text)) = Some (w', r))
        as (text & Htl & Htf & Hr').
      { destruct (isAvail _ wo CF_UNICODETEXT).
        - destruct (readText _ _ wo) as [[t|]|] eqn:Ht; [| |done].
          + apply readText_item in Ht as (mem & chars & _ & _ & ->).
            eexists [_]. split; [done|]. split; [|exact Hr]. by constructor.
          + exists []. rewrite app_nil_r. split; [cbn; lia|]. split; [done|exact Hr].
        - exists []. rewrite app_nil_r. split; [cbn; lia|]. split; [done|exact Hr]. }
      injection Hr' as _ <-.
      destruct (Z.eqb_spec (GoInt.len (picture ++ text)) 0) as [|Hne];
        [by right|].
      exists picture, text. split; [done|]. split; [|done].
      intros He. apply Hne. by rewrite He. }
    destruct (tryFormat _ _ fmtIDPng _ _ wo) as [it1|] eqn:H1.
    { apply tryFormat_item in H1 as (_ & data & _ & ->).
      cbn [mbind option_bind] in Hread.
      refine (Hrest [_] _ _ Hread); [done|]. constructor; [by left|done]. }
    destruct (tryFormat _ _ fmtIDImagePng _ _ wo) as [it2|] eqn:H2.
    { apply tryFormat_item in H2 as (_ & data & _ & ->).
      cbn [mbind option_bind] in Hread.
      refine (Hrest [_] _ _ Hread); [done|].
      constructor; [by right; left|done]. }
    destruct (isAvail _ wo CF_DIB).
    + destruct (readDIBAsPNG _ _ wo) as [[it3|]|] eqn:H3; [| |done].
      * apply readDIBAsPNG_item in H3 as (dib & png & _ & _ & ->).
        cbn [mbind option_bind appendItem app] in Hread.
        refine (Hrest [_] _ _ Hread); [done|].
        constructor; [by right; right|done].
      * cbn [mbind option_bind appendItem] in Hread.
        refine (Hrest [] _ _ Hread); [cbn; lia|done].
    + cbn [mbind option_bind] in Hread.
      refine (Hrest [] _ _ Hread); [cbn; lia|done].
  - unfold readSnapshot in Hread. by rewrite Hopen in Hread.
Qed.

End ClipTheorems.

Lemma openCB_returns_within_52_attempts_witness :
  exists w' err,
    openCB boardBusy ticks boardSleep 52 textBoard = Some (w', err)
    /\ (err = None
        \/ err = Some ErrClipboardBusy
           /\ 500 * 1000000 < ticks w' - ticks textBoard).
Proof.
  apply (openCB_returns_within_52_attempts boardBusy ticks boardSleep textBoard).
  - intros w. cbn. lia.
  - intros d w. cbn. lia.
Defined.

Lemma writeSnapshot_empties_the_clipboard_for_other_formats_witness :
  writeSnapshot boardOpen boardClose boardEmpty boardSet boardLastError ticks
    boardSleep idPng idImagePng decodeChecker asciiFromString 1
    [mkItem CF_DIB "aGVsbG8h" 6 "PNG" "image/png"; mkItem 49300 "aGVsbG8h" 6 "" "";
     mkItem CF_UNICODETEXT "" 0 "" ""] textBoard
  = Some (boardClose (boardEmpty textBoard), None, []).
Proof.
  apply writeSnapshot_empties_the_clipboard_for_other_formats; [|reflexivity].
  apply Forall_cons; split; [right; vm_compute; repeat split; congruence|].
  apply Forall_cons; split; [right; vm_compute; repeat split; congruence|].
  apply Forall_cons; split; [by left|constructor].
Defined.

Lemma bitmap_read_from_CF_DIB_is_never_written_witness :
  exists text,
    @inl (list Item) error
      [mkItem CF_DIB (base64 (image.Pix checker)) 16 "PNG" "image/png"]
    = inl (mkItem CF_DIB (base64 (image.Pix checker)) 16 "PNG" "image/png"
           :: text)
    /\ Fmt (mkItem CF_DIB (base64 (image.Pix checker)) 16 "PNG" "image/png")
       = CF_DIB
    /\ forall fuel2 w2 wo2,
         openCB boardOpen ticks boardSleep fuel2 w2 = Some (wo2, None) ->
         exists w3 err puts,
           writeSnapshot boardOpen boardClose boardEmpty boardSet
             boardLastError ticks boardSleep idPng idImagePng decodeChecker
             asciiFromString fuel2
             (mkItem CF_DIB (base64 (image.Pix checker)) 16 "PNG" "image/png"
              :: text) w2
           = Some (w3, err, puts)
           /\ Forall (fun p : Put => p.1 = CF_UNICODETEXT) puts.
Proof.
  apply (bitmap_read_from_CF_DIB_is_never_written boardOpen boardClose
           boardEmpty boardSet boardAvail boardGet boardLastError ticks
           boardSleep idPng idImagePng decodeChecker rawEncode asciiFromString
           asciiToString 1 bitmapBoard bitmapBoard bitmapBoard);
    try (vm_compute; congruence); reflexivity.
Defined.



Lemma readSnapshot_returns_a_picture_and_a_text_at_most_witness :
  exists picture text,
    [mkItem CF_UNICODETEXT "aGk=" 2 "CF_UNICODETEXT" "text/plain"]
    = picture ++ text
    /\ [mkItem CF_UNICODETEXT "aGk=" 2 "CF_UNICODETEXT" "text/plain"] <> []
    /\ (length picture <= 1)%nat /\ (length text <= 1)%nat
    /\ Forall (fun it => Fmt it = idPng \/ Fmt it = idImagePng
                         \/ Fmt it = CF_DIB) picture
    /\ Forall (fun it => Fmt it = CF_UNICODETEXT) text.
Proof.
  apply (readSnapshot_returns_a_picture_and_a_text_at_most boardOpen
           boardClose boardAvail boardGet ticks boardSleep idPng idImagePng
           rawEncode asciiToString 1 textBoard (boardClose textBoard)
           (inl [mkItem CF_UNICODETEXT "aGk=" 2 "CF_UNICODETEXT" "text/plain"])).
  reflexivity.
Defined.

(** The examples at work: what is read from the three clipboards, and what
    writing it to an empty clipboard puts there. *)
Example readSnapshot_examples :
  readSnapshot boardOpen boardClose boardAvail boardGet ticks boardSleep idPng
    idImagePng rawEncode asciiToString 1 bitmapBoard
  = Some (bitmapBoard,
          inl [mkItem CF_DIB (base64 (image.Pix checker)) 16 "PNG" "image/png"])
  /\ readSnapshot boardOpen boardClose boardAvail boardGet ticks boardSleep
       idPng idImagePng rawEncode asciiToString 1 pngBoard
     = Some (pngBoard, inl [mkItem idPng "iVBORw==" 4 "PNG" "image/png"])
  /\ readSnapshot boardOpen boardClose boardAvail boardGet ticks boardSleep
       idPng idImagePng rawEncode asciiToString 1 (mkBoard [] 0)
     = Some (mkBoard [] 0, inr ErrUnsupportedFormat)
  /\ readSnapshot boardBusy boardClose boardAvail boardGet ticks boardSleep
       idPng idImagePng rawEncode asciiToString 52 textBoard
     = Some (mkBoard (held textBoard) 510000000, inr ErrClipboardBusy).
Proof. repeat split; vm_compute; reflexivity. Qed.

Example writeSnapshot_examples :
  writeSnapshot boardOpen boardClose boardEmpty boardSet boardLastError ticks
    boardSleep idPng idImagePng decodeChecker asciiFromString 1
    [mkItem CF_DIB (base64 (image.Pix checker)) 16 "PNG" "image/png"]
    textBoard
  = Some (mkBoard [] 0, None, [])
  /\ writeSnapshot boardOpen boardClose boardEmpty boardSet boardLastError
       ticks boardSleep idPng idImagePng decodeChecker asciiFromString 1
       [mkItem CF_UNICODETEXT "aGk=" 2 "CF_UNICODETEXT" "text/plain"]
       (mkBoard [] 0)
     = Some (textBoard, None, held textBoard).
Proof. repeat split; vm_compute; reflexivity. Qed.

(** * The authentication header *)

Section NumberFacts.

Lemma pretty_N_char_digit d :
  (d < 10)%N ->
  Z.of_nat (nat_of_ascii (pretty_N_char d)) = 48 + Z.of_N d.
Proof.
  intros Hd.
  assert (d = 0 \/ d = 1 \/ d = 2 \/ d = 3 \/ d = 4 \/ d = 5 \/ d = 6
          \/ d = 7 \/ d = 8 \/ d = 9)%N as Hcases by lia.
  repeat (destruct Hcases as [->|Hcases]; [reflexivity|]). by subst.
Qed.

(** The digits [pretty] writes spell the number. *)
Lemma digits_val_go x :
  exists k, 0 <= k /\ forall s acc,
    Json.digits_val acc (pretty_N_go x s)
    = Json.digits_val (acc * 10 ^ k + Z.of_N x) s.
Proof.
  induction (N.lt_wf_0 x) as [x _ IH].
  assert (x = 0 \/ 0 < x)%N as [->|Hpos] by lia.
  - exists 0. split; [done|]. intros s acc. rewrite pretty_N_go_0. f_equal. lia.
  - destruct (IH (x `div` 10)%N) as (k & Hk & Hgo);
      [by apply N.div_lt|].
    exists (k + 1). split; [lia|]. intros s acc.
    rewrite pretty_N_go_step, Hgo by done. cbn [Json.digits_val].
    assert (x `mod` 10 < 10)%N as Hm by (apply N.mod_lt; lia).
    rewrite pretty_N_char_digit by done.
    assert (Z.of_N x = 10 * Z.of_N (x `div` 10) + Z.of_N (x `mod` 10)) as Hx.
    { rewrite (N.div_mod x 10) at 1 by lia.
      by rewrite N2Z.inj_add, N2Z.inj_mul. }
    generalize dependent (x `mod` 10)%N. intros m Hm Hx.
    destruct (Z.leb_spec 48 (48 + Z.of_N m)); [|lia].
    destruct (Z.leb_spec (48 + Z.of_N m) 57); [|lia].
    cbn [andb]. f_equal. rewrite Z.pow_add_r, Z.pow_1_r by lia. lia.
Qed.

Lemma digits_val_pretty_N (x : N) :
  Json.digits_val 0 (pretty x) = Some (Z.of_N x).
Proof.
  unfold pretty, pretty_N. destruct (decide (x = 0%N)) as [->|Hx]; [done|].
  destruct (digits_val_go x) as (k & _ & Hgo). rewrite Hgo. cbn [Json.digits_val]. f_equal; lia.
Qed.

Lemma pretty_N_char_byte d :
  (d < 10)%N ->
  Json.is_digit (byte_of_ascii (pretty_N_char d)) = true
  /\ (byte_of_ascii (pretty_N_char d) = x30 -> d = 0%N).
Proof.
  intros Hd.
  assert (d = 0 \/ d = 1 \/ d = 2 \/ d = 3 \/ d = 4 \/ d = 5 \/ d = 6
          \/ d = 7 \/ d = 8 \/ d = 9)%N as Hcases by lia.
  repeat (destruct Hcases as [->|Hcases]; [by split|]). by subst.
Qed.

(** The bytes [pretty] writes for a natural number: digits only, and no zero
    in front but for the number zero. *)
Lemma pretty_N_go_bytes x : forall s,
  exists ds,
    lit (pretty_N_go x s) = ds ++ lit s
    /\ Forall (fun b => Json.is_digit b = true) ds
    /\ ((0 < x)%N -> exists d more, ds = d :: more /\ d <> x30).
Proof.
  induction (N.lt_wf_0 x) as [x _ IH]. intros s.
  assert (x = 0 \/ 0 < x)%N as [->|Hpos] by lia.
  - exists []. rewrite pretty_N_go_0. split; [done|]. split; [done|]. lia.
  - rewrite pretty_N_go_step by done.
    assert (x `mod` 10 < 10)%N as Hm by (apply N.mod_lt; lia).
    destruct (pretty_N_char_byte _ Hm) as [Hdigit Hzero].
    destruct (IH (x `div` 10)%N ltac:(by apply N.div_lt)
                (String (pretty_N_char (x `mod` 10)) s))
      as (ds & Hds & Hall & Hhead).
    exists (ds ++ [byte_of_ascii (pretty_N_char (x `mod` 10))]).
    split; [by rewrite Hds, <- app_assoc|].
    split; [apply Forall_app; split; [done|by constructor]|].
    intros _. destruct (N.eq_0_gt_0_cases (x `div` 10)) as [Hq|Hq].
    + rewrite Hq, pretty_N_go_0 in Hds.
      assert (ds = []) as ->.
      { apply (f_equal length) in Hds. rewrite length_app in Hds.
        destruct ds; [done|]. cbn [length] in Hds. lia. }
      eexists _, []. split; [done|]. intros Hb. apply Hzero in Hb.
      apply N.div_small_iff in Hq; [|lia]. rewrite N.mod_small in Hb by done.
      lia.
    + destruct (Hhead Hq) as (d & more & -> & Hd).
      by eexists _, _.
Qed.

Lemma pretty_N_bytes (x : N) : isDecimal (lit (pretty x)).
Proof.
  unfold pretty, pretty_N. destruct (decide (x = 0%N)) as [->|Hx].
  - split; [by repeat constructor|]. by eexists _, _.
  - destruct (pretty_N_go_bytes x "") as (ds & Hds & Hall & Hhead).
    change (lit "") with (@nil byte) in Hds. rewrite app_nil_r in Hds.
    rewrite Hds. split; [done|].
    destruct Hhead as (d & more & -> & Hd); [lia|]. by eexists _, _.
Qed.

End NumberFacts.

Section ScanFacts.

Lemma span_digits_app ds c rest :
  Forall (fun b => Json.is_digit b = true) ds ->
  Json.is_digit c = false ->
  Json.span_digits (ds ++ c :: rest) = (ds, c :: rest).
Proof.
  intros Hall Hc. induction Hall as [|d ds Hd _ IH].
  - cbn [app Json.span_digits]. by rewrite Hc.
  - cbn [app Json.span_digits]. by rewrite Hd, IH.
Qed.

Lemma digit_not_minus d tl :
  Json.is_digit d = true ->
  match d :: tl with
  | x2d :: r => ([x2d], r)
  | _ => ([], d :: tl)
  end = ([], d :: tl).
Proof. intros Hd. by destruct d. Qed.

Lemma digit_zero d : (Json.bv d =? 48) = true -> d = x30.
Proof. by destruct d. Qed.

(** [scan_number] takes the digits an integer was written with, up to the
    comma or the brace that follows. *)
Lemma scan_number_decimal sign ds c rest :
  sign = [] \/ sign = [x2d] ->
  isDecimal ds ->
  c = x2c \/ c = x7d ->
  Json.scan_number (sign ++ ds ++ c :: rest) = Some (sign ++ ds, c :: rest).
Proof.
  intros Hsign (Hall & d & more & -> & Hzero) Hc. unfold Json.scan_number.
  assert (Json.is_digit d = true) as Hd by by apply Forall_cons in Hall as [? _].
  assert (Json.is_digit c = false) as Hcd by by destruct Hc as [->| ->].
  assert (forall sign' r0,
            sign' = sign -> r0 = (d :: more) ++ c :: rest ->
            (let '(int, r1) := Json.span_digits r0 in
             match int with
             | [] => None
             | d :: more =>
                 if (Json.bv d =? 48) && negb (length more =? 0)%nat then None
                 else
                   let frac :=
                     match r1 with
                     | x2e :: r =>
                         let '(ds, r') := Json.span_digits r in
                         match ds with
                         | [] => None
                         | _ => Some (x2e :: ds, r')
                         end
                     | _ => Some ([], r1)
                     end in
                   match frac with
                   | None => None
                   | Some (fr, r2) =>
                       match r2 with
                       | e :: r =>
                           if (Json.bv e =? 101) || (Json.bv e =? 69) then
                             let '(sg, r') :=
                               match r with
                               | x2b :: r' => ([x2b], r')
                               | x2d :: r' => ([x2d], r')
                               | _ => ([], r)
                               end in
                             let '(ds, r'') := Json.span_digits r' in
                             match ds with
                             | [] => None
                             | _ => Some (sign' ++ int ++ fr ++ e :: sg ++ ds, r'')
                             end
                           else Some (sign' ++ int ++ fr, r2)
                       | [] => Some (sign' ++ int ++ fr, r2)
                       end
                   end
             end) = Some (sign ++ d :: more, c :: rest)) as Hbody.
  { intros sign' r0 -> ->. rewrite span_digits_app by done.
    destruct (Json.bv d =? 48) eqn:Hd0.
    - apply digit_zero in Hd0. rewrite (Hzero Hd0).
      cbn [length Nat.eqb negb andb].
      destruct Hc as [->| ->]; cbn; by rewrite ?app_nil_r.
    - cbn [andb]. destruct Hc as [->| ->]; cbn; by rewrite ?app_nil_r. }
  destruct Hsign as [->| ->]; cbn [app].
  - rewrite digit_not_minus by done.
    exact (Hbody [] ((d :: more) ++ c :: rest) eq_refl eq_refl).
  - exact (Hbody [x2d] ((d :: more) ++ c :: rest) eq_refl eq_refl).
Qed.

Lemma num_shape z :
  exists sign ds,
    num z = sign ++ ds /\ (sign = [] \/ sign = [x2d]) /\ isDecimal ds.
Proof.
  unfold num, pretty, pretty_Z. destruct z as [|p|p].
  - exists [], [x30]. split; [done|]. split; [by left|].
    split; [by repeat constructor|]. by eexists _, _.
  - exists [], (lit (pretty (N.pos p))). split; [done|]. split; [by left|].
    apply pretty_N_bytes.
  - exists [x2d], (lit (pretty (N.pos p))). split; [done|]. split; [by right|].
    apply pretty_N_bytes.
Qed.

Lemma scan_value_other fuel b tl :
  Json.is_digit b = true \/ b = x2d ->
  Json.scan_value (S fuel) (b :: tl)
  = match Json.scan_number (b :: tl) with
    | Some (lit, r) => Some (Json.Number (Json.to_str lit), r)
    | None => None
    end.
Proof.
  intros [Hb| ->]; [|reflexivity].
  destruct b; try discriminate Hb; reflexivity.
Qed.

(** A number that [num] wrote is scanned back as the literal [pretty]
    writes. *)
Lemma scan_value_num fuel z c rest :
  c = x2c \/ c = x7d ->
  Json.scan_value (S fuel) (num z ++ c :: rest)
  = Some (Json.Number (pretty z), c :: rest).
Proof.
  intros Hc. destruct (num_shape z) as (sign & ds & Hnum & Hsign & Hdec).
  pose proof (scan_number_decimal sign ds c rest Hsign Hdec Hc) as Hscan.
  rewrite app_assoc, <- Hnum in Hscan.
  assert (Json.to_str (num z) = pretty z) as Hstr
    by apply string_of_list_byte_of_string.
  destruct Hdec as (Hall & d & more & -> & _).
  assert (Json.is_digit d = true) as Hd by by apply Forall_cons in Hall as [? _].
  assert (exists b tl, num z = b :: tl /\ (Json.is_digit b = true \/ b = x2d))
    as (b & tl & Hb & Hbd).
  { rewrite Hnum. destruct Hsign as [->| ->]; eexists _, _; split; try done.
    - by left.
    - by right. }
  rewrite Hb in Hscan |- *. cbn [app] in Hscan |- *.
  rewrite scan_value_other, Hscan by done. by rewrite <- Hb, Hstr.
Qed.

Lemma int_of_lit_digits lo hi c r :
  c <> "-"%char ->
  Json.int_of_lit lo hi (String c r)
  = match Json.digits_val 0 (String c r) with
    | Some z => if (lo <=? z) && (z <=? hi) then Some z else None
    | None => None
    end.
Proof.
  intros Hc. unfold Json.int_of_lit.
  destruct c as [[] [] [] [] [] [] [] []]; try done.
Qed.

Lemma pretty_N_string (x : N) :
  exists c r, pretty x = String c r /\ c <> "-"%char.
Proof.
  destruct (pretty_N_bytes x) as (Hall & d & more & Hlit & _).
  destruct (pretty x) as [|c r]; [done|]. exists c, r. split; [done|].
  intros ->. unfold lit in Hlit. cbn in Hlit. injection Hlit as <- _.
  by apply Forall_cons in Hall as [? _].
Qed.

(** [strconv.ParseInt] reads back what [strconv.AppendInt] wrote. *)
Lemma int_of_lit_pretty lo hi z :
  lo <= z <= hi -> Json.int_of_lit lo hi (pretty z) = Some z.
Proof.
  intros Hz. unfold pretty, pretty_Z. destruct z as [|p|p].
  - change (Json.int_of_lit lo hi "0")
      with (if (lo <=? 0) && (0 <=? hi) then Some 0 else None).
    destruct (Z.leb_spec lo 0); [|lia]. destruct (Z.leb_spec 0 hi); [done|lia].
  - destruct (pretty_N_string (N.pos p)) as (c & r & Hp & Hc).
    change (pretty p) with (pretty (N.pos p)).
    pose proof (digits_val_pretty_N (N.pos p)) as Hval.
    rewrite Hp in Hval |- *. rewrite int_of_lit_digits, Hval by done.
    change (Z.of_N (N.pos p)) with (Z.pos p).
    destruct (Z.leb_spec lo (Z.pos p)); [|lia].
    destruct (Z.leb_spec (Z.pos p) hi); [done|lia].
  - destruct (pretty_N_string (N.pos p)) as (c & r & Hp & Hc).
    change (pretty p) with (pretty (N.pos p)).
    pose proof (digits_val_pretty_N (N.pos p)) as Hval.
    rewrite Hp in Hval |- *. unfold Json.int_of_lit.
    change ("-" +:+ String c r) with (String "-" (String c r)).
    cbv iota beta. rewrite Hval. cbn [option_map].
    change (- Z.of_N (N.pos p)) with (Z.neg p).
    destruct (Z.leb_spec lo (Z.neg p)); [|lia].
    destruct (Z.leb_spec (Z.neg p) hi); [done|lia].
Qed.

End ScanFacts.

Section TokenFacts.

Lemma scan_object_start f rest :
  Json.scan_value (S f) (x7b :: x22 :: rest)
  = Json.scan_members f (x22 :: rest) [].
Proof. reflexivity. Qed.

Lemma scan_member_ts f R acc v rest :
  Json.scan_value f R = Some (v, x2c :: rest) ->
  Json.scan_members (S f) (x22 :: x74 :: x73 :: x22 :: x3a :: R) acc
  = Json.scan_members f rest (acc ++ [("ts", v)]).
Proof.
  intros H.
  change (Json.scan_members (S f) (x22 :: x74 :: x73 :: x22 :: x3a :: R) acc)
    with (match Json.scan_value f R with
          | Some (v, r3) =>
              match Json.skip_ws r3 with
              | x2c :: r4 => Json.scan_members f r4 (acc ++ [("ts", v)])
              | x7d :: r4 => Some (Json.Object (acc ++ [("ts", v)]), r4)
              | _ => None
              end
          | None => None
          end).
  by rewrite H.
Qed.

Lemma scan_member_ts_enc f R acc v rest :
  Json.scan_value f R = Some (v, x7d :: rest) ->
  Json.scan_members (S f)
    (x22 :: x74 :: x73 :: x5f :: x65 :: x6e :: x63 :: x22 :: x3a :: R) acc
  = Some (Json.Object (acc ++ [("ts_enc", v)]), rest).
Proof.
  intros H.
  change (Json.scan_members (S f)
            (x22 :: x74 :: x73 :: x5f :: x65 :: x6e :: x63 :: x22 :: x3a :: R)
            acc)
    with (match Json.scan_value f R with
          | Some (v, r3) =>
              match Json.skip_ws r3 with
              | x2c :: r4 => Json.scan_members f r4 (acc ++ [("ts_enc", v)])
              | x7d :: r4 => Some (Json.Object (acc ++ [("ts_enc", v)]), r4)
              | _ => None
              end
          | None => None
          end).
  by rewrite H.
Qed.

(** The JSON of a token, scanned. *)
Lemma scan_token ts tsEnc :
  Json.scan (lit "{" ++ key "ts" ++ num ts ++ lit "," ++ key "ts_enc"
             ++ num tsEnc ++ lit "}")
  = Some (Json.Object [("ts", Json.Number (pretty ts));
                       ("ts_enc", Json.Number (pretty tsEnc))], []).
Proof.
  unfold Json.scan.
  change (lit "{") with [x7b]. change (lit ",") with [x2c].
  change (lit "}") with [x7d].
  change (key "ts") with [x22; x74; x73; x22; x3a].
  change (key "ts_enc")
    with [x22; x74; x73; x5f; x65; x6e; x63; x22; x3a].
  remember (2 * length _ + 2)%nat as fuel eqn:Hfuel.
  assert (4 <= fuel)%nat as Hge.
  { rewrite Hfuel. cbn [app length]. lia. }
  clear Hfuel. destruct fuel as [|[|[|[|f]]]]; try lia. clear Hge.
  cbn [app].
  rewrite scan_object_start.
  rewrite (scan_member_ts _ _ _ (Json.Number (pretty ts))
             ([x22; x74; x73; x5f; x65; x6e; x63; x22; x3a]
              ++ num tsEnc ++ [x7d])).
  2:{ apply (scan_value_num _ ts x2c). by left. }
  cbn [app].
  rewrite (scan_member_ts_enc _ _ _ (Json.Number (pretty tsEnc)) []);
    [done|].
  apply (scan_value_num _ tsEnc x7d). by right.
Qed.

Lemma decode_token ts tsEnc :
  GoInt.MinInt <= ts <= GoInt.MaxInt ->
  GoInt.MinInt <= tsEnc <= GoInt.MaxInt ->
  Json.decode_struct token.fields token.zero
    (Json.Object [("ts", Json.Number (pretty ts));
                  ("ts_enc", Json.Number (pretty tsEnc))])
  = Some (token.mk ts tsEnc).
Proof.
  intros Hts Henc.
  change (Json.decode_struct token.fields token.zero
            (Json.Object [("ts", Json.Number (pretty ts));
                          ("ts_enc", Json.Number (pretty tsEnc))]))
    with (let '(x, ok) :=
            match Json.int_of_lit GoInt.MinInt GoInt.MaxInt (pretty ts)
                  ≫= (fun z => Some (token.mk z 0)) with
            | Some x' =>
                match Json.int_of_lit GoInt.MinInt GoInt.MaxInt (pretty tsEnc)
                      ≫= (fun z => Some (token.mk (token.TS x') z)) with
                | Some x'' => (x'', true)
                | None => (x', false)
                end
            | None =>
                let '(x', _) :=
                  match Json.int_of_lit GoInt.MinInt GoInt.MaxInt
                          (pretty tsEnc)
                        ≫= (fun z => Some (token.mk 0 z)) with
                  | Some x'' => (x'', true)
                  | None => (token.zero, false)
                  end in (x', false)
            end in
          if ok then Some x else None).
  by rewrite !int_of_lit_pretty.
Qed.

Lemma lxor_int64 a b :
  GoInt.MinInt <= a <= GoInt.MaxInt -> GoInt.MinInt <= b <= GoInt.MaxInt ->
  GoInt.MinInt <= Z.lxor a b <= GoInt.MaxInt.
Proof.
  rewrite MaxInt_val. assert (GoInt.MinInt = - 2 ^ 63) as -> by reflexivity.
  intros Ha Hb.
  assert (forall z, - 2 ^ 63 <= z <= 9223372036854775807
                    <-> Z.shiftr z 63 = 0 \/ Z.shiftr z 63 = -1) as Hrange.
  { intros z. rewrite Z.shiftr_div_pow2 by lia. split.
    - intros Hz. Z.div_mod_to_equations. lia.
    - intros Hz. Z.div_mod_to_equations. lia. }
  apply Hrange in Ha, Hb. apply Hrange. rewrite Z.shiftr_lxor.
  destruct Ha as [->| ->], Hb as [->| ->]; auto.
Qed.

Lemma wrap_range z : GoInt.MinInt <= GoInt.wrap z <= GoInt.MaxInt.
Proof.
  rewrite MaxInt_val. assert (GoInt.MinInt = - 2 ^ 63) as -> by reflexivity.
  unfold GoInt.wrap. pose proof (Z.mod_pos_bound (z + 2 ^ 63) (2 ^ 64)). lia.
Qed.

Lemma wrap_mod z : 0 <= z < 2 ^ 64 -> GoInt.wrap z mod 2 ^ 64 = z.
Proof.
  intros Hz. unfold GoInt.wrap. Z.div_mod_to_equations. lia.
Qed.

End TokenFacts.

Section AuthHeader.

Context {World : Type}.
Variable now : World -> Z.

(** The header of [buildAuthHeader] is read back, as [TestBuildAuthHeader]
    reads it, for every key and every time of the clock: it decodes and
    parses to a token with the time and with [ts_enc = ts ^ int64(key64)].
    So the header does not keep the key secret: whoever sees one header has
    the key, [ts ^ ts_enc]. *)
Theorem buildAuthHeader_gives_the_key_away (c : httpClient) (w : World) :
  GoInt.MinInt <= now w <= GoInt.MaxInt ->
  0 <= key64 c < 2 ^ 64 ->
  exists tok,
    readToken (buildAuthHeader now c w) = Some tok
    /\ token.TS tok = now w
    /\ token.TSEnc tok = Z.lxor (token.TS tok) (GoInt.wrap (key64 c))
    /\ Z.lxor (token.TS tok) (token.TSEnc tok) mod 2 ^ 64 = key64 c.
Proof.
  intros Hts Hkey.
  exists (token.mk (now w) (Z.lxor (now w) (GoInt.wrap (key64 c)))).
  split; [|split; [done|split; [done|]]].
  - unfold readToken, buildAuthHeader. rewrite DecodeString_base64, scan_token.
    cbn [Json.all_ws forallb]. apply decode_token; [done|].
    apply lxor_int64; [done|apply wrap_range].
  - cbn [token.TS token.TSEnc].
    rewrite <- Z.lxor_assoc, Z.lxor_nilpotent, Z.lxor_0_l. by apply wrap_mod.
Qed.

End AuthHeader.

Lemma buildAuthHeader_gives_the_key_away_witness :
  exists tok,
    readToken (buildAuthHeader clock (mkClient "" "deadbeef" 0xfedcba9876543210)
                 0%nat) = Some tok
    /\ token.TS tok = clock 0
    /\ token.TSEnc tok = Z.lxor (token.TS tok) (GoInt.wrap 0xfedcba9876543210)
    /\ Z.lxor (token.TS tok) (token.TSEnc tok) mod 2 ^ 64 = 0xfedcba9876543210.
Proof.
  apply (buildAuthHeader_gives_the_key_away clock
           (mkClient "" "deadbeef" 0xfedcba9876543210) 0%nat);
    vm_compute; split; congruence.
Defined.

(** The header of the test, read back. *)
Example readToken_example :
  readToken "eyJ0cyI6MTcwMDAwMDAwMCwidHNfZW5jIjotODE5ODU1MzA4ODI0NDA0MzJ9"
  = Some (token.mk 1700000000 (-81985530882440432))
  /\ Z.lxor 1700000000 (-81985530882440432) mod 2 ^ 64 = 0xfedcba9876543210
  /\ readToken "eyJ0cyI6MTcwMDAwMDAwMH0" = None.
Proof. repeat split; vm_compute; reflexivity. Qed.
